(** * AI Arcade: URL validation, sanitisation and the game store

    A shallow embedding of the TypeScript sources
    - [src/services/urlValidator.ts]  (URLValidator),
    - [src/utils/constants.ts]        (URL_PATTERNS, VALIDATION_LIMITS),
    - [src/utils/sanitization.ts]     (sanitizeText, sanitizeTags, ...),
    - [src/utils/helpers.ts]          (validateGameData),
    - [src/services/gameStorage.ts]   (GameStorage, in its localStorage
      and its Supabase version),
    - [src/components/game/GameSubmission.tsx] (handleSubmit),
    followed by the properties of the specification stated over it.

    The later chapters carry the embedding further, each with the
    properties proved of it: the parser and the serialiser of URLs read
    each other's results; [sanitizeHtml]; [truncateText]; the tag
    controls of the submission form; the gallery
    ([src/components/game/GameGallery.tsx]: its filter and its pages);
    the storage hook ([src/hooks/useGameStorage.ts]). *)

From Stdlib Require Import String Ascii.
From Stdlib Require Import List Bool Arith NArith ZArith Lia Sorted.
Import ListNotations.

Set Implicit Arguments.

(* ===================================================================== *)
(** * JavaScript strings *)
(* ===================================================================== *)

(** A JavaScript string is a sequence of UTF-16 code units; [length],
    [trim], [startsWith], [indexOf] and regular expressions without the
    [u] flag all work on code units. *)

Module JS.

Definition jsstring := list N.

(** A literal of the source text. *)
Definition lit (s : string) : jsstring :=
  map N_of_ascii (list_ascii_of_string s).

Definition eqb (a b : jsstring) : bool :=
  if list_eq_dec N.eq_dec a b then true else false.

Lemma eqb_eq (a b : jsstring) : eqb a b = true <-> a = b.
Proof.
  unfold eqb. destruct (list_eq_dec N.eq_dec a b); split; congruence.
Qed.

Lemma eqb_refl (a : jsstring) : eqb a a = true.
Proof. apply eqb_eq. reflexivity. Qed.

Definition in_range (lo hi c : N) : bool := (lo <=? c)%N && (c <=? hi)%N.

(** WhiteSpace and LineTerminator of ECMA-262: what [trim] strips and
    what [\s] matches. *)
Definition is_space (c : N) : bool :=
  in_range 9 13 c || (c =? 32)%N || (c =? 160)%N || (c =? 5760)%N
  || in_range 8192 8202 c || (c =? 8232)%N || (c =? 8233)%N
  || (c =? 8239)%N || (c =? 8287)%N || (c =? 12288)%N || (c =? 65279)%N.

Fixpoint trimStart (s : jsstring) : jsstring :=
  match s with
  | c :: t => if is_space c then trimStart t else s
  | [] => []
  end.

Definition trimEnd (s : jsstring) : jsstring := rev (trimStart (rev s)).

Definition trim (s : jsstring) : jsstring := trimEnd (trimStart s).

Fixpoint startsWith (p s : jsstring) : bool :=
  match p, s with
  | [], _ => true
  | a :: p', b :: s' => (a =? b)%N && startsWith p' s'
  | _ :: _, [] => false
  end.

(** Truthiness of a string: every string but the empty one. *)
Definition truthy (s : jsstring) : bool :=
  match s with [] => false | _ :: _ => true end.

Definition ascii_upper (c : N) : N := if in_range 97 122 c then (c - 32)%N else c.
Definition ascii_lower (c : N) : N := if in_range 65 90 c then (c + 32)%N else c.

Definition is_digit (c : N) : bool := in_range 48 57 c.
Definition is_alpha (c : N) : bool := in_range 65 90 c || in_range 97 122 c.
Definition is_alnum (c : N) : bool := is_alpha c || is_digit c.

(** Decimal rendering of a non-negative integer ([String(n)]): the
    digits of [n / 10], if any, then the last digit. *)
Fixpoint decimal_digits (fuel : nat) (n : N) : jsstring :=
  match fuel with
  | O => []
  | S fuel' =>
      (if (n <? 10)%N then [] else decimal_digits fuel' (n / 10))
      ++ [(48 + n mod 10)%N]
  end.

Definition decimal (n : N) : jsstring :=
  decimal_digits (S (N.to_nat (N.log2 n))) n.

(** Strictly split on a code unit. *)
Fixpoint split_on (d : N) (s : jsstring) : list jsstring :=
  match s with
  | [] => [[]]
  | c :: t =>
      if (c =? d)%N then [] :: split_on d t
      else match split_on d t with
           | h :: r => (c :: h) :: r
           | [] => [[c]]
           end
  end.

(** [parts.join(separator)] *)
Fixpoint join (separator : jsstring) (parts : list jsstring) : jsstring :=
  match parts with
  | [] => []
  | [p] => p
  | p :: rest => p ++ separator ++ join separator rest
  end.

(** [s.includes(sub)] *)
Fixpoint includes (s sub : jsstring) : bool :=
  startsWith sub s ||
  match s with
  | [] => false
  | _ :: t => includes t sub
  end.

(** [a < b] on strings: the order of the code units. *)
Fixpoint ltb (a b : jsstring) : bool :=
  match a, b with
  | _, [] => false
  | [], _ :: _ => true
  | x :: a', y :: b' => (x <? y)%N || ((x =? y)%N && ltb a' b')
  end.

End JS.

Import JS.

(* ===================================================================== *)
(** * Regular expressions *)
(* ===================================================================== *)

(** The backtracking matcher of ECMA-262 (section RegExp Pattern
    Semantics) for the constructs the sources use, in continuation
    passing style as in the standard: a matcher takes the position and a
    continuation and returns the end state of the first successful
    path.  A position is the code unit before it (for [^] and [\b]) and
    the text from it on. *)

Module RegExp.

Inductive class_item : Type :=
| CChar (c : N)               (* a single character *)
| CRange (lo hi : N)          (* lo-hi *)
| CSpace.                     (* \s *)

Inductive regex : Type :=
| Eps                                         (* the empty pattern *)
| Chr (c : N)                                 (* a pattern character *)
| Cls (invert : bool) (items : list class_item)  (* [...] and [^...] *)
| Seq (r1 r2 : regex)                         (* r1 r2 *)
| Rep (min max : nat) (r : regex)             (* r{min,max}, greedy *)
| Star (r : regex)                            (* r*, greedy *)
| Bol                                         (* ^ *)
| Eol                                         (* $ *)
| WordB                                       (* \b *)
| NegLook (r : regex).                        (* (?!r) *)

(** [r?] and [r+]. *)
Definition Opt (r : regex) : regex := Rep 0 1 r.
Definition Plus (r : regex) : regex := Seq r (Star r).

(** A run of pattern characters. *)
Definition str (s : jsstring) : regex :=
  fold_right (fun c r => Seq (Chr c) r) Eps s.

Definition state : Type := option N * jsstring.
Definition cont : Type := option N -> jsstring -> option state.
Definition matcher : Type := option N -> jsstring -> cont -> option state.

(** Canonicalize (without the [u] flag) maps a code unit to its upper
    case, and never maps a code unit from 128 up to one below 128.
    Every pattern character of the sources is ASCII, so whether two
    canonical forms agree is decided by the ASCII letters alone. *)
Definition canon (ignoreCase : bool) (c : N) : N :=
  if ignoreCase then ascii_upper c else c.

Definition item_match (ignoreCase : bool) (x : N) (it : class_item) : bool :=
  match it with
  | CChar c => (canon ignoreCase c =? canon ignoreCase x)%N
  | CRange lo hi =>
      if ignoreCase
      then in_range lo hi x || in_range lo hi (ascii_upper x)
           || in_range lo hi (ascii_lower x)
      else in_range lo hi x
  | CSpace => is_space x
  end.

Definition is_word (c : option N) : bool :=
  match c with
  | Some c => is_alnum c || (c =? 95)%N
  | None => false
  end.

(** RepeatMatcher: at most [max] further iterations, [min] of them
    compulsory; an optional iteration that consumes nothing fails. *)
Fixpoint repeat_matcher (m : matcher) (min max : nat)
    (prev : option N) (s : jsstring) (k : cont) : option state :=
  match max with
  | O => k prev s
  | S max' =>
      let d : cont := fun p' s' =>
        if (min =? 0)%nat && (length s' =? length s)%nat then None
        else repeat_matcher m (pred min) max' p' s' k in
      if (min =? 0)%nat then
        match m prev s d with
        | Some z => Some z
        | None => k prev s
        end
      else m prev s d
  end.

Fixpoint rmatch (ignoreCase : bool) (r : regex) : matcher :=
  fun prev s k =>
  match r with
  | Eps => k prev s
  | Chr c =>
      match s with
      | x :: t => if (canon ignoreCase c =? canon ignoreCase x)%N
                  then k (Some x) t else None
      | [] => None
      end
  | Cls invert items =>
      match s with
      | x :: t => if xorb invert (existsb (item_match ignoreCase x) items)
                  then k (Some x) t else None
      | [] => None
      end
  | Seq r1 r2 =>
      rmatch ignoreCase r1 prev s (fun p' s' => rmatch ignoreCase r2 p' s' k)
  | Rep min max r1 => repeat_matcher (rmatch ignoreCase r1) min max prev s k
  | Star r1 =>
      (* no bound on the iterations: each one consumes a code unit, so
         [length s] of them are all there can be *)
      repeat_matcher (rmatch ignoreCase r1) 0 (length s) prev s k
  | Bol => match prev with None => k prev s | Some _ => None end
  | Eol => match s with [] => k prev s | _ :: _ => None end
  | WordB =>
      if xorb (is_word prev) (is_word (hd_error s)) then k prev s else None
  | NegLook r1 =>
      match rmatch ignoreCase r1 prev s (fun p' s' => Some (p', s')) with
      | Some _ => None
      | None => k prev s
      end
  end.

Record RegExp : Type := { pattern : regex; ignoreCase : bool }.

(** The match at this very position, if any. *)
Definition match_here (re : RegExp) (prev : option N) (s : jsstring)
  : option state :=
  rmatch (ignoreCase re) (pattern re) prev s (fun p' s' => Some (p', s')).

(** [re.test(s)] of a regular expression without the [g] flag: is there
    a match starting at some index? *)
Fixpoint test_from (re : RegExp) (prev : option N) (s : jsstring) : bool :=
  match match_here re prev s with
  | Some _ => true
  | None =>
      match s with
      | [] => false
      | c :: t => test_from re (Some c) t
      end
  end.

Definition test (re : RegExp) (s : jsstring) : bool := test_from re None s.

(** [s.replace(re, rep)] of a regular expression with the [g] flag and
    a replacement text without [$]: every match, left to right, gives
    way to [rep].  [skip] counts the code units of the current match
    that are still to be passed over. *)
Fixpoint replace_from (re : RegExp) (rep : jsstring) (skip : nat)
    (prev : option N) (s : jsstring) : jsstring :=
  match skip with
  | S n =>
      match s with
      | c :: t => replace_from re rep n (Some c) t
      | [] => []
      end
  | O =>
      match match_here re prev s with
      | Some (_, s') =>
          rep ++
          match s with
          | c :: t =>
              match (length s - length s')%nat with
              | O => c :: replace_from re rep 0 (Some c) t
              | S n => replace_from re rep n (Some c) t
              end
          | [] => []
          end
      | None =>
          match s with
          | c :: t => c :: replace_from re rep 0 (Some c) t
          | [] => []
          end
      end
  end.

Definition replace (re : RegExp) (rep : jsstring) (s : jsstring) : jsstring :=
  replace_from re rep 0 None s.

End RegExp.

Import RegExp.

(* ===================================================================== *)
(** * The platform's URL parser *)
(* ===================================================================== *)

(** [new URL(s)] and [url.toString()] follow the WHATWG URL standard.
    [URLValidator.validate] hands the parser only strings that
    [URL_PATTERNS.URL_REGEX] has accepted: ["http://"] or ["https://"]
    followed by code units among [-a-zA-Z0-9()@:%_+.~#?&/=].  The model
    below is the standard's basic URL parser on such input, state by
    state; the branches for other schemes, for a base URL, for [\],
    tabs and newlines, for [[...]] hosts and for the file scheme cannot
    be reached from it and are left out. *)

Module WHATWG.

Inductive Host : Type :=
| Domain (d : jsstring)
| IPv4 (address : N).

Record URLRecord : Type := {
  scheme : jsstring;
  username : jsstring;
  password : jsstring;
  host : Host;
  port : option N;
  path : list jsstring;
  query : option jsstring;
  fragment : option jsstring
}.

Definition mem (c : N) (l : list N) : bool := existsb (N.eqb c) l.

(** ** Percent-encode sets *)

Definition c0_control_set (c : N) : bool := (c <=? 31)%N || (126 <? c)%N.
Definition fragment_set (c : N) : bool :=
  c0_control_set c || mem c [32; 34; 60; 62; 96]%N.
Definition query_set (c : N) : bool :=
  c0_control_set c || mem c [32; 34; 35; 60; 62]%N.
Definition special_query_set (c : N) : bool := query_set c || (c =? 39)%N.
Definition path_set (c : N) : bool :=
  query_set c || mem c [63; 94; 96; 123; 125]%N.
Definition userinfo_set (c : N) : bool :=
  path_set c || mem c [47; 58; 59; 61; 64; 124]%N || in_range 91 93 c.

Definition hex_digit (n : N) : N := if (n <? 10)%N then (48 + n)%N else (55 + n)%N.

Definition percent_encode_byte (b : N) : jsstring :=
  [37%N; hex_digit ((b / 16) mod 16); hex_digit (b mod 16)].

(** UTF-8 of a code unit of the Basic Multilingual Plane. *)
Definition utf8 (c : N) : list N :=
  if (c <? 128)%N then [c]
  else if (c <? 2048)%N then [192 + c / 64; 128 + c mod 64]%N
  else [224 + c / 4096; 128 + (c / 64) mod 64; 128 + c mod 64]%N.

Definition percent_encode (set : N -> bool) (c : N) : jsstring :=
  if set c then flat_map percent_encode_byte (utf8 c) else [c].

Definition hex_value (c : N) : option N :=
  if is_digit c then Some (c - 48)%N
  else if in_range 65 70 c then Some (c - 55)%N
  else if in_range 97 102 c then Some (c - 87)%N
  else None.

Fixpoint percent_decode (s : list N) : list N :=
  match s with
  | [] => []
  | c :: t =>
      match t with
      | h :: l :: t' =>
          match hex_value h, hex_value l with
          | Some a, Some b =>
              if (c =? 37)%N then (16 * a + b)%N :: percent_decode t'
              else c :: percent_decode t
          | _, _ => c :: percent_decode t
          end
      | _ => c :: percent_decode t
      end
  end.

(** ** Hosts *)

Definition digit_value (R : N) (c : N) : option N :=
  match hex_value c with
  | Some v => if (v <? R)%N then Some v else None
  | None => None
  end.

Definition parse_radix (R : N) (s : jsstring) : option N :=
  fold_left (fun acc c =>
               match acc, digit_value R c with
               | Some a, Some v => Some (a * R + v)%N
               | _, _ => None
               end) s (Some 0%N).

(** The IPv4 number parser. *)
Definition ipv4_number (input : jsstring) : option N :=
  match input with
  | [] => None
  | [_] => parse_radix 10 input
  | a :: b :: t =>
      if (a =? 48)%N && ((b =? 120)%N || (b =? 88)%N) then
        match t with [] => Some 0%N | _ => parse_radix 16 t end
      else if (a =? 48)%N then parse_radix 8 (b :: t)
      else parse_radix 10 input
  end.

(** [parts] without its last item when that one is empty and not alone. *)
Definition drop_last_empty (parts : list jsstring) : list jsstring :=
  match last parts [0%N] with
  | [] => if (1 <? length parts)%nat then removelast parts else parts
  | _ :: _ => parts
  end.

(** The ends-in-a-number checker. *)
Definition ends_in_a_number (input : jsstring) : bool :=
  let parts := split_on 46 input in
  match last parts [0%N], parts with
  | [], [_] => false
  | _, _ =>
      let lst := last (drop_last_empty parts) [] in
      (truthy lst && forallb is_digit lst)
      || (match ipv4_number lst with Some _ => true | None => false end)
  end.

Fixpoint ipv4_sum (numbers : list N) (counter : N) : N :=
  match numbers with
  | [] => 0
  | n :: t => (n * 256 ^ (3 - counter) + ipv4_sum t (counter + 1))%N
  end.

Fixpoint all_some (l : list (option N)) : option (list N) :=
  match l with
  | [] => Some []
  | Some x :: t => option_map (cons x) (all_some t)
  | None :: _ => None
  end.

(** The IPv4 parser. *)
Definition ipv4_parser (input : jsstring) : option N :=
  let parts := drop_last_empty (split_on 46 input) in
  if (4 <? length parts)%nat then None
  else
    match all_some (map ipv4_number parts) with
    | None => None
    | Some numbers =>
        let lst := last numbers 0%N in
        let front := removelast numbers in
        if existsb (fun n => (255 <? n)%N) front then None
        else if (256 ^ (5 - N.of_nat (length numbers)) <=? lst)%N then None
        else Some (lst + ipv4_sum front 0)%N
    end.

Definition forbidden_host_code_point (c : N) : bool :=
  mem c [0; 9; 10; 13; 32; 35; 47; 58; 60; 62; 63; 64; 91; 92; 93; 94; 124]%N.

Definition forbidden_domain_code_point (c : N) : bool :=
  forbidden_host_code_point c || (c <=? 31)%N || (c =? 37)%N || (c =? 127)%N.

(** Does a label start with ["xn--"], whatever the case? *)
Definition ace_label (l : jsstring) : bool :=
  startsWith (lit "xn--") (map ascii_lower l).

Section Parser.

(** Domain to ASCII runs the Unicode IDNA processing (UTS #46).  On a
    domain of ASCII code points none of whose labels starts with
    ["xn--"] that processing is ASCII lower-casing, as the standard
    notes; what it gives on any other domain is left to the parameter
    [Unicode_ToASCII], which receives the percent-decoded bytes. *)
Variable Unicode_ToASCII : list N -> option jsstring.

Definition domain_to_ASCII (bytes : list N) : option jsstring :=
  let result :=
    if forallb (fun b => (b <? 128)%N) bytes
       && negb (existsb ace_label (split_on 46 bytes))
    then Some (map ascii_lower bytes)
    else Unicode_ToASCII bytes in
  match result with
  | Some [] => None
  | r => r
  end.

(** The host parser, for a host that is not opaque. *)
Definition host_parser (input : jsstring) : option Host :=
  match domain_to_ASCII (percent_decode (flat_map utf8 input)) with
  | None => None
  | Some asciiDomain =>
      if existsb forbidden_domain_code_point asciiDomain then None
      else if ends_in_a_number asciiDomain
      then option_map IPv4 (ipv4_parser asciiDomain)
      else Some (Domain asciiDomain)
  end.

(** ** The states of the basic URL parser *)

(** Scheme start state and scheme state: the scheme, lower-cased, and
    what follows its [:]. *)
Fixpoint scheme_state (buffer input : jsstring) : option (jsstring * jsstring) :=
  match input with
  | [] => None
  | c :: t =>
      if is_alnum c || mem c [43; 45; 46]%N
      then scheme_state (buffer ++ [ascii_lower c]) t
      else if (c =? 58)%N then Some (buffer, t)
      else None
  end.

Definition scheme_start_state (input : jsstring) : option (jsstring * jsstring) :=
  match input with
  | c :: t => if is_alpha c then scheme_state [ascii_lower c] t else None
  | [] => None
  end.

(** Special authority slashes state and special authority ignore
    slashes state. *)
Fixpoint ignore_slashes (input : jsstring) : jsstring :=
  match input with
  | c :: t => if (c =? 47)%N then ignore_slashes t else input
  | [] => []
  end.

Definition authority_end (c : N) : bool := mem c [47; 63; 35]%N.

(** The credentials in [buffer], code point by code point. *)
Fixpoint credentials (buffer : jsstring) (passwordTokenSeen : bool)
    (username password : jsstring) : bool * jsstring * jsstring :=
  match buffer with
  | [] => (passwordTokenSeen, username, password)
  | c :: t =>
      if (c =? 58)%N && negb passwordTokenSeen
      then credentials t true username password
      else if passwordTokenSeen
      then credentials t true username (password ++ percent_encode userinfo_set c)
      else credentials t false (username ++ percent_encode userinfo_set c) password
  end.

Record authority : Type := {
  atSignSeen : bool;
  auth_username : jsstring;
  auth_password : jsstring;
  auth_buffer : jsstring;        (* what follows the last [@] *)
  auth_rest : jsstring           (* from the end of the authority on *)
}.

(** Authority state. *)
Fixpoint authority_state (input : jsstring) (seen tokenSeen : bool)
    (user pass buffer : jsstring) : authority :=
  match input with
  | [] => {| atSignSeen := seen; auth_username := user; auth_password := pass;
             auth_buffer := buffer; auth_rest := [] |}
  | c :: t =>
      if (c =? 64)%N then
        let buffer' := if seen then lit "%40" ++ buffer else buffer in
        let '(tokenSeen', user', pass') := credentials buffer' tokenSeen user pass in
        authority_state t true tokenSeen' user' pass' []
      else if authority_end c then
        {| atSignSeen := seen; auth_username := user; auth_password := pass;
           auth_buffer := buffer; auth_rest := input |}
      else authority_state t seen tokenSeen user pass (buffer ++ [c])
  end.

Fixpoint span (p : N -> bool) (s : jsstring) : jsstring * jsstring :=
  match s with
  | c :: t => if p c then let (a, b) := span p t in (c :: a, b) else ([], s)
  | [] => ([], [])
  end.

Definition default_port (scheme : jsstring) : option N :=
  if eqb scheme (lit "http") then Some 80%N
  else if eqb scheme (lit "https") then Some 443%N
  else None.

(** Port state, on what follows the [:] of the host. *)
Definition port_state (scheme digits : jsstring) : option (option N) :=
  if forallb is_digit digits then
    match digits with
    | [] => Some None
    | _ =>
        match parse_radix 10 digits with
        | Some p =>
            if (65535 <? p)%N then None
            else
              match default_port scheme with
              | Some d => if (d =? p)%N then Some None else Some (Some p)
              | None => Some (Some p)
              end
        | None => None
        end
    end
  else None.

(** Host state (and hostname state), then port state. *)
Definition host_state (scheme buffer : jsstring) : option (Host * option N) :=
  let (name, after) := span (fun c => negb (c =? 58)%N) buffer in
  match name with
  | [] => None
  | _ =>
      match host_parser name with
      | None => None
      | Some h =>
          match after with
          | [] => Some (h, None)
          | _ :: digits => option_map (pair h) (port_state scheme digits)
          end
      end
  end.

Definition single_dot (segment : jsstring) : bool :=
  let l := map ascii_lower segment in
  eqb l (lit ".") || eqb l (lit "%2e").

Definition double_dot (segment : jsstring) : bool :=
  let l := map ascii_lower segment in
  eqb l (lit "..") || eqb l (lit ".%2e") || eqb l (lit "%2e.")
  || eqb l (lit "%2e%2e").

(** Shorten the path. *)
Definition shorten (path : list jsstring) : list jsstring := removelast path.

(** What path state does with [buffer] when it meets the end of a
    segment; [slash] tells whether that end is a [/]. *)
Definition end_of_segment (buffer : jsstring) (slash : bool)
    (path : list jsstring) : list jsstring :=
  if double_dot buffer then
    if slash then shorten path else shorten path ++ [[]]
  else if single_dot buffer then
    if slash then path else path ++ [[]]
  else path ++ [buffer].

(** Path state: the path and what follows it. *)
Fixpoint path_state (input buffer : jsstring) (path : list jsstring)
  : list jsstring * jsstring :=
  match input with
  | [] => (end_of_segment buffer false path, [])
  | c :: t =>
      if (c =? 47)%N then path_state t [] (end_of_segment buffer true path)
      else if (c =? 63)%N || (c =? 35)%N
      then (end_of_segment buffer false path, input)
      else path_state t (buffer ++ percent_encode path_set c) path
  end.

(** Path start state, for a special scheme. *)
Definition path_start_state (input : jsstring) : list jsstring * jsstring :=
  match input with
  | c :: t => if (c =? 47)%N then path_state t [] [] else path_state input [] []
  | [] => path_state [] [] []
  end.

(** Query state and fragment state, on what follows the path. *)
Definition query_fragment (input : jsstring)
  : option jsstring * option jsstring :=
  let fragment_of rest :=
    match rest with
    | [] => None
    | _ :: f => Some (flat_map (percent_encode fragment_set) f)
    end in
  match input with
  | [] => (None, None)
  | c :: t =>
      if (c =? 63)%N then
        let (q, rest) := span (fun c => negb (c =? 35)%N) t in
        (Some (flat_map (percent_encode special_query_set) q), fragment_of rest)
      else (None, fragment_of input)
  end.

(** [new URL(input)] on the texts [validate] passes to it, which all
    begin with [http://] or [https://]: [None] stands for the TypeError
    it throws on these.  Texts of other schemes are not parsed here and
    get [None] as well. *)
Definition URL_new (input : jsstring) : option URLRecord :=
  match scheme_start_state input with
  | None => None
  | Some (scheme, rest) =>
      if eqb scheme (lit "http") || eqb scheme (lit "https") then
        let a := authority_state (ignore_slashes rest) false false [] [] [] in
        if atSignSeen a && negb (truthy (auth_buffer a)) then None
        else
          match host_state scheme (auth_buffer a) with
          | None => None
          | Some (h, p) =>
              let (segments, rest') := path_start_state (auth_rest a) in
              let (q, f) := query_fragment rest' in
              Some {| scheme := scheme;
                      username := auth_username a;
                      password := auth_password a;
                      host := h; port := p; path := segments;
                      query := q; fragment := f |}
          end
      else None
  end.

End Parser.

(** ** Serialising *)

Definition ipv4_serializer (address : N) : jsstring :=
  decimal (address / 16777216) ++ [46%N]
  ++ decimal ((address / 65536) mod 256) ++ [46%N]
  ++ decimal ((address / 256) mod 256) ++ [46%N]
  ++ decimal (address mod 256).

Definition host_serializer (h : Host) : jsstring :=
  match h with
  | Domain d => d
  | IPv4 a => ipv4_serializer a
  end.

Definition path_serializer (path : list jsstring) : jsstring :=
  flat_map (fun segment => 47%N :: segment) path.

(** The URL serializer: [url.href] and [url.toString()]. *)
Definition href (url : URLRecord) : jsstring :=
  scheme url ++ lit ":" ++ lit "//"
  ++ (if truthy (username url) || truthy (password url)
      then username url
           ++ (if truthy (password url) then lit ":" ++ password url else [])
           ++ lit "@"
      else [])
  ++ host_serializer (host url)
  ++ match port url with
     | Some p => lit ":" ++ decimal p
     | None => []
     end
  ++ path_serializer (path url)
  ++ match query url with
     | Some q => lit "?" ++ q
     | None => []
     end
  ++ match fragment url with
     | Some f => lit "#" ++ f
     | None => []
     end.

Definition toString : URLRecord -> jsstring := href.

(** [url.protocol]. *)
Definition protocol (url : URLRecord) : jsstring := scheme url ++ lit ":".

End WHATWG.

(* ===================================================================== *)
(** * Constants ([src/utils/constants.ts]) *)
(* ===================================================================== *)

Module VALIDATION_LIMITS.
Definition TITLE_MIN_LENGTH : nat := 1.
Definition TITLE_MAX_LENGTH : nat := 100.
Definition DESCRIPTION_MAX_LENGTH : nat := 500.
Definition AUTHOR_MAX_LENGTH : nat := 50.
Definition TAG_MAX_LENGTH : nat := 20.
Definition MAX_TAGS : nat := 10.
End VALIDATION_LIMITS.

Module URL_PATTERNS.

Declare Scope regex_scope.
Delimit Scope regex_scope with regex.
Infix ";;" := Seq (at level 61, right associativity) : regex_scope.
Local Open Scope regex_scope.

Definition chr (s : string) : N :=
  match s with
  | String a _ => N_of_ascii a
  | EmptyString => 0%N
  end.

Definition chars (s : string) : list class_item := map CChar (lit s).

Definition a_z : class_item := CRange (chr "a") (chr "z").
Definition A_Z : class_item := CRange (chr "A") (chr "Z").
Definition d0_9 : class_item := CRange (chr "0") (chr "9").

(** The pattern of the source, part by part:
    [^] [https?:\/\/] [(www\.)?] [[-a-zA-Z0-9@:%._\+~#=]{1,256}] [\.]
    [[a-zA-Z0-9()]{1,6}] [\b] [([-a-zA-Z0-9()@:%_\+.~#?&//=]* )] [$] *)
Definition URL_REGEX : RegExp :=
  {| pattern :=
       Bol ;; str (lit "http") ;; Opt (Chr (chr "s")) ;; str (lit "://")
       ;; Opt (str (lit "www."))
       ;; Rep 1 256 (Cls false (CChar (chr "-") :: a_z :: A_Z :: d0_9
                                :: chars "@:%._+~#="))
       ;; Chr (chr ".")
       ;; Rep 1 6 (Cls false (a_z :: A_Z :: d0_9 :: chars "()"))
       ;; WordB
       ;; Star (Cls false (CChar (chr "-") :: a_z :: A_Z :: d0_9
                           :: chars "()@:%_+.~#?&//="))
       ;; Eol;
     ignoreCase := false |}.

End URL_PATTERNS.

(* ===================================================================== *)
(** * URLValidator ([src/services/urlValidator.ts]) *)
(* ===================================================================== *)

Record ValidationResult : Type := {
  isValid : bool;
  error : option jsstring;
  normalizedUrl : option jsstring
}.

Module URLValidator.

Definition rejected (msg : string) : ValidationResult :=
  {| isValid := false; error := Some (lit msg); normalizedUrl := None |}.

Definition accepted (url : jsstring) : ValidationResult :=
  {| isValid := true; error := None; normalizedUrl := Some url |}.

(** The snippets of [containsUnsafePatterns], each one the pattern of a
    regular expression with the [i] flag. *)
Definition unsafeSnippets : list jsstring :=
  map lit ["javascript:"; "data:"; "vbscript:"; "file:"; "<script";
           "onclick"; "onerror"]%string.

Definition unsafePatterns : list RegExp :=
  map (fun snippet => {| pattern := str snippet; ignoreCase := true |})
      unsafeSnippets.

Definition containsUnsafePatterns (url : jsstring) : bool :=
  existsb (fun pattern => test pattern url) unsafePatterns.

Section Validator.

Variable Unicode_ToASCII : list N -> option jsstring.

(** The URL the checks of [validate] run on: the trimmed input, with
    ["https://"] in front when it starts with neither protocol. *)
Definition withProtocol (trimmedUrl : jsstring) : jsstring :=
  if negb (startsWith (lit "http://") trimmedUrl)
     && negb (startsWith (lit "https://") trimmedUrl)
  then lit "https://" ++ trimmedUrl
  else trimmedUrl.

Definition validate (url : jsstring) : ValidationResult :=
  let trimmedUrl := trim url in
  if negb (truthy trimmedUrl) then rejected "URL is required"
  else
    let normalizedUrl := withProtocol trimmedUrl in
    if negb (test URL_PATTERNS.URL_REGEX normalizedUrl)
    then rejected "Please enter a valid URL"
    else
      match WHATWG.URL_new Unicode_ToASCII normalizedUrl with
      | Some urlObj =>
          if negb (existsb (eqb (WHATWG.protocol urlObj))
                           [lit "http:"; lit "https:"])
          then rejected "Only HTTP and HTTPS URLs are allowed"
          else if containsUnsafePatterns normalizedUrl
          then rejected "URL contains potentially unsafe content"
          else accepted (WHATWG.toString urlObj)
      | None => rejected "Invalid URL format"
      end.

(** [result.normalizedUrl || url] *)
Definition sanitize (url : jsstring) : jsstring :=
  match normalizedUrl (validate url) with
  | Some n => if truthy n then n else url
  | None => url
  end.

End Validator.

End URLValidator.

(* ===================================================================== *)
(** * Sanitisation ([src/utils/sanitization.ts]) *)
(* ===================================================================== *)

Module Sanitization.

Import URL_PATTERNS.
Local Open Scope regex_scope.

(** [/[\u0000-\u001F\u007F-\u009F]/g] *)
Definition controlCharacters : RegExp :=
  {| pattern := Cls false [CRange 0 31; CRange 127 159]; ignoreCase := false |}.

(** [/\s+/g] *)
Definition whitespaceRun : RegExp :=
  {| pattern := Plus (Cls false [CSpace]); ignoreCase := false |}.

Definition sanitizeText (text : jsstring) : jsstring :=
  replace whitespaceRun (lit " ") (replace controlCharacters [] (trim text)).

(** [arr.indexOf(x)], with [None] for -1. *)
Fixpoint indexOf (arr : list jsstring) (x : jsstring) : option nat :=
  match arr with
  | [] => None
  | y :: t => if eqb y x then Some 0 else option_map S (indexOf t x)
  end.

(** [arr.filter((element, index, arr) => ...)] *)
Fixpoint filter_from (A : Type) (f : A -> nat -> bool) (index : nat)
    (l : list A) : list A :=
  match l with
  | [] => []
  | x :: t =>
      if f x index then x :: filter_from f (S index) t
      else filter_from f (S index) t
  end.

Definition filter_indexed (A : Type) (f : A -> nat -> list A -> bool)
    (arr : list A) : list A :=
  filter_from (fun x i => f x i arr) 0 arr.

Definition same_index (found : option nat) (index : nat) : bool :=
  match found with
  | Some i => (i =? index)%nat
  | None => false
  end.

Definition sanitizeTags (tags : list jsstring) : list jsstring :=
  firstn 10
    (filter_indexed (fun tag index arr => same_index (indexOf arr tag) index)
       (filter (fun tag => (0 <? length tag)%nat)
          (map (fun tag => sanitizeText tag) tags))).

(** The pattern of [sanitizeTitle], with the flags [gi]:
    [<script\b] [[^<]*] [(?: (?!<\/script>) < [^<]* )*] [<\/script>] *)
Definition scriptElement : RegExp :=
  {| pattern :=
       str (lit "<script") ;; WordB ;; Star (Cls true [CChar (chr "<")])
       ;; Star (NegLook (str (lit "</script>")) ;; Chr (chr "<")
                ;; Star (Cls true [CChar (chr "<")]))
       ;; str (lit "</script>");
     ignoreCase := true |}.

Definition sanitizeTitle (title : jsstring) : jsstring :=
  let sanitized := sanitizeText title in
  replace scriptElement [] sanitized.

Definition sanitizeDescription (description : jsstring) : jsstring :=
  join [10%N] (map (fun line => trim line)
                   (split_on 10 (sanitizeText description))).

(** [/[^a-zA-Z0-9\-_\s]/g] *)
Definition notAuthorCharacter : RegExp :=
  {| pattern := Cls true [a_z; A_Z; d0_9; CChar (chr "-"); CChar (chr "_");
                          CSpace];
     ignoreCase := false |}.

Definition sanitizeAuthor (author : jsstring) : jsstring :=
  let sanitized := sanitizeText author in
  trim (replace notAuthorCharacter [] sanitized).

End Sanitization.

(* ===================================================================== *)
(** * Game data ([src/types/game.ts]) and its validation
      ([src/utils/helpers.ts]) *)
(* ===================================================================== *)

Inductive Status : Type := active | hidden.

Definition Status_eqb (a b : Status) : bool :=
  match a, b with
  | active, active | hidden, hidden => true
  | _, _ => false
  end.

Record Game : Type := {
  id : jsstring;
  title : jsstring;
  url : jsstring;
  description : option jsstring;
  author : option jsstring;
  tags : list jsstring;
  submittedAt : jsstring;
  featured : bool;
  playCount : Z;
  status : Status
}.

Record GameSubmissionData : Type := {
  sub_title : jsstring;
  sub_url : jsstring;
  sub_description : option jsstring;
  sub_author : option jsstring;
  sub_tags : list jsstring
}.

Module Helpers.

Import VALIDATION_LIMITS.

(** An optional text that is present, non-empty and longer than [limit]:
    [text && text.length > limit]. *)
Definition too_long (text : option jsstring) (limit : nat) : bool :=
  match text with
  | Some t => truthy t && (limit <? length t)%nat
  | None => false
  end.

(** The messages of the [forEach] over the tags. *)
Fixpoint tagErrors (index : nat) (tags : list jsstring) : list jsstring :=
  match tags with
  | [] => []
  | tag :: rest =>
      (if (TAG_MAX_LENGTH <? length tag)%nat
       then [lit "Tag " ++ decimal (N.of_nat (index + 1))
             ++ lit " must be less than 20 characters"]
       else [])
      ++ tagErrors (S index) rest
  end.

Definition validateGameData (data : GameSubmissionData)
  : bool * list jsstring :=
  let errors :=
    (if negb (truthy (trim (sub_title data))) then [lit "Title is required"]
     else if (TITLE_MAX_LENGTH <? length (sub_title data))%nat
     then [lit "Title must be less than 100 characters"]
     else [])
    ++ (if negb (truthy (trim (sub_url data))) then [lit "URL is required"]
        else [])
    ++ (if too_long (sub_description data) DESCRIPTION_MAX_LENGTH
        then [lit "Description must be less than 500 characters"] else [])
    ++ (if too_long (sub_author data) AUTHOR_MAX_LENGTH
        then [lit "Author name must be less than 50 characters"] else [])
    ++ (if (MAX_TAGS <? length (sub_tags data))%nat
        then [lit "Maximum 10 tags allowed"] else [])
    ++ tagErrors 0 (sub_tags data) in
  ((length errors =? 0)%nat, errors).

End Helpers.

(* ===================================================================== *)
(** * Stateful code: a store and exceptions *)
(* ===================================================================== *)

(** An [async] method of the sources, run to completion: it reads and
    writes the store, and either returns or throws an [Error] with a
    message. *)

Inductive outcome (A : Type) : Type :=
| Returns (a : A)
| Throws (message : jsstring).

Arguments Returns {A} a.
Arguments Throws {A} message.

Definition M (S A : Type) : Type := S -> outcome A * S.

Definition ret {S A : Type} (a : A) : M S A := fun st => (Returns a, st).

Definition throw {S A : Type} (message : jsstring) : M S A :=
  fun st => (Throws message, st).

Definition bind {S A B : Type} (m : M S A) (k : A -> M S B) : M S B :=
  fun st =>
    match m st with
    | (Returns a, st') => k a st'
    | (Throws e, st') => (Throws e, st')
    end.

(** [try { m } catch (error) { throw new Error(wrap(error.message)) }] *)
Definition rethrow {S A : Type} (wrap : jsstring -> jsstring) (m : M S A)
  : M S A :=
  fun st =>
    match m st with
    | (Returns a, st') => (Returns a, st')
    | (Throws e, st') => (Throws (wrap e), st')
    end.

Declare Scope monad_scope.
Delimit Scope monad_scope with monad.
Notation "x <- m ;; k" := (bind m (fun x => k))
  (at level 100, m at next level, right associativity) : monad_scope.
Notation "m ;;; k" := (bind m (fun _ => k))
  (at level 100, right associativity) : monad_scope.

(** The arguments of [GameStorage.save]:
    [Omit<Game, 'id' | 'submittedAt' | 'playCount'>]. *)
Record NewGame : Type := {
  new_title : jsstring;
  new_url : jsstring;
  new_description : option jsstring;
  new_author : option jsstring;
  new_tags : list jsstring;
  new_featured : bool;
  new_status : Status
}.

(** [Partial<Game>]: the fields an update carries.  For the two optional
    fields the inner option is the value, which may be [undefined]. *)
Record GameUpdates : Type := {
  upd_id : option jsstring;
  upd_title : option jsstring;
  upd_url : option jsstring;
  upd_description : option (option jsstring);
  upd_author : option (option jsstring);
  upd_tags : option (list jsstring);
  upd_submittedAt : option jsstring;
  upd_featured : option bool;
  upd_playCount : option Z;
  upd_status : option Status
}.

Definition no_updates : GameUpdates :=
  {| upd_id := None; upd_title := None; upd_url := None;
     upd_description := None; upd_author := None; upd_tags := None;
     upd_submittedAt := None; upd_featured := None; upd_playCount := None;
     upd_status := None |}.

Definition or_else {A : Type} (o : option A) (d : A) : A :=
  match o with Some a => a | None => d end.

(** [{ ...game, ...updates }] *)
Definition spread (game : Game) (updates : GameUpdates) : Game :=
  {| id := or_else (upd_id updates) (id game);
     title := or_else (upd_title updates) (title game);
     url := or_else (upd_url updates) (url game);
     description := or_else (upd_description updates) (description game);
     author := or_else (upd_author updates) (author game);
     tags := or_else (upd_tags updates) (tags game);
     submittedAt := or_else (upd_submittedAt updates) (submittedAt game);
     featured := or_else (upd_featured updates) (featured game);
     playCount := or_else (upd_playCount updates) (playCount game);
     status := or_else (upd_status updates) (status game) |}.

Inductive StatusFilter : Type := only (s : Status) | all.

Record GameFilters : Type := {
  searchTerm : option jsstring;
  filter_tags : option (list jsstring);
  filter_featured : option bool;
  filter_status : option StatusFilter
}.

(** ** Numbers *)

(** [playCount] is a JavaScript number, an IEEE 754 double.  The model
    keeps the integers among them.  A sum of two of them is the nearest
    double, ties to the even significand; up to 2^53 in magnitude every
    integer is a double and the sum is exact. *)
Definition round_to_double (z : Z) : Z :=
  let m := Z.abs z in
  if (m <? 2 ^ 53)%Z then z
  else
    let e := (Z.log2 m - 52)%Z in
    let q := (m / 2 ^ e)%Z in
    let r := (m mod 2 ^ e)%Z in
    let half := (2 ^ (e - 1))%Z in
    let q' := if (r <? half)%Z then q
              else if (half <? r)%Z then (q + 1)%Z
              else if Z.even q then q else (q + 1)%Z in
    (Z.sgn z * (q' * 2 ^ e))%Z.

Definition Number_add (a b : Z) : Z := round_to_double (a + b).

(** What [JSON.parse(data)] gives an import. *)
Inductive ImportData : Type :=
| Unreadable (message : jsstring)
    (* [JSON.parse] throws, or the value has no properties to read *)
| NoGamesArray
    (* [importData.games] is missing or falsy, or is no array *)
| GamesArray (games : list (option Game)).
    (* an array; [None] stands for an element [isValidGame] rejects *)

Definition errorText (validation : ValidationResult) : jsstring :=
  or_else (error validation) (lit "undefined").

(** [arr.findIndex(p)], with [None] for -1. *)
Fixpoint findIndex {A : Type} (p : A -> bool) (arr : list A) : option nat :=
  match arr with
  | [] => None
  | x :: t => if p x then Some 0 else option_map S (findIndex p t)
  end.

(** [arr[index] = x], for an index inside the array. *)
Fixpoint assign {A : Type} (arr : list A) (index : nat) (x : A) : list A :=
  match arr, index with
  | [], _ => []
  | _ :: t, O => x :: t
  | y :: t, S i => y :: assign t i x
  end.

(** The search-term test shared by both versions of [getFiltered];
    [toLowerCase] is [String.prototype.toLowerCase]. *)
Definition matchesSearch (toLowerCase : jsstring -> jsstring)
    (searchLower : jsstring) (game : Game) : bool :=
  let matchesTitle := includes (toLowerCase (title game)) searchLower in
  let matchesDescription :=
    match description game with
    | Some d => includes (toLowerCase d) searchLower
    | None => false
    end in
  let matchesAuthor :=
    match author game with
    | Some a => includes (toLowerCase a) searchLower
    | None => false
    end in
  matchesTitle || matchesDescription || matchesAuthor.

(* ===================================================================== *)
(** * GameStorage over localStorage ([src/services/gameStorage.ts],
      first version) *)
(* ===================================================================== *)

Module GameStorage.


(** The item under [STORAGE_KEYS.GAMES], as [getAll] reads it. *)
Inductive item : Type :=
| Missing                      (* no item *)
| Garbled                      (* empty, not JSON, or JSON but no array *)
| Stored (games : list Game).  (* the JSON text of an array of games *)

Record localStorage : Type := {
  GAMES : item;
  APP_STATE : option jsstring
}.

Inductive DOMException : Type := QuotaExceededError | OtherException.

Section Platform.

(** The platform: IDNA processing inside [new URL],
    [String.prototype.toLowerCase], [JSON.parse] on an import file. *)
Variable Unicode_ToASCII : list N -> option jsstring.
Variable toLowerCase : jsstring -> jsstring.
Variable JSON_parse : jsstring -> ImportData.

Definition validateUrl : jsstring -> ValidationResult :=
  URLValidator.validate Unicode_ToASCII.

(** Whether [localStorage.setItem] throws on writing these games into
    this storage.  When it throws the storage keeps its content. *)
Variable setItem_throws : localStorage -> list Game -> option DOMException.

Local Open Scope monad_scope.

Definition getAll : M localStorage (list Game) :=
  fun st =>
    match GAMES st with
    | Stored games => (Returns games, st)
    | Missing | Garbled => (Returns [], st)
    end.

Definition saveGames (games : list Game) : M localStorage unit :=
  fun st =>
    match setItem_throws st games with
    | None => (Returns tt, {| GAMES := Stored games; APP_STATE := APP_STATE st |})
    | Some QuotaExceededError =>
        (Throws (lit "Storage quota exceeded. Please clear some games or export your data."), st)
    | Some OtherException =>
        (Throws (lit "Failed to save games to storage"), st)
    end.

(** [uuid] and [now] are what [uuidv4()] and [new Date().toISOString()]
    return in this call. *)
Definition save (uuid now : jsstring) (game : NewGame) : M localStorage unit :=
  let validation := validateUrl (new_url game) in
  if negb (isValid validation)
  then throw (lit "Invalid URL: " ++ errorText validation)
  else
    let newGame :=
      {| id := uuid;
         title := trim (new_title game);
         url := or_else (normalizedUrl validation) [];
         description := option_map trim (new_description game);
         author := option_map trim (new_author game);
         tags := filter truthy (map (fun tag => trim tag) (new_tags game));
         submittedAt := now;
         featured := false;
         playCount := 0;
         status := active |} in
    existingGames <- getAll ;;
    let updatedGames := existingGames ++ [newGame] in
    saveGames updatedGames.

Definition getById (gameId : jsstring) : M localStorage (option Game) :=
  games <- getAll ;;
  ret (find (fun game => eqb (id game) gameId) games).

Definition update (gameId : jsstring) (updates : GameUpdates)
  : M localStorage unit :=
  games <- getAll ;;
  match findIndex (fun game => eqb (id game) gameId) games with
  | None => throw (lit "Game not found")
  | Some gameIndex =>
      updates' <-
        (match upd_url updates with
         | Some u =>
             if truthy u then
               let validation := validateUrl u in
               if negb (isValid validation)
               then throw (lit "Invalid URL: " ++ errorText validation)
               else ret {| upd_id := upd_id updates;
                           upd_title := upd_title updates;
                           upd_url := normalizedUrl validation;
                           upd_description := upd_description updates;
                           upd_author := upd_author updates;
                           upd_tags := upd_tags updates;
                           upd_submittedAt := upd_submittedAt updates;
                           upd_featured := upd_featured updates;
                           upd_playCount := upd_playCount updates;
                           upd_status := upd_status updates |}
             else ret updates
         | None => ret updates
         end) ;;
      match nth_error games gameIndex with
      | Some game => saveGames (assign games gameIndex (spread game updates'))
      | None => saveGames games   (* [gameIndex] is an index of [games] *)
      end
  end.

Definition delete (gameId : jsstring) : M localStorage unit :=
  games <- getAll ;;
  let filteredGames := filter (fun game => negb (eqb (id game) gameId)) games in
  saveGames filteredGames.

Definition clear : M localStorage unit :=
  fun _ => (Returns tt, {| GAMES := Missing; APP_STATE := None |}).

Definition import (data : jsstring) : M localStorage unit :=
  rethrow (fun message => lit "Import failed: " ++ message)
    (match JSON_parse data with
     | Unreadable message => throw message
     | NoGamesArray => throw (lit "Invalid import format: missing games array")
     | GamesArray games =>
         if forallb (fun game => match game with Some _ => true | None => false end) games
         then saveGames (flat_map (fun game => match game with Some g => [g] | None => [] end) games)
         else throw (lit "Invalid game data in import")
     end).

Definition incrementPlayCount (gameId : jsstring) : M localStorage unit :=
  game <- getById gameId ;;
  match game with
  | Some game =>
      update gameId
        {| upd_id := None; upd_title := None; upd_url := None;
           upd_description := None; upd_author := None; upd_tags := None;
           upd_submittedAt := None; upd_featured := None;
           upd_playCount := Some (Number_add (playCount game) 1);
           upd_status := None |}
  | None => ret tt
  end.

(** The predicate of the [filter] in [getFiltered]. *)
Definition passesFilters (filters : GameFilters) (game : Game) : bool :=
  if match filter_status filters with
     | Some (only s) => negb (Status_eqb (status game) s)
     | Some all | None => false
     end
  then false
  else if match filter_featured filters with
          | Some f => negb (Bool.eqb (featured game) f)
          | None => false
          end
  then false
  else if match searchTerm filters with
          | Some term =>
              truthy term && negb (matchesSearch toLowerCase (toLowerCase term) game)
          | None => false
          end
  then false
  else if match filter_tags filters with
          | Some wanted =>
              (0 <? length wanted)%nat
              && negb (existsb (fun filterTag =>
                         existsb (fun gameTag =>
                           includes (toLowerCase gameTag) (toLowerCase filterTag))
                           (tags game))
                         wanted)
          | None => false
          end
  then false
  else true.

Definition getFiltered (filters : GameFilters) : M localStorage (list Game) :=
  games <- getAll ;;
  ret (filter (passesFilters filters) games).

End Platform.

End GameStorage.

(* ===================================================================== *)
(** * The submission form
      ([src/components/game/GameSubmission.tsx], [src/hooks/useGameStorage.ts]) *)
(* ===================================================================== *)

Module GameSubmission.

Import Sanitization Helpers GameStorage.

Section Platform.

Variable Unicode_ToASCII : list N -> option jsstring.
Variable setItem_throws : localStorage -> list Game -> option DOMException.

(** [useGameStorage().addGame]: save, reload the list, report success. *)
Definition addGame (uuid now : jsstring) (gameData : NewGame)
  : M localStorage bool :=
  fun st =>
    match save Unicode_ToASCII setItem_throws uuid now gameData st with
    | (Returns _, st') => (Returns true, st')
    | (Throws _, st') => (Returns false, st')
    end.

(** [text ? f(text) : undefined] *)
Definition when_present (f : jsstring -> jsstring) (text : option jsstring)
  : option jsstring :=
  match text with
  | Some t => if truthy t then Some (f t) else None
  | None => None
  end.

(** [handleSubmit]: the validation errors the form shows afterwards,
    none when the game was stored.  [urlIsValid] and [urlError] are the
    state of the [useUrlValidation] hook ([None] for [null]). *)
Definition handleSubmit (formData : GameSubmissionData)
    (urlIsValid : option bool) (urlError : option jsstring)
    (uuid now : jsstring) : M localStorage (list jsstring) :=
  let sanitizedData :=
    {| sub_title := sanitizeTitle (sub_title formData);
       sub_url := trim (sub_url formData);
       sub_description := when_present sanitizeDescription (sub_description formData);
       sub_author := when_present sanitizeAuthor (sub_author formData);
       sub_tags := sanitizeTags (sub_tags formData) |} in
  let validation := validateGameData sanitizedData in
  if negb (fst validation) then ret (snd validation)
  else if negb (or_else urlIsValid false)
  then ret [match urlError with
            | Some e => if truthy e then e else lit "Please enter a valid URL"
            | None => lit "Please enter a valid URL"
            end]
  else
    bind (addGame uuid now
            {| new_title := sub_title sanitizedData;
               new_url := sub_url sanitizedData;
               new_description := sub_description sanitizedData;
               new_author := sub_author sanitizedData;
               new_tags := sub_tags sanitizedData;
               new_featured := false;
               new_status := active |})
         (fun success =>
            if success : bool then ret []
            else ret [lit "Failed to submit game. Please try again."]).

End Platform.

End GameSubmission.

(* ===================================================================== *)
(** * GameStorage over Supabase ([src/services/gameStorage.ts],
      second version) *)
(* ===================================================================== *)

Module SupabaseGameStorage.

(** A row of the table [public.games]. *)
Record Row : Type := {
  row_id : jsstring;
  row_title : jsstring;
  row_url : jsstring;
  row_description : option jsstring;
  row_author : option jsstring;
  row_tags : option (list jsstring);
  submitted_at : jsstring;
  row_featured : bool;
  play_count : Z;
  row_status : Status
}.

(** The database as a request sees it: the rows of the table, and the
    error the request comes back with when the service cannot answer. *)
Record Database : Type := {
  games : list Row;
  outage : option jsstring
}.

(** ** The query builder *)

(** [.eq('status', s)] and [.eq('featured', b)]. *)
Definition eq_status (s : Status) (row : Row) : bool :=
  Status_eqb (row_status row) s.

Definition eq_featured (b : bool) (row : Row) : bool :=
  Bool.eqb (row_featured row) b.

(** [.contains('tags', value)] with an array for [value]: the client
    sends [tags=cs.{...}], the elements of the array joined by commas
    between the braces, none of them quoted. *)
Definition array_text (value : list jsstring) : jsstring :=
  lit "{" ++ join (lit ",") value ++ lit "}".

(** PostgreSQL reads the text as a literal of [text[]].  Between the
    braces, text of ordinary characters (nothing below the space, no
    double quote, backslash or brace, no surrogate) is a list of items
    separated by commas, with the spaces around an item dropped: no item
    at all is the empty array, an empty item among others is an error,
    and the item NULL, in any case, is the null element. *)
Definition ordinary (c : N) : bool :=
  (32 <=? c)%N && negb (existsb (N.eqb c) [34; 92; 123; 125]%N)
  && negb (in_range 55296 57343 c).

Fixpoint drop_spaces (s : jsstring) : jsstring :=
  match s with
  | c :: t => if (c =? 32)%N then drop_spaces t else s
  | [] => []
  end.

Definition strip_spaces (s : jsstring) : jsstring :=
  rev (drop_spaces (rev (drop_spaces s))).

Definition read_item (item : jsstring) : option jsstring :=
  if eqb (map ascii_lower item) (lit "null") then None else Some item.

Definition read_items (body : jsstring) : option (list (option jsstring)) :=
  match map strip_spaces (split_on 44 body) with
  | [[]] => Some []
  | items =>
      if existsb (fun item => eqb item []) items then None
      else Some (map read_item items)
  end.

(** [tags @> elements]: the column holds every element.  A null column
    contains nothing, and nothing contains the null element. *)
Definition array_contains (have : option (list jsstring))
    (elements : list (option jsstring)) : bool :=
  match have with
  | Some have =>
      forallb (fun element =>
                 match element with
                 | Some t => existsb (eqb t) have
                 | None => false
                 end) elements
  | None => false
  end.

Section ArrayInput.

(** [array_in] of PostgreSQL for [text[]], for the texts with other
    characters (quoted items, escapes, nested braces, control
    characters): the elements, or [None] for a malformed literal. *)
Variable array_in : jsstring -> option (list (option jsstring)).

Definition read_array (value : list jsstring)
  : option (list (option jsstring)) :=
  let body := join (lit ",") value in
  if forallb ordinary body then read_items body
  else array_in (array_text value).

(** The test the filter puts on the rows, or [None] when the request
    comes back with the error of a malformed literal. *)
Definition contains_tags (value : list jsstring) : option (Row -> bool) :=
  match read_array value with
  | Some elements => Some (fun row => array_contains (row_tags row) elements)
  | None => None
  end.

End ArrayInput.

(** [.order('submitted_at', { ascending: false })].  The column holds
    instants; their texts, all written by [toISOString] in one fixed
    format, are ordered as the instants are. *)
Fixpoint insert_desc (row : Row) (sorted : list Row) : list Row :=
  match sorted with
  | [] => [row]
  | r :: rest =>
      if ltb (submitted_at r) (submitted_at row) then row :: sorted
      else r :: insert_desc row rest
  end.

Definition order_desc (rows : list Row) : list Row :=
  fold_right insert_desc [] rows.

(** [await supabase.from('games').select('*')...order(...)]: the data
    or the error. *)
Definition select_ordered (conditions : list (Row -> bool)) (db : Database)
  : list Row + jsstring :=
  match outage db with
  | Some e => inr e
  | None =>
      inl (order_desc
             (filter (fun row => forallb (fun c => c row) conditions) (games db)))
  end.

(** ** The storage class *)

(** [row.description || undefined], [row.tags || []] *)
Definition transformFromDb (row : Row) : Game :=
  {| id := row_id row;
     title := row_title row;
     url := row_url row;
     description := match row_description row with
                    | Some d => if truthy d then Some d else None
                    | None => None
                    end;
     author := match row_author row with
               | Some a => if truthy a then Some a else None
               | None => None
               end;
     tags := or_else (row_tags row) [];
     submittedAt := submitted_at row;
     featured := row_featured row;
     playCount := play_count row;
     status := row_status row |}.

Definition getAll (db : Database) : list Game :=
  match select_ordered [] db with
  | inl data => map transformFromDb data
  | inr _ => []
  end.

Section Platform.

Variable array_in : jsstring -> option (list (option jsstring)).
Variable toLowerCase : jsstring -> jsstring.

Definition getFiltered (filters : GameFilters) (db : Database) : list Game :=
  let query :=
    match filter_status filters with
    | Some (only s) => [eq_status s]
    | Some all | None => []
    end
    ++ match filter_featured filters with
       | Some f => [eq_featured f]
       | None => []
       end in
  let answer :=
    match filter_tags filters with
    | Some wanted =>
        if (0 <? length wanted)%nat
        then match contains_tags array_in wanted with
             | Some condition => select_ordered (query ++ [condition]) db
             | None => inr (lit "malformed array literal")
             end
        else select_ordered query db
    | None => select_ordered query db
    end in
  match answer with
  | inr _ => []
  | inl data =>
      let games := map transformFromDb data in
      match searchTerm filters with
      | Some term =>
          if truthy term
          then filter (matchesSearch toLowerCase (toLowerCase term)) games
          else games
      | None => games
      end
  end.

End Platform.

End SupabaseGameStorage.

(* ===================================================================== *)
(** * Properties *)
(* ===================================================================== *)

Unset Implicit Arguments.

(** ** Strings *)

Lemma startsWith_app (p s : jsstring) : startsWith p (p ++ s) = true.
Proof.
  induction p as [|a p IH]; simpl; [reflexivity|].
  rewrite N.eqb_refl. exact IH.
Qed.

Lemma startsWith_split (p s : jsstring) :
  startsWith p s = true -> exists rest, s = p ++ rest.
Proof.
  revert s. induction p as [|a p IH]; intros s H.
  - exists s. reflexivity.
  - destruct s as [|b s]; simpl in H; [discriminate|].
    apply andb_true_iff in H. destruct H as [Hab H].
    apply N.eqb_eq in Hab. subst b.
    destruct (IH _ H) as [rest ->]. exists rest. reflexivity.
Qed.

Lemma includes_split (s sub : jsstring) :
  includes s sub = true -> exists pre post, s = pre ++ sub ++ post.
Proof.
  induction s as [|c s IH]; simpl; intros H.
  - rewrite orb_false_r in H. destruct (startsWith_split _ _ H) as [rest ->].
    exists [], rest. reflexivity.
  - apply orb_true_iff in H. destruct H as [H|H].
    + destruct (startsWith_split _ _ H) as [rest ->].
      exists [], rest. reflexivity.
    + destruct (IH H) as (pre & post & ->).
      exists (c :: pre), post. reflexivity.
Qed.

Lemma includes_here (s sub : jsstring) :
  startsWith sub s = true -> includes s sub = true.
Proof.
  intros H. destruct s; simpl; rewrite H; reflexivity.
Qed.

Lemma includes_app (pre sub post : jsstring) :
  includes (pre ++ sub ++ post) sub = true.
Proof.
  induction pre as [|c pre IH]; simpl.
  - apply includes_here, startsWith_app.
  - rewrite IH. apply orb_true_r.
Qed.

(** A piece of text that begins and ends with code units [trim] leaves
    alone survives trimming. *)
Lemma trimStart_keeps (pre : jsstring) (c : N) (rest : jsstring) :
  is_space c = false ->
  exists pre', trimStart (pre ++ c :: rest) = pre' ++ c :: rest.
Proof.
  intros Hc. induction pre as [|a pre IH]; simpl.
  - rewrite Hc. exists []. reflexivity.
  - destruct (is_space a).
    + exact IH.
    + exists (a :: pre). reflexivity.
Qed.

Lemma trim_keeps (pre mid post : jsstring) (a b : N) (inner : jsstring) :
  mid = a :: inner -> last mid a = b ->
  is_space a = false -> is_space b = false ->
  exists pre' post', trim (pre ++ mid ++ post) = pre' ++ mid ++ post'.
Proof.
  intros Hmid Hlast Ha Hb. unfold trim, trimEnd.
  destruct (trimStart_keeps pre a (inner ++ post) Ha) as [pre' Hpre].
  replace (pre ++ mid ++ post) with (pre ++ a :: inner ++ post)
    by (subst mid; reflexivity).
  rewrite Hpre.
  assert (Hrev : exists front, mid = front ++ [b]).
  { subst mid. rewrite <- Hlast.
    exists (removelast (a :: inner)).
    apply app_removelast_last. discriminate. }
  destruct Hrev as [front Hfront].
  replace (pre' ++ a :: inner ++ post) with (pre' ++ mid ++ post)
    by (subst mid; reflexivity).
  rewrite Hfront.
  replace (rev (pre' ++ (front ++ [b]) ++ post))
    with (rev post ++ b :: rev (pre' ++ front)).
  2:{ rewrite !rev_app_distr. simpl. rewrite <- !app_assoc. reflexivity. }
  destruct (trimStart_keeps (rev post) b (rev (pre' ++ front)) Hb) as [post' Hpost].
  rewrite Hpost. exists pre', (rev post').
  rewrite rev_app_distr. simpl. rewrite rev_involutive.
  rewrite <- !app_assoc. reflexivity.
Qed.

(** ** Regular expressions: a run of pattern characters *)

Lemma upper_lower (x : N) : ascii_upper (ascii_lower x) = ascii_upper x.
Proof.
  unfold ascii_upper, ascii_lower, in_range.
  destruct (65 <=? x)%N eqn:E1; destruct (x <=? 90)%N eqn:E2; simpl;
    try reflexivity.
  apply N.leb_le in E1. apply N.leb_le in E2.
  replace ((97 <=? x + 32)%N) with true by (symmetry; apply N.leb_le; lia).
  replace ((x + 32 <=? 122)%N) with true by (symmetry; apply N.leb_le; lia).
  replace ((97 <=? x)%N) with false by (symmetry; apply N.leb_gt; lia).
  simpl. lia.
Qed.

(** Where the text, lower-cased, starts with the snippet, the
    case-insensitive pattern of the snippet matches. *)
Lemma rmatch_str_ci (snippet s : jsstring) (prev : option N) (k : cont) :
  startsWith snippet (map ascii_lower s) = true ->
  exists p' s', rmatch true (str snippet) prev s k = k p' s'.
Proof.
  revert s prev. induction snippet as [|c snippet IH]; intros s prev H.
  - exists prev, s. reflexivity.
  - destruct s as [|x s]; simpl in H; [discriminate|].
    apply andb_true_iff in H. destruct H as [Hc H].
    apply N.eqb_eq in Hc. subst c.
    destruct (IH s (Some x) H) as (p' & s' & E).
    exists p', s'. simpl. unfold canon.
    rewrite upper_lower, N.eqb_refl. exact E.
Qed.

Lemma test_from_str_ci (snippet s : jsstring) (prev : option N) :
  includes (map ascii_lower s) snippet = true ->
  test_from {| pattern := str snippet; ignoreCase := true |} prev s = true.
Proof.
  revert prev. induction s as [|x s IH]; intros prev H; simpl in H.
  - rewrite orb_false_r in H.
    destruct (rmatch_str_ci snippet [] prev (fun p' s' => Some (p', s')) H)
      as (p' & s' & E).
    simpl. unfold match_here. simpl. rewrite E. reflexivity.
  - simpl. unfold match_here at 1. simpl.
    apply orb_true_iff in H. destruct H as [H|H].
    + destruct (rmatch_str_ci snippet (x :: s) prev
                  (fun p' s' => Some (p', s')) H) as (p' & s' & E).
      rewrite E. reflexivity.
    + destruct (rmatch true (str snippet) prev (x :: s) _); [reflexivity|].
      apply IH. exact H.
Qed.

(** ** URLValidator: the denylist *)

(** A snippet that begins and ends with code units [trim] leaves alone. *)
Definition solid (snippet : jsstring) : bool :=
  match snippet with
  | c :: _ => negb (is_space c) && negb (is_space (last snippet c))
  | [] => false
  end.

Lemma unsafeSnippets_solid :
  forallb solid URLValidator.unsafeSnippets = true.
Proof. reflexivity. Qed.

Lemma space_lower (x : N) : is_space (ascii_lower x) = false -> is_space x = false.
Proof.
  unfold ascii_lower. destruct (in_range 65 90 x) eqn:E; [|tauto].
  intros _. unfold in_range in E. apply andb_true_iff in E.
  destruct E as [E1 E2]. apply N.leb_le in E1. apply N.leb_le in E2.
  unfold is_space, in_range.
  repeat match goal with
         | |- context [(?a <=? ?b)%N] => destruct (N.leb_spec a b); try lia
         | |- context [(?a =? ?b)%N] => destruct (N.eqb_spec a b); try lia
         end; reflexivity.
Qed.

Lemma last_map (f : N -> N) (l : jsstring) (d : N) :
  last (map f l) (f d) = f (last l d).
Proof.
  induction l as [|a l IH]; [reflexivity|].
  destruct l as [|b l]; [reflexivity|]. exact IH.
Qed.

Lemma trim_includes_ci (url snippet : jsstring) :
  solid snippet = true ->
  includes (map ascii_lower url) snippet = true ->
  includes (map ascii_lower (trim url)) snippet = true.
Proof.
  intros Hsolid H.
  destruct (includes_split _ _ H) as (pre & post & E).
  apply map_eq_app in E. destruct E as (pre0 & rest & -> & <- & E).
  apply map_eq_app in E. destruct E as (mid & post0 & -> & <- & <-).
  destruct mid as [|a inner]; [discriminate Hsolid|].
  unfold solid in Hsolid. cbn [map] in Hsolid.
  change (ascii_lower a :: map ascii_lower inner)
    with (map ascii_lower (a :: inner)) in Hsolid.
  rewrite last_map in Hsolid.
  apply andb_true_iff in Hsolid. destruct Hsolid as [Ha Hb].
  apply negb_true_iff in Ha. apply negb_true_iff in Hb.
  destruct (trim_keeps pre0 (a :: inner) post0 a (last (a :: inner) a) inner
              eq_refl eq_refl (space_lower a Ha) (space_lower _ Hb))
    as (pre' & post' & ->).
  rewrite !map_app. apply includes_app.
Qed.

Lemma includes_prefixed (pre s sub : jsstring) :
  includes s sub = true -> includes (pre ++ s) sub = true.
Proof.
  intros H. destruct (includes_split _ _ H) as (a & b & ->).
  rewrite app_assoc. apply includes_app.
Qed.

Lemma containsUnsafePatterns_ci (s snippet : jsstring) :
  In snippet URLValidator.unsafeSnippets ->
  includes (map ascii_lower s) snippet = true ->
  URLValidator.containsUnsafePatterns s = true.
Proof.
  intros Hin H. unfold URLValidator.containsUnsafePatterns.
  apply existsb_exists.
  exists {| pattern := str snippet; ignoreCase := true |}. split.
  - unfold URLValidator.unsafePatterns.
    apply (in_map (fun sn => {| pattern := str sn; ignoreCase := true |})).
    exact Hin.
  - apply test_from_str_ci. exact H.
Qed.

(** C1. An input that holds one of the denylisted snippets anywhere,
    whatever the case of its letters, is rejected by
    [URLValidator.validate], whatever its scheme. *)
Theorem validate_rejects_unsafe_snippet
    (Unicode_ToASCII : list N -> option jsstring) (url snippet : jsstring) :
  In snippet URLValidator.unsafeSnippets ->
  includes (map ascii_lower url) snippet = true ->
  isValid (URLValidator.validate Unicode_ToASCII url) = false.
Proof.
  intros Hin Hinc.
  assert (Hsolid : solid snippet = true).
  { pose proof unsafeSnippets_solid as HS.
    rewrite forallb_forall in HS. apply HS. exact Hin. }
  assert (Hunsafe : URLValidator.containsUnsafePatterns
                      (URLValidator.withProtocol (trim url)) = true).
  { apply containsUnsafePatterns_ci with (snippet := snippet); [exact Hin|].
    pose proof (trim_includes_ci url snippet Hsolid Hinc) as Ht.
    unfold URLValidator.withProtocol.
    destruct (negb _ && negb _); [|exact Ht].
    rewrite map_app. apply includes_prefixed. exact Ht. }
  unfold URLValidator.validate.
  destruct (negb (truthy (trim url))); [reflexivity|].
  destruct (negb (test URL_PATTERNS.URL_REGEX _)); [reflexivity|].
  destruct (WHATWG.URL_new _ _); [|reflexivity].
  destruct (negb (existsb _ _)); [reflexivity|].
  rewrite Hunsafe. reflexivity.
Qed.

(** The example of the specification: the snippet in the query of an
    https URL. *)
Lemma validate_rejects_unsafe_snippet_witness :
  In (lit "javascript:") URLValidator.unsafeSnippets
  /\ includes (map ascii_lower (lit "https://good.com/?x=javascript:alert(1)"))
              (lit "javascript:") = true
  /\ isValid (URLValidator.validate (fun _ => None)
                (lit "https://good.com/?x=javascript:alert(1)")) = false.
Proof.
  split; [left; reflexivity|]. split; [reflexivity|].
  apply (validate_rejects_unsafe_snippet (fun _ => None)
           (lit "https://good.com/?x=javascript:alert(1)") (lit "javascript:")).
  - left; reflexivity.
  - reflexivity.
Defined.

(** ** URLValidator: what an accepted URL looks like *)

(** The two ways [validate] ends. *)
Lemma validate_cases (U : list N -> option jsstring) (url : jsstring) :
  (exists msg, URLValidator.validate U url = URLValidator.rejected msg)
  \/ (exists urlObj,
        truthy (trim url) = true
        /\ test URL_PATTERNS.URL_REGEX (URLValidator.withProtocol (trim url)) = true
        /\ WHATWG.URL_new U (URLValidator.withProtocol (trim url)) = Some urlObj
        /\ URLValidator.containsUnsafePatterns
             (URLValidator.withProtocol (trim url)) = false
        /\ URLValidator.validate U url
           = URLValidator.accepted (WHATWG.toString urlObj)).
Proof.
  unfold URLValidator.validate.
  destruct (truthy (trim url)); cbn [negb]; [|left; eexists; reflexivity].
  destruct (test URL_PATTERNS.URL_REGEX _); cbn [negb];
    [|left; eexists; reflexivity].
  destruct (WHATWG.URL_new U _) as [urlObj|]; [|left; eexists; reflexivity].
  destruct (negb (existsb _ _)); [left; eexists; reflexivity|].
  destruct (URLValidator.containsUnsafePatterns _);
    [left; eexists; reflexivity|].
  right. exists urlObj. repeat split; reflexivity.
Qed.

Lemma URL_new_scheme (U : list N -> option jsstring) (s : jsstring)
    (u : WHATWG.URLRecord) :
  WHATWG.URL_new U s = Some u ->
  exists rest,
    WHATWG.scheme_start_state s = Some (WHATWG.scheme u, rest)
    /\ (WHATWG.scheme u = lit "http" \/ WHATWG.scheme u = lit "https").
Proof.
  unfold WHATWG.URL_new.
  destruct (WHATWG.scheme_start_state s) as [[sch rest]|]; [|discriminate].
  destruct (eqb sch (lit "http") || eqb sch (lit "https")) eqn:E;
    [|discriminate].
  destruct (_ && _); [discriminate|].
  destruct (WHATWG.host_state _ _ _) as [[h p]|]; [|discriminate].
  destruct (WHATWG.path_start_state _) as [segments rest'].
  destruct (WHATWG.query_fragment _) as [q f].
  intros [= <-]. cbn [WHATWG.scheme]. exists rest. split; [reflexivity|].
  apply orb_true_iff in E. destruct E as [E|E]; apply eqb_eq in E; auto.
Qed.

Lemma startsWith_scheme (sch rest : jsstring) :
  startsWith (sch ++ lit "://") (sch ++ lit ":" ++ lit "//" ++ rest) = true.
Proof.
  change (sch ++ lit ":" ++ lit "//" ++ rest) with (sch ++ lit "://" ++ rest).
  rewrite app_assoc. apply startsWith_app.
Qed.

Lemma href_starts (u : WHATWG.URLRecord) :
  startsWith (WHATWG.scheme u ++ lit "://") (WHATWG.href u) = true.
Proof. unfold WHATWG.href. apply startsWith_scheme. Qed.

Lemma startsWith_prefix (a b s : jsstring) :
  startsWith (a ++ b) s = true -> startsWith a s = true.
Proof.
  revert s. induction a as [|x a IH]; intros s H; [reflexivity|].
  destruct s as [|y s]; simpl in *; [discriminate|].
  apply andb_true_iff in H. destruct H as [-> H]. simpl. apply IH. exact H.
Qed.

Lemma href_truthy (u : WHATWG.URLRecord) : truthy (WHATWG.href u) = true.
Proof.
  unfold WHATWG.href. destruct (WHATWG.scheme u); reflexivity.
Qed.



(** C10. [sanitize] gives back the raw input, untouched, when
    [validate] rejects it, and the normalized URL when [validate]
    accepts it; what [sanitize] returns need not be a valid URL. *)
Theorem sanitize_returns_raw_input_when_rejected
    (Unicode_ToASCII : list N -> option jsstring) (url : jsstring) :
  (isValid (URLValidator.validate Unicode_ToASCII url) = false
   /\ URLValidator.sanitize Unicode_ToASCII url = url)
  \/ (isValid (URLValidator.validate Unicode_ToASCII url) = true
      /\ normalizedUrl (URLValidator.validate Unicode_ToASCII url)
         = Some (URLValidator.sanitize Unicode_ToASCII url)).
Proof.
  unfold URLValidator.sanitize.
  destruct (validate_cases Unicode_ToASCII url)
    as [[msg E]|(u & _ & _ & _ & _ & E)]; rewrite E.
  - left. split; reflexivity.
  - right. cbn [normalizedUrl isValid URLValidator.accepted].
    unfold WHATWG.toString. rewrite href_truthy. split; reflexivity.
Qed.

(** A rejected input comes back as it went in. *)
Example sanitize_keeps_unsafe_input :
  URLValidator.sanitize (fun _ => None) (lit " javascript:alert(1) ")
  = lit " javascript:alert(1) ".
Proof. vm_compute. reflexivity. Qed.

(** ** sanitizeTags *)

Module SanitizeTagsSpec.

Import Sanitization.

(** The words of the specification: de-duplicate, keeping the first
    occurrence.  [seen] holds what came before. *)
Fixpoint dedupFirst (seen l : list jsstring) : list jsstring :=
  match l with
  | [] => []
  | x :: t =>
      if existsb (eqb x) seen then dedupFirst seen t
      else x :: dedupFirst (seen ++ [x]) t
  end.

Lemma indexOf_bound (arr : list jsstring) (x : jsstring) (i : nat) :
  indexOf arr x = Some i -> (i < length arr)%nat.
Proof.
  revert i. induction arr as [|y arr IH]; intros i H; simpl in H.
  - discriminate.
  - destruct (eqb y x).
    + injection H as <-. simpl. lia.
    + destruct (indexOf arr x) as [j|]; [|discriminate].
      injection H as <-. simpl. specialize (IH j eq_refl). lia.
Qed.

Lemma indexOf_seen (arr : list jsstring) (x : jsstring) :
  existsb (eqb x) arr = match indexOf arr x with Some _ => true | None => false end.
Proof.
  induction arr as [|y arr IH]; simpl; [reflexivity|].
  replace (eqb x y) with (eqb y x).
  - destruct (eqb y x); simpl; [reflexivity|].
    rewrite IH. destruct (indexOf arr x); reflexivity.
  - destruct (eqb y x) eqn:E1; destruct (eqb x y) eqn:E2; try reflexivity.
    + apply eqb_eq in E1. subst. rewrite eqb_refl in E2. discriminate.
    + apply eqb_eq in E2. subst. rewrite eqb_refl in E1. discriminate.
Qed.

Lemma indexOf_app (pre l : list jsstring) (x : jsstring) :
  indexOf (pre ++ l) x
  = match indexOf pre x with
    | Some i => Some i
    | None => option_map (Nat.add (length pre)) (indexOf l x)
    end.
Proof.
  induction pre as [|y pre IH]; simpl.
  - destruct (indexOf l x); reflexivity.
  - destruct (eqb y x); [reflexivity|].
    rewrite IH. destruct (indexOf pre x); [reflexivity|].
    destruct (indexOf l x); reflexivity.
Qed.

Lemma existsb_same (x : jsstring) (a b : list jsstring) :
  (forall y, In y a <-> In y b) -> existsb (eqb x) a = existsb (eqb x) b.
Proof.
  intros H. apply eq_true_iff_eq. rewrite !existsb_exists.
  split; intros (y & Hy & E); exists y; split; try exact E; apply H; exact Hy.
Qed.

(** The index test of the source keeps just the first occurrences:
    [pre] is the part of the array already passed, [seen] its elements. *)
Lemma first_index_filter (arr pre seen l : list jsstring) :
  arr = pre ++ l ->
  (forall y, In y pre <-> In y seen) ->
  filter_from (fun tag index => same_index (indexOf arr tag) index)
              (length pre) l
  = dedupFirst seen l.
Proof.
  revert pre seen. induction l as [|x t IH]; intros pre seen -> Hseen;
    [reflexivity|].
  cbn [filter_from dedupFirst].
  rewrite indexOf_app, <- (existsb_same x pre seen Hseen), indexOf_seen.
  assert (Hnext : pre ++ x :: t = (pre ++ [x]) ++ t)
    by (rewrite <- app_assoc; reflexivity).
  specialize (IH (pre ++ [x])).
  rewrite length_app, Nat.add_1_r in IH.
  destruct (indexOf pre x) as [i|] eqn:E.
  - pose proof (indexOf_bound pre x i E) as Hi.
    cbn [same_index]. replace (i =? length pre)%nat with false
      by (symmetry; apply Nat.eqb_neq; lia).
    apply IH; [exact Hnext|].
    intros y. rewrite in_app_iff, <- Hseen. simpl.
    assert (Hx : In x pre).
    { pose proof (indexOf_seen pre x) as Hs. rewrite E in Hs.
      apply existsb_exists in Hs. destruct Hs as (z & Hz & Ez).
      apply eqb_eq in Ez. subst z. exact Hz. }
    split; [intros [H|[<-|[]]]; assumption|tauto].
  - cbn [indexOf]. rewrite eqb_refl. cbn [option_map same_index].
    rewrite Nat.add_0_r, Nat.eqb_refl.
    f_equal. apply IH; [exact Hnext|].
    intros y. rewrite !in_app_iff, Hseen. tauto.
Qed.

Lemma dedupFirst_In (seen l : list jsstring) (x : jsstring) :
  In x (dedupFirst seen l) <-> In x l /\ ~ In x seen.
Proof.
  revert seen. induction l as [|y t IH]; intros seen; simpl.
  - tauto.
  - destruct (existsb (eqb y) seen) eqn:E.
    + rewrite IH. apply existsb_exists in E. destruct E as (z & Hz & Ez).
      apply eqb_eq in Ez. subst z.
      split; [tauto|]. intros [[<-|H] Hn]; tauto.
    + assert (Hy : ~ In y seen).
      { intros Hin. apply Bool.not_true_iff_false in E. apply E.
        apply existsb_exists. exists y. split; [exact Hin|apply eqb_refl]. }
      simpl. rewrite IH. rewrite in_app_iff. simpl.
      split.
      * intros [<-|[H Hn]]; [tauto|]. split; [tauto|]. tauto.
      * intros [[<-|H] Hn]; [tauto|].
        destruct (list_eq_dec N.eq_dec y x) as [->|Hne]; [tauto|].
        right. split; [exact H|]. intros [Hs|[Hs|[]]]; tauto.
Qed.

Lemma dedupFirst_NoDup (seen l : list jsstring) : NoDup (dedupFirst seen l).
Proof.
  revert seen. induction l as [|y t IH]; intros seen; simpl.
  - constructor.
  - destruct (existsb (eqb y) seen); [apply IH|].
    constructor; [|apply IH].
    rewrite dedupFirst_In, in_app_iff. simpl. tauto.
Qed.

Lemma NoDup_firstn (n : nat) (l : list jsstring) : NoDup l -> NoDup (firstn n l).
Proof.
  revert n. induction l as [|x l IH]; intros n H.
  - rewrite firstn_nil. constructor.
  - destruct n; simpl; [constructor|].
    inversion H as [|? ? Hx Hl]; subst. constructor; [|apply IH; exact Hl].
    intros Hin. apply Hx. revert Hin. clear.
    generalize (firstn_skipn n l). intros E Hin. rewrite <- E.
    apply in_or_app. left. exact Hin.
Qed.

Lemma nonempty_test (tag : jsstring) :
  (0 <? length tag)%nat = negb (eqb tag []).
Proof. destruct tag; reflexivity. Qed.

(** The two filters of [sanitizeTags], with the index test read as
    keeping first occurrences. *)
Lemma sanitizeTags_first_occurrences (tags : list jsstring) :
  sanitizeTags tags
  = firstn 10
      (dedupFirst []
         (filter (fun tag => negb (eqb tag [])) (map sanitizeText tags))).
Proof.
  unfold sanitizeTags, filter_indexed. f_equal.
  rewrite (filter_ext _ _ nonempty_test).
  apply (first_index_filter _ [] [] _); [reflexivity|tauto].
Qed.

End SanitizeTagsSpec.

(** ** The submission form: a blank title *)

Lemma sanitizeTitle_blank (title : jsstring) :
  trim title = [] -> Sanitization.sanitizeTitle title = [].
Proof.
  intros H. unfold Sanitization.sanitizeTitle, Sanitization.sanitizeText.
  rewrite H. reflexivity.
Qed.

Lemma validateGameData_blank_title (data : GameSubmissionData) :
  trim (sub_title data) = [] ->
  exists errors,
    Helpers.validateGameData data = (false, lit "Title is required" :: errors).
Proof.
  intros H. unfold Helpers.validateGameData. rewrite H.
  cbn [truthy negb app]. eexists. reflexivity.
Qed.

(** C4. Submitting the form with an empty or whitespace-only title is
    rejected with the required-title error, whatever the URL, and the
    store is left exactly as it was: [GameStorage.save] is not reached. *)
Theorem submit_blank_title_rejected
    (Unicode_ToASCII : list N -> option jsstring)
    (setItem_throws : GameStorage.localStorage -> list Game ->
                      option GameStorage.DOMException)
    (formData : GameSubmissionData)
    (urlIsValid : option bool) (urlError : option jsstring)
    (uuid now : jsstring) (st : GameStorage.localStorage) :
  trim (sub_title formData) = [] ->
  exists errors,
    GameSubmission.handleSubmit Unicode_ToASCII setItem_throws
      formData urlIsValid urlError uuid now st
    = (Returns (lit "Title is required" :: errors), st).
Proof.
  intros H. unfold GameSubmission.handleSubmit.
  match goal with
  | |- context [Helpers.validateGameData ?d] =>
      destruct (validateGameData_blank_title d) as [errors E]
  end.
  - cbn [sub_title]. rewrite (sanitizeTitle_blank _ H). reflexivity.
  - rewrite E. exists errors. reflexivity.
Qed.

(** The scenario of the specification, on a store that holds a game. *)
Definition snake : Game :=
  {| id := lit "1"; title := lit "Snake Game";
     url := lit "https://codepen.io/x"; description := None; author := None;
     tags := [lit "classic"; lit "arcade"];
     submittedAt := lit "2024-01-01T10:00:00.000Z";
     featured := false; playCount := 3; status := active |}.

Definition pong : Game :=
  {| id := lit "2"; title := lit "Pong";
     url := lit "https://codepen.io/y"; description := None; author := None;
     tags := [lit "classic"; lit "multiplayer"];
     submittedAt := lit "2024-01-02T10:00:00.000Z";
     featured := true; playCount := 0; status := active |}.

Definition arcade : GameStorage.localStorage :=
  {| GameStorage.GAMES := GameStorage.Stored [snake; pong];
     GameStorage.APP_STATE := None |}.

Lemma submit_blank_title_rejected_witness :
  trim (lit "   ") = []
  /\ exists errors,
       GameSubmission.handleSubmit (fun _ => None) (fun _ _ => None)
         {| sub_title := lit "   "; sub_url := lit "https://ok.com";
            sub_description := None; sub_author := None; sub_tags := [] |}
         (Some true) None (lit "3") (lit "2024-01-03T10:00:00.000Z") arcade
       = (Returns (lit "Title is required" :: errors), arcade).
Proof.
  split; [reflexivity|].
  apply (submit_blank_title_rejected (fun _ => None) (fun _ _ => None)
           {| sub_title := lit "   "; sub_url := lit "https://ok.com";
              sub_description := None; sub_author := None; sub_tags := [] |}).
  reflexivity.
Defined.

(** ** GameStorage over localStorage: failures *)

Section LocalStorageProperties.

Import GameStorage.

Variable Unicode_ToASCII : list N -> option jsstring.
Variable JSON_parse : jsstring -> ImportData.
Variable setItem_throws : localStorage -> list Game -> option DOMException.

Lemma getAll_reads (st : localStorage) :
  exists games, getAll st = (Returns games, st).
Proof. unfold getAll. destruct (GAMES st); eexists; reflexivity. Qed.

Lemma saveGames_throws (games : list Game) (st st' : localStorage) (e : jsstring) :
  saveGames setItem_throws games st = (Throws e, st') -> st' = st.
Proof.
  unfold saveGames. destruct (setItem_throws st games) as [[|]|];
    intros [= _ <-]; reflexivity.
Qed.

Lemma save_throws (uuid now : jsstring) (game : NewGame)
    (st st' : localStorage) (e : jsstring) :
  save Unicode_ToASCII setItem_throws uuid now game st = (Throws e, st') ->
  st' = st.
Proof.
  unfold save.
  destruct (negb (isValid _)).
  - intros [= _ <-]. reflexivity.
  - unfold bind. destruct (getAll_reads st) as [games ->].
    apply saveGames_throws.
Qed.

Lemma update_throws (gameId : jsstring) (updates : GameUpdates)
    (st st' : localStorage) (e : jsstring) :
  update Unicode_ToASCII setItem_throws gameId updates st = (Throws e, st') ->
  st' = st.
Proof.
  unfold update, bind at 1. destruct (getAll_reads st) as [games ->].
  destruct (findIndex _ games) as [gameIndex|].
  2:{ intros [= _ <-]. reflexivity. }
  unfold bind.
  destruct (upd_url updates) as [u|].
  - destruct (truthy u).
    + destruct (negb (isValid _)).
      * intros [= _ <-]. reflexivity.
      * cbn [ret]. destruct (nth_error games gameIndex);
          apply saveGames_throws.
    + cbn [ret]. destruct (nth_error games gameIndex); apply saveGames_throws.
  - cbn [ret]. destruct (nth_error games gameIndex); apply saveGames_throws.
Qed.

Lemma delete_throws (gameId : jsstring) (st st' : localStorage) (e : jsstring) :
  delete setItem_throws gameId st = (Throws e, st') -> st' = st.
Proof.
  unfold delete, bind. destruct (getAll_reads st) as [games ->].
  apply saveGames_throws.
Qed.

Lemma import_throws (data : jsstring) (st st' : localStorage) (e : jsstring) :
  import JSON_parse setItem_throws data st = (Throws e, st') -> st' = st.
Proof.
  unfold import, rethrow.
  destruct (JSON_parse data) as [message| |games].
  - intros [= _ <-]. reflexivity.
  - intros [= _ <-]. reflexivity.
  - destruct (forallb _ games).
    + destruct (saveGames _ _ st) as [[[]|e'] st''] eqn:E; [discriminate|].
      intros [= _ <-]. apply (saveGames_throws _ _ _ _ E).
    + intros [= _ <-]. reflexivity.
Qed.

Lemma incrementPlayCount_throws (gameId : jsstring)
    (st st' : localStorage) (e : jsstring) :
  incrementPlayCount Unicode_ToASCII setItem_throws gameId st = (Throws e, st') ->
  st' = st.
Proof.
  unfold incrementPlayCount, getById, bind at 1 2.
  destruct (getAll_reads st) as [games ->]. cbn [ret].
  destruct (find _ games).
  - apply update_throws.
  - discriminate.
Qed.

(** The writing operations of the adapter. *)
Inductive operation : Type :=
| Save (uuid now : jsstring) (game : NewGame)
| Update (gameId : jsstring) (updates : GameUpdates)
| Delete (gameId : jsstring)
| Import (data : jsstring)
| IncrementPlayCount (gameId : jsstring).

Definition run (op : operation) : M localStorage unit :=
  match op with
  | Save uuid now game => save Unicode_ToASCII setItem_throws uuid now game
  | Update gameId updates => update Unicode_ToASCII setItem_throws gameId updates
  | Delete gameId => delete setItem_throws gameId
  | Import data => import JSON_parse setItem_throws data
  | IncrementPlayCount gameId =>
      incrementPlayCount Unicode_ToASCII setItem_throws gameId
  end.

(** C5. An operation of the adapter that fails, be it on validation, on
    a missing game or on the write to storage, leaves the storage
    exactly as it found it. *)
Theorem failed_operation_keeps_storage
    (op : operation) (st st' : localStorage) (e : jsstring) :
  run op st = (Throws e, st') -> st' = st.
Proof.
  destruct op; cbn [run].
  - apply save_throws.
  - apply update_throws.
  - apply delete_throws.
  - apply import_throws.
  - apply incrementPlayCount_throws.
Qed.

End LocalStorageProperties.

(** ** GameStorage over localStorage: the play count *)

(** [Number.MAX_SAFE_INTEGER] *)
Definition MAX_SAFE_INTEGER : Z := 9007199254740991.

(** A game with another play count and nothing else changed. *)
Definition withPlayCount (game : Game) (n : Z) : Game :=
  {| id := id game; title := title game; url := url game;
     description := description game; author := author game;
     tags := tags game; submittedAt := submittedAt game;
     featured := featured game; playCount := n; status := status game |}.

Section PlayCount.

Import GameStorage.

Variable Unicode_ToASCII : list N -> option jsstring.
Variable setItem_throws : localStorage -> list Game -> option DOMException.

Lemma find_first (gameId : jsstring) (pre post : list Game) (game : Game) :
  (forall x, In x pre -> eqb (id x) gameId = false) ->
  eqb (id game) gameId = true ->
  find (fun g => eqb (id g) gameId) (pre ++ game :: post) = Some game
  /\ findIndex (fun g => eqb (id g) gameId) (pre ++ game :: post)
     = Some (length pre).
Proof.
  intros Hpre Hgame. induction pre as [|x pre IH]; simpl.
  - rewrite Hgame. split; reflexivity.
  - rewrite (Hpre x (or_introl eq_refl)).
    destruct IH as [-> ->]; [intros y Hy; apply Hpre; right; exact Hy|].
    split; reflexivity.
Qed.

Lemma assign_middle (pre post : list Game) (game game' : Game) :
  nth_error (pre ++ game :: post) (length pre) = Some game
  /\ assign (pre ++ game :: post) (length pre) game' = pre ++ game' :: post.
Proof.
  induction pre as [|x pre [IH1 IH2]]; simpl; [split; reflexivity|].
  rewrite IH1, IH2. split; reflexivity.
Qed.

(** Up to 2^53 in magnitude the sum is the sum of the integers. *)
Lemma Number_add_exact (a b : Z) :
  (- 2 ^ 53 <= a + b <= 2 ^ 53)%Z -> Number_add a b = (a + b)%Z.
Proof.
  intros H. unfold Number_add, round_to_double.
  change (2 ^ 53)%Z with 9007199254740992%Z in *.
  destruct (Z.abs (a + b) <? 9007199254740992)%Z eqn:E; [reflexivity|].
  apply Z.ltb_ge in E.
  assert (Hcases : (a + b = 9007199254740992 \/ a + b = - 9007199254740992)%Z)
    by lia.
  destruct Hcases as [-> | ->]; vm_compute; reflexivity.
Qed.

(** One call, when the write goes through. *)
Lemma incrementPlayCount_step (st : localStorage)
    (pre post : list Game) (game : Game) :
  GAMES st = Stored (pre ++ game :: post) ->
  forallb (fun x => negb (eqb (id x) (id game))) pre = true ->
  setItem_throws st
    (pre ++ withPlayCount game (Number_add (playCount game) 1) :: post) = None ->
  incrementPlayCount Unicode_ToASCII setItem_throws (id game) st
  = (Returns tt,
     {| GAMES := Stored (pre ++ withPlayCount game
                                  (Number_add (playCount game) 1) :: post);
        APP_STATE := APP_STATE st |}).
Proof.
  intros Hst Hpre Hwrite.
  assert (Hpre' : forall x, In x pre -> eqb (id x) (id game) = false).
  { intros x Hx. rewrite forallb_forall in Hpre.
    apply negb_true_iff, Hpre, Hx. }
  destruct (find_first (id game) pre post game Hpre' (eqb_refl _))
    as [Hfind Hindex].
  unfold incrementPlayCount, getById, update, bind, getAll, ret.
  rewrite Hst, Hfind, Hst, Hindex. cbn [upd_url].
  destruct (assign_middle pre post game
              (withPlayCount game (Number_add (playCount game) 1)))
    as [-> Hassign].
  replace (spread game _)
    with (withPlayCount game (Number_add (playCount game) 1))
    by reflexivity.
  rewrite Hassign. unfold saveGames. rewrite Hwrite. reflexivity.
Qed.

(** C6. Two calls of [incrementPlayCount] on the id of a stored game
    return and raise the play count of that game by exactly 2, and every
    other field of the game, every other game, the order of the games
    and the rest of the storage stay as they were, when no game stored
    before it has its id, its count plus 1 is a safe integer of
    JavaScript, and the storage takes the two writes. *)
Theorem incrementPlayCount_twice
    (st : localStorage) (pre post : list Game) (game : Game) :
  GAMES st = Stored (pre ++ game :: post) ->
  forallb (fun x => negb (eqb (id x) (id game))) pre = true ->
  (- MAX_SAFE_INTEGER <= playCount game + 1 <= MAX_SAFE_INTEGER)%Z ->
  let once := pre ++ withPlayCount game (playCount game + 1) :: post in
  let twice := pre ++ withPlayCount game (playCount game + 2) :: post in
  setItem_throws st once = None ->
  setItem_throws {| GAMES := Stored once; APP_STATE := APP_STATE st |} twice
  = None ->
  exists st1 st2,
    incrementPlayCount Unicode_ToASCII setItem_throws (id game) st
    = (Returns tt, st1)
    /\ incrementPlayCount Unicode_ToASCII setItem_throws (id game) st1
       = (Returns tt, st2)
    /\ GAMES st2 = Stored twice
    /\ APP_STATE st2 = APP_STATE st.
Proof.
  intros Hst Hpre Hsafe once twice Hwrite1 Hwrite2.
  unfold MAX_SAFE_INTEGER in Hsafe.
  assert (E1 : Number_add (playCount game) 1 = (playCount game + 1)%Z)
    by (apply Number_add_exact; change (2 ^ 53)%Z with 9007199254740992%Z; lia).
  assert (E2 : Number_add (playCount game + 1) 1 = (playCount game + 2)%Z).
  { rewrite Number_add_exact
      by (change (2 ^ 53)%Z with 9007199254740992%Z; lia). lia. }
  set (game1 := withPlayCount game (playCount game + 1)).
  set (st1 := {| GAMES := Stored once; APP_STATE := APP_STATE st |}).
  exists st1, {| GAMES := Stored twice; APP_STATE := APP_STATE st |}.
  split; [|split; [|split; reflexivity]].
  - pose proof (incrementPlayCount_step st pre post game Hst Hpre) as H.
    rewrite E1 in H. exact (H Hwrite1).
  - pose proof (incrementPlayCount_step st1 pre post game1 eq_refl Hpre) as H.
    change (playCount game1) with (playCount game + 1)%Z in H.
    rewrite E2 in H.
    change (withPlayCount game1 (playCount game + 2))
      with (withPlayCount game (playCount game + 2)) in H.
    exact (H Hwrite2).
Qed.

End PlayCount.

Lemma incrementPlayCount_twice_witness :
  let inc := GameStorage.incrementPlayCount (fun _ => None) (fun _ _ => None)
               (id pong) in
  exists st1 st2,
    inc arcade = (Returns tt, st1)
    /\ inc st1 = (Returns tt, st2)
    /\ GameStorage.GAMES st2
       = GameStorage.Stored [snake; withPlayCount pong 2]
    /\ GameStorage.APP_STATE st2 = GameStorage.APP_STATE arcade.
Proof.
  intros inc.
  apply (incrementPlayCount_twice (fun _ => None) (fun _ _ => None)
           arcade [snake] [] pong).
  - reflexivity.
  - reflexivity.
  - vm_compute. split; discriminate.
  - reflexivity.
  - reflexivity.
Defined.

(** A collection as [import] stores it: it takes every array of records
    with fields of the right types, so a count of 2^53 and two records
    under one id. *)
Definition worn : Game := withPlayCount snake 9007199254740992.

Definition clone : Game :=
  {| id := id snake; title := lit "Snake Clone";
     url := lit "https://codepen.io/z"; description := None; author := None;
     tags := []; submittedAt := lit "2024-01-03T10:00:00.000Z";
     featured := false; playCount := 7; status := active |}.

Definition imported (games : list Game) : GameStorage.localStorage :=
  snd (GameStorage.import (fun _ => GamesArray (map Some games))
         (fun _ _ => None) [] arcade).

(** Where C6 fails as the specification words it.  The count of a game
    of the collection that stands at 2^53 is the same after two calls:
    the sum with 1 is rounded back to it.  Of two games of the collection
    under one id, two calls raise the count of the first by 2 and leave
    the count of the second as it was. *)
Lemma incrementPlayCount_twice_counterexample :
  let inc := GameStorage.incrementPlayCount (fun _ => None) (fun _ _ => None) in
  (GameStorage.GAMES (imported [worn; pong]) = GameStorage.Stored [worn; pong]
   /\ playCount worn = 9007199254740992%Z
   /\ exists st1 st2,
        inc (id worn) (imported [worn; pong]) = (Returns tt, st1)
        /\ inc (id worn) st1 = (Returns tt, st2)
        /\ GameStorage.GAMES st2 = GameStorage.Stored [worn; pong])
  /\ (GameStorage.GAMES (imported [snake; clone])
      = GameStorage.Stored [snake; clone]
      /\ id clone = id snake
      /\ playCount snake = 3%Z
      /\ playCount clone = 7%Z
      /\ exists st1 st2,
           inc (id clone) (imported [snake; clone]) = (Returns tt, st1)
           /\ inc (id clone) st1 = (Returns tt, st2)
           /\ GameStorage.GAMES st2
              = GameStorage.Stored [withPlayCount snake 5; clone]).
Proof.
  intros inc. split.
  - split; [reflexivity|]. split; [reflexivity|].
    exists (imported [worn; pong]), (imported [worn; pong]).
    split; [vm_compute; reflexivity|]. split; [vm_compute; reflexivity|].
    reflexivity.
  - split; [reflexivity|]. do 3 (split; [reflexivity|]).
    exists (imported [withPlayCount snake 4; clone]),
           (imported [withPlayCount snake 5; clone]).
    split; [vm_compute; reflexivity|]. split; [vm_compute; reflexivity|].
    reflexivity.
Qed.

Lemma failed_operation_keeps_storage_witness :
  let quota : GameStorage.localStorage -> list Game ->
              option GameStorage.DOMException :=
    fun _ _ => Some GameStorage.QuotaExceededError in
  let attempt := run (fun _ => None) (fun _ => NoGamesArray) quota
                     (Delete (lit "1")) arcade in
  attempt
  = (Throws (lit "Storage quota exceeded. Please clear some games or export your data."),
     snd attempt)
  /\ snd attempt = arcade.
Proof.
  intros quota attempt. split; [reflexivity|].
  apply (failed_operation_keeps_storage (fun _ => None) (fun _ => NoGamesArray)
           quota (Delete (lit "1")) arcade (snd attempt)
           (lit "Storage quota exceeded. Please clear some games or export your data.")).
  reflexivity.
Defined.

(** ** getAll: the order of the result *)

(** The text order of two timestamps written by [toISOString]. *)
Definition later (a b : jsstring) : bool := ltb b a.

Lemma ltb_irrefl (a : jsstring) : ltb a a = false.
Proof.
  induction a as [|x a IH]; [reflexivity|]. simpl.
  rewrite N.ltb_irrefl, N.eqb_refl. exact IH.
Qed.

(** "Not before" is transitive. *)
Lemma not_ltb_trans (a b c : jsstring) :
  ltb a b = false -> ltb b c = false -> ltb a c = false.
Proof.
  revert b c. induction a as [|x a IH]; intros b c Hab Hbc.
  - destruct b as [|y b]; [|discriminate].
    destruct c; [reflexivity|discriminate].
  - destruct c as [|z c]; [reflexivity|].
    destruct b as [|y b]; [discriminate|].
    simpl in *.
    apply orb_false_iff in Hab. destruct Hab as [Hxy Hab].
    apply orb_false_iff in Hbc. destruct Hbc as [Hyz Hbc].
    apply N.ltb_ge in Hxy. apply N.ltb_ge in Hyz.
    apply orb_false_iff. split; [apply N.ltb_ge; lia|].
    destruct (N.eqb_spec x z) as [->|Hne]; [|reflexivity].
    assert (y = z) by lia. subst y.
    rewrite N.eqb_refl in Hab, Hbc. simpl in *. apply (IH b c); assumption.
Qed.

Lemma ltb_asym (a b : jsstring) : ltb a b = true -> ltb b a = false.
Proof.
  revert b. induction a as [|x a IH]; intros b H.
  - destruct b; reflexivity.
  - destruct b as [|y b]; [discriminate|]. simpl in *.
    apply orb_true_iff in H. apply orb_false_iff.
    destruct H as [H|H].
    + apply N.ltb_lt in H. split; [apply N.ltb_ge; lia|].
      destruct (N.eqb_spec y x); [lia|reflexivity].
    + apply andb_true_iff in H. destruct H as [E H]. apply N.eqb_eq in E.
      subst y. rewrite N.ltb_irrefl, N.eqb_refl. simpl.
      split; [reflexivity|]. apply IH. exact H.
Qed.

Import SupabaseGameStorage.

Definition not_before (a b : Row) : Prop :=
  ltb (submitted_at a) (submitted_at b) = false.

Lemma insert_desc_In (row x : Row) (sorted : list Row) :
  In x (insert_desc row sorted) -> x = row \/ In x sorted.
Proof.
  induction sorted as [|r rest IH]; simpl.
  - intros [<-|[]]. left. reflexivity.
  - destruct (ltb (submitted_at r) (submitted_at row)); simpl.
    + intros [<-|[<-|H]]; auto.
    + intros [<-|H]; auto. destruct (IH H); auto.
Qed.

Lemma insert_desc_sorted (row : Row) (sorted : list Row) :
  StronglySorted not_before sorted ->
  StronglySorted not_before (insert_desc row sorted).
Proof.
  induction sorted as [|r rest IH]; intros Hs; simpl.
  - repeat constructor.
  - inversion Hs as [|? ? Hrest Hall]; subst.
    destruct (ltb (submitted_at r) (submitted_at row)) eqn:E.
    + constructor; [exact Hs|]. constructor.
      * apply ltb_asym. exact E.
      * rewrite Forall_forall in *. intros x Hx.
        apply (not_ltb_trans _ (submitted_at r)); [apply ltb_asym, E|].
        apply Hall. exact Hx.
    + constructor; [apply IH; exact Hrest|].
      rewrite Forall_forall in *. intros x Hx.
      destruct (insert_desc_In _ _ _ Hx) as [->|Hx']; [exact E|].
      apply Hall. exact Hx'.
Qed.

Lemma order_desc_sorted (rows : list Row) :
  StronglySorted not_before (order_desc rows).
Proof.
  induction rows as [|r rows IH]; simpl; [constructor|].
  apply insert_desc_sorted. exact IH.
Qed.

(** The Supabase version of [getAll] lists the games newest first: a
    game is never listed before one with a later [submittedAt]. *)
Lemma supabase_getAll_newest_first (db : Database)
    (l1 l2 l3 : list Game) (g1 g2 : Game) :
  SupabaseGameStorage.getAll db = l1 ++ g1 :: l2 ++ g2 :: l3 ->
  later (submittedAt g2) (submittedAt g1) = false.
Proof.
  unfold SupabaseGameStorage.getAll, select_ordered.
  destruct (outage db).
  { intros H. destruct l1; discriminate. }
  set (rows := order_desc _).
  assert (Hs : StronglySorted not_before rows) by apply order_desc_sorted.
  clearbody rows. revert l1. induction Hs as [|r rows Hs IH Hall];
    intros l1 H.
  - destruct l1; discriminate.
  - destruct l1 as [|g l1]; simpl in H.
    + injection H as H1 H2. subst g1.
      assert (Hin : In g2 (map transformFromDb rows)).
      { rewrite H2. apply in_or_app. right. left. reflexivity. }
      apply in_map_iff in Hin. destruct Hin as (r2 & <- & Hr2).
      rewrite Forall_forall in Hall. apply (Hall r2 Hr2).
    + injection H as _ H. apply (IH l1 H).
Qed.

(** C7. The localStorage version of [getAll] returns the stored array in
    the order it is stored in, and [save] appends: after two
    submissions the earlier one is listed first, not the later one. *)
Theorem localStorage_getAll_lists_oldest_first :
  (forall (games : list Game) (appState : option jsstring),
     fst (GameStorage.getAll
            {| GameStorage.GAMES := GameStorage.Stored games;
               GameStorage.APP_STATE := appState |})
     = Returns games)
  /\ let save := GameStorage.save (fun _ => None) (fun _ _ => None) in
     let game (name : string) :=
       {| new_title := lit name; new_url := lit "https://codepen.io/x";
          new_description := None; new_author := None; new_tags := [];
          new_featured := false; new_status := active |} in
     let empty := {| GameStorage.GAMES := GameStorage.Missing;
                     GameStorage.APP_STATE := None |} in
     let st1 := snd (save (lit "1") (lit "2024-01-01T10:00:00.000Z")
                          (game "Snake"%string) empty) in
     let st2 := snd (save (lit "2") (lit "2024-01-02T10:00:00.000Z")
                          (game "Pong"%string) st1) in
     exists older newer,
       fst (GameStorage.getAll st2) = Returns [older; newer]
       /\ title older = lit "Snake" /\ title newer = lit "Pong"
       /\ later (submittedAt newer) (submittedAt older) = true.
Proof.
  split; [reflexivity|].
  eexists. eexists. vm_compute. repeat split; reflexivity.
Qed.

(** ** getFiltered: the tag filter *)

(** A filter that asks for tags only. *)
Definition tagsOnly (wanted : list jsstring) : GameFilters :=
  {| searchTerm := None; filter_tags := Some wanted;
     filter_featured := None; filter_status := None |}.

(** The words of the specification: the game has at least one tag
    whose text contains, whatever the case, at least one requested tag. *)
Definition hasRequestedTag (toLowerCase : jsstring -> jsstring)
    (wanted : list jsstring) (game : Game) : bool :=
  existsb (fun gameTag =>
             existsb (fun requested =>
                        includes (toLowerCase gameTag) (toLowerCase requested))
                     wanted)
          (tags game).

Definition stored (st : GameStorage.localStorage) : list Game :=
  match GameStorage.GAMES st with
  | GameStorage.Stored games => games
  | _ => []
  end.

Lemma existsb_swap (A B : Type) (f : A -> B -> bool) (la : list A) (lb : list B) :
  existsb (fun a => existsb (fun b => f a b) lb) la
  = existsb (fun b => existsb (fun a => f a b) la) lb.
Proof.
  apply eq_true_iff_eq. rewrite !existsb_exists. split.
  - intros (a & Ha & H). apply existsb_exists in H. destruct H as (b & Hb & H).
    exists b. split; [exact Hb|]. apply existsb_exists. exists a. auto.
  - intros (b & Hb & H). apply existsb_exists in H. destruct H as (a & Ha & H).
    exists a. split; [exact Ha|]. apply existsb_exists. exists b. auto.
Qed.

(** In the localStorage version the tag filter has the meaning the
    specification gives it. *)
Lemma localStorage_getFiltered_tags (toLowerCase : jsstring -> jsstring)
    (st : GameStorage.localStorage) (w : jsstring) (ws : list jsstring) :
  GameStorage.getFiltered toLowerCase (tagsOnly (w :: ws)) st
  = (Returns (filter (hasRequestedTag toLowerCase (w :: ws)) (stored st)), st).
Proof.
  unfold GameStorage.getFiltered, bind, GameStorage.getAll, ret, stored.
  assert (E : forall game,
             GameStorage.passesFilters toLowerCase (tagsOnly (w :: ws)) game
             = hasRequestedTag toLowerCase (w :: ws) game).
  { intros game. unfold GameStorage.passesFilters, hasRequestedTag, tagsOnly.
    cbn [filter_status filter_featured searchTerm filter_tags length Nat.ltb
         Nat.leb andb].
    rewrite existsb_swap.
    destruct (existsb _ (tags game)); reflexivity. }
  destruct (GameStorage.GAMES st); try reflexivity.
  rewrite (filter_ext _ _ E). reflexivity.
Qed.

(** A table that holds the Snake game, and a request for games tagged
    classic or puzzle. *)
Definition snakeRow : Row :=
  {| row_id := id snake; row_title := title snake; row_url := url snake;
     row_description := None; row_author := None;
     row_tags := Some (tags snake); submitted_at := submittedAt snake;
     row_featured := featured snake; play_count := playCount snake;
     row_status := status snake |}.

Definition classicOrPuzzle : GameFilters :=
  tagsOnly [lit "classic"; lit "puzzle"].

(** C8. The tag filter keeps the games with at least one tag that
    contains, whatever the case, at least one requested tag: so does
    the localStorage version of [getFiltered], for every collection and
    every non-empty list of requested tags.  The Supabase version asks
    the database for the rows whose tags hold every requested tag: a
    game tagged classic and arcade is not returned for the tags classic
    and puzzle, though the localStorage version returns it. *)
Theorem getFiltered_tags_any_of
    (toLowerCase : jsstring -> jsstring) :
  (forall (st : GameStorage.localStorage) (w : jsstring) (ws : list jsstring),
     GameStorage.getFiltered toLowerCase (tagsOnly (w :: ws)) st
     = (Returns (filter (hasRequestedTag toLowerCase (w :: ws)) (stored st)),
        st))
  /\ hasRequestedTag (map ascii_lower) [lit "classic"; lit "puzzle"]
       (transformFromDb snakeRow) = true
  /\ fst (GameStorage.getFiltered (map ascii_lower) classicOrPuzzle
            {| GameStorage.GAMES := GameStorage.Stored [transformFromDb snakeRow];
               GameStorage.APP_STATE := None |})
     = Returns [transformFromDb snakeRow]
  /\ (forall array_in,
        SupabaseGameStorage.getFiltered array_in (map ascii_lower)
          classicOrPuzzle {| games := [snakeRow]; outage := None |}
        = []).
Proof.
  split; [intros st w ws; apply localStorage_getFiltered_tags|].
  split; [vm_compute; reflexivity|]. split; [vm_compute; reflexivity|].
  intros array_in. vm_compute. reflexivity.
Qed.

(* ===================================================================== *)
(** * URLValidator: further properties *)
(* ===================================================================== *)

Module URLRoundTrip.

Import WHATWG.

(** ** The URL parser reads back what the serializer writes *)

Import WHATWG.

(** *** Decimal numbers *)

Lemma parse_radix_snoc (R : N) (s : jsstring) (c : N) :
  parse_radix R (s ++ [c])
  = match parse_radix R s, digit_value R c with
    | Some a, Some v => Some (a * R + v)%N
    | _, _ => None
    end.
Proof. unfold parse_radix. rewrite fold_left_app. reflexivity. Qed.

Lemma digit_value_decimal (d : N) :
  (d < 10)%N -> digit_value 10 (48 + d) = Some d.
Proof.
  intros H. unfold digit_value, hex_value, is_digit, in_range.
  replace (48 <=? 48 + d)%N with true by (symmetry; apply N.leb_le; lia).
  replace (48 + d <=? 57)%N with true by (symmetry; apply N.leb_le; lia).
  cbn [andb]. replace (48 + d - 48)%N with d by lia.
  replace (d <? 10)%N with true by (symmetry; apply N.ltb_lt; lia).
  reflexivity.
Qed.

Lemma decimal_digits_spec (fuel : nat) (n : N) :
  (n < 10 ^ N.of_nat fuel)%N ->
  parse_radix 10 (decimal_digits fuel n) = Some n
  /\ forallb is_digit (decimal_digits fuel n) = true.
Proof.
  revert n. induction fuel as [|fuel IH]; intros n H.
  - change (10 ^ N.of_nat 0)%N with 1%N in H.
    assert (n = 0%N) by lia. subst. split; reflexivity.
  - cbn [decimal_digits]. rewrite parse_radix_snoc, forallb_app.
    assert (Hmod : (n mod 10 < 10)%N) by (apply N.mod_lt; lia).
    rewrite (digit_value_decimal _ Hmod).
    assert (Hd : is_digit (48 + n mod 10) = true).
    { unfold is_digit, in_range. apply andb_true_iff.
      clear - Hmod. set (d := (n mod 10)%N) in *. clearbody d.
      split; apply N.leb_le; lia. }
    cbn [forallb]. rewrite Hd.
    destruct (N.ltb_spec n 10) as [Hlt|Hge].
    + split; [|reflexivity]. cbn. rewrite N.mod_small by exact Hlt. reflexivity.
    + destruct (IH (n / 10)%N) as [IH1 IH2].
      { rewrite Nat2N.inj_succ, N.pow_succ_r' in H.
        apply N.Div0.div_lt_upper_bound. exact H. }
      rewrite IH1, IH2. split; [|reflexivity].
      f_equal. pose proof (N.div_mod n 10). lia.
Qed.

Lemma decimal_fuel (n : N) : (n < 10 ^ N.of_nat (S (N.to_nat (N.log2 n))))%N.
Proof.
  rewrite Nat2N.inj_succ, N2Nat.id.
  destruct (N.eq_dec n 0) as [->|Hn]; [reflexivity|].
  apply N.lt_le_trans with (2 ^ N.succ (N.log2 n))%N.
  - apply N.log2_spec. lia.
  - apply N.pow_le_mono_l. lia.
Qed.

Lemma decimal_spec (n : N) :
  parse_radix 10 (decimal n) = Some n
  /\ forallb is_digit (decimal n) = true
  /\ decimal n <> [].
Proof.
  destruct (decimal_digits_spec _ n (decimal_fuel n)) as [H1 H2].
  repeat split; try assumption.
  unfold decimal. cbn [decimal_digits]. intros E.
  apply app_eq_nil in E. destruct E as [_ E]. discriminate.
Qed.

(** *** Percent-encoding *)

Lemma N_below (k : nat) (n : N) :
  (n < N.of_nat k)%N -> In n (map N.of_nat (seq 0 k)).
Proof.
  intros H. apply in_map_iff. exists (N.to_nat n). split.
  - apply N2Nat.id.
  - apply in_seq. lia.
Qed.

Lemma forall_below (k : nat) (P : N -> bool) :
  forallb P (map N.of_nat (seq 0 k)) = true ->
  forall n, (n < N.of_nat k)%N -> P n = true.
Proof.
  intros H n Hn. rewrite forallb_forall in H. apply H, N_below, Hn.
Qed.

(** A set of code points that holds neither [%] nor a hexadecimal digit
    of the encoder. *)
Definition spares_escapes (set : N -> bool) : Prop :=
  set 37%N = false /\ forall n, (n < 16)%N -> set (hex_digit n) = false.

Lemma spares_escapes_by_cases (set : N -> bool) :
  set 37%N = false ->
  forallb (fun n => negb (set (hex_digit n))) (map N.of_nat (seq 0 16)) = true ->
  spares_escapes set.
Proof.
  intros H37 H. split; [exact H37|]. intros n Hn.
  apply negb_true_iff. apply (forall_below 16 _ H n Hn).
Qed.

Lemma userinfo_spares : spares_escapes userinfo_set.
Proof. apply spares_escapes_by_cases; reflexivity. Qed.
Lemma path_spares : spares_escapes path_set.
Proof. apply spares_escapes_by_cases; reflexivity. Qed.
Lemma query_spares : spares_escapes special_query_set.
Proof. apply spares_escapes_by_cases; reflexivity. Qed.
Lemma fragment_spares : spares_escapes fragment_set.
Proof. apply spares_escapes_by_cases; reflexivity. Qed.

Definition outside (set : N -> bool) (s : jsstring) : Prop :=
  Forall (fun c => set c = false) s.

Lemma percent_encode_byte_outside (set : N -> bool) (b : N) :
  spares_escapes set -> outside set (percent_encode_byte b).
Proof.
  intros [H37 Hhex]. unfold percent_encode_byte.
  repeat constructor; try assumption; apply Hhex; apply N.mod_lt; lia.
Qed.

Lemma percent_encode_outside (set : N -> bool) (c : N) :
  spares_escapes set -> outside set (percent_encode set c).
Proof.
  intros Hset. unfold percent_encode. destruct (set c) eqn:E.
  - generalize (utf8 c). intros bytes. induction bytes as [|b bytes IH].
    + constructor.
    + cbn [flat_map]. apply Forall_app. split; [|exact IH].
      apply percent_encode_byte_outside. exact Hset.
  - repeat constructor. exact E.
Qed.

Lemma flat_map_encode_outside (set : N -> bool) (s : jsstring) :
  spares_escapes set -> outside set (flat_map (percent_encode set) s).
Proof.
  intros Hset. induction s as [|c s IH]; cbn [flat_map]; [constructor|].
  apply Forall_app. split; [apply percent_encode_outside; exact Hset|exact IH].
Qed.

(** Text outside the set is encoded as itself. *)
Lemma flat_map_encode_id (set : N -> bool) (s : jsstring) :
  outside set s -> flat_map (percent_encode set) s = s.
Proof.
  induction 1 as [|c s Hc _ IH]; [reflexivity|].
  cbn [flat_map]. unfold percent_encode at 1. rewrite Hc, IH. reflexivity.
Qed.

Lemma outside_app (set : N -> bool) (a b : jsstring) :
  outside set a -> outside set b -> outside set (a ++ b).
Proof. intros Ha Hb. apply Forall_app. split; assumption. Qed.

(** The code points from [!] to [~]: none of them is white space. *)
Definition visible (c : N) : bool := in_range 33 126 c.

Lemma visible_not_space (c : N) : visible c = true -> is_space c = false.
Proof.
  unfold visible, in_range. intros H. apply andb_true_iff in H.
  destruct H as [H1 H2]. apply N.leb_le in H1. apply N.leb_le in H2.
  unfold is_space, in_range.
  repeat match goal with
         | |- context [(?a <=? ?b)%N] => destruct (N.leb_spec a b); try lia
         | |- context [(?a =? ?b)%N] => destruct (N.eqb_spec a b); try lia
         end; reflexivity.
Qed.

Lemma outside_c0_visible (c : N) :
  c0_control_set c = false -> (c =? 32)%N = false -> visible c = true.
Proof.
  unfold c0_control_set, visible, in_range. intros H H32.
  apply orb_false_iff in H. destruct H as [H1 H2].
  apply N.leb_gt in H1. apply N.ltb_ge in H2. apply N.eqb_neq in H32.
  apply andb_true_iff. split; apply N.leb_le; lia.
Qed.

Lemma outside_fragment_visible (c : N) : fragment_set c = false -> visible c = true.
Proof.
  unfold fragment_set, mem. cbn [existsb]. intros H.
  apply orb_false_iff in H. destruct H as [H0 H].
  apply orb_false_iff in H. destruct H as [H32 _].
  apply outside_c0_visible; assumption.
Qed.

Lemma outside_query_visible (c : N) : query_set c = false -> visible c = true.
Proof.
  unfold query_set, mem. cbn [existsb]. intros H.
  apply orb_false_iff in H. destruct H as [H0 H].
  apply orb_false_iff in H. destruct H as [H32 _].
  apply outside_c0_visible; assumption.
Qed.

Lemma outside_special_query (c : N) :
  special_query_set c = false -> query_set c = false.
Proof. unfold special_query_set. intros H. apply orb_false_iff in H. tauto. Qed.

Lemma outside_path (c : N) : path_set c = false -> query_set c = false.
Proof. unfold path_set. intros H. apply orb_false_iff in H. tauto. Qed.

Lemma outside_userinfo (c : N) : userinfo_set c = false -> path_set c = false.
Proof.
  unfold userinfo_set. intros H.
  apply orb_false_iff in H. destruct H as [H _].
  apply orb_false_iff in H. tauto.
Qed.

(** What a set holds is not in text outside of it. *)
Lemma outside_lacks (set : N -> bool) (s : jsstring) (c : N) :
  outside set s -> set c = true -> existsb (N.eqb c) s = false.
Proof.
  intros Hs Hc. induction Hs as [|x s Hx _ IH]; [reflexivity|].
  simpl. rewrite IH, orb_false_r. apply N.eqb_neq. intros <-. congruence.
Qed.

(** *** Paths *)

(** The code points a path segment of a parsed URL is free of. *)
Definition segment_set (c : N) : bool := path_set c || (c =? 47)%N.

Lemma segment_spares : spares_escapes segment_set.
Proof. apply spares_escapes_by_cases; reflexivity. Qed.

Definition segment_ok (segment : jsstring) : Prop :=
  outside segment_set segment
  /\ single_dot segment = false /\ double_dot segment = false.

Lemma set_false_neq (set : N -> bool) (c k : N) :
  set c = false -> set k = true -> (c =? k)%N = false.
Proof. intros Hc Hk. apply N.eqb_neq. intros ->. congruence. Qed.

Lemma encode_path_outside (c : N) :
  (c =? 47)%N = false -> outside segment_set (percent_encode path_set c).
Proof.
  intros Hc. unfold percent_encode. destruct (path_set c) eqn:E.
  - fold (percent_encode path_set c).
    assert (H : percent_encode segment_set c
                = flat_map percent_encode_byte (utf8 c)).
    { unfold percent_encode, segment_set. rewrite E. reflexivity. }
    rewrite <- H. apply percent_encode_outside, segment_spares.
  - repeat constructor. unfold segment_set. rewrite E, Hc. reflexivity.
Qed.

Lemma segment_ok_empty : segment_ok [].
Proof. split; [constructor|split; reflexivity]. Qed.

Lemma Forall_removelast (A : Type) (P : A -> Prop) (l : list A) :
  Forall P l -> Forall P (removelast l).
Proof.
  induction 1 as [|x l Hx Hl IH]; [constructor|].
  simpl. destruct l; [constructor|]. constructor; assumption.
Qed.

Lemma end_of_segment_ok (buffer : jsstring) (slash : bool) (path : list jsstring) :
  outside segment_set buffer -> Forall segment_ok path ->
  Forall segment_ok (end_of_segment buffer slash path).
Proof.
  intros Hb Hp. unfold end_of_segment, shorten.
  destruct (double_dot buffer) eqn:Ed.
  - destruct slash; [apply Forall_removelast; exact Hp|].
    apply Forall_app. split; [apply Forall_removelast; exact Hp|].
    repeat constructor; apply segment_ok_empty.
  - destruct (single_dot buffer) eqn:Es.
    + destruct slash; [exact Hp|].
      apply Forall_app. split; [exact Hp|].
      repeat constructor; apply segment_ok_empty.
    + apply Forall_app. split; [exact Hp|].
      repeat constructor; assumption.
Qed.

Lemma end_of_segment_last (buffer : jsstring) (path : list jsstring) :
  end_of_segment buffer false path <> [].
Proof.
  unfold end_of_segment.
  destruct (double_dot buffer); [|destruct (single_dot buffer)];
    intros E; apply app_eq_nil in E; destruct E as [_ E]; discriminate.
Qed.

(** Where a path ends: at the end of the input, at [?] or at [#]. *)
Definition path_end (rest : jsstring) : Prop :=
  match rest with
  | [] => True
  | c :: _ => (c =? 63)%N || (c =? 35)%N = true
  end.

Lemma path_state_ok (input buffer : jsstring) (path : list jsstring) :
  outside segment_set buffer -> Forall segment_ok path ->
  Forall segment_ok (fst (path_state input buffer path))
  /\ fst (path_state input buffer path) <> []
  /\ path_end (snd (path_state input buffer path)).
Proof.
  revert buffer path. induction input as [|c t IH]; intros buffer path Hb Hp.
  - cbn [path_state fst snd]. split; [apply end_of_segment_ok; assumption|].
    split; [apply end_of_segment_last|exact I].
  - cbn [path_state]. destruct (c =? 47)%N eqn:E47.
    + apply IH; [constructor|apply end_of_segment_ok; assumption].
    + destruct ((c =? 63)%N || (c =? 35)%N) eqn:Eend.
      * cbn [fst snd]. split; [apply end_of_segment_ok; assumption|].
        split; [apply end_of_segment_last|]. cbn [path_end]. exact Eend.
      * apply IH; [|exact Hp]. apply outside_app; [exact Hb|].
        apply encode_path_outside. exact E47.
Qed.

Lemma path_start_state_ok (input : jsstring) :
  Forall segment_ok (fst (path_start_state input))
  /\ fst (path_start_state input) <> []
  /\ path_end (snd (path_start_state input)).
Proof.
  unfold path_start_state. destruct input as [|c t].
  - apply path_state_ok; constructor.
  - destruct (c =? 47)%N; apply path_state_ok; constructor.
Qed.

Lemma segment_char (c : N) :
  segment_set c = false ->
  (c =? 47)%N = false /\ (c =? 63)%N || (c =? 35)%N = false
  /\ path_set c = false.
Proof.
  intros H. split; [apply (set_false_neq segment_set); [exact H|reflexivity]|].
  split.
  - apply orb_false_iff.
    split; apply (set_false_neq segment_set); try exact H; reflexivity.
  - unfold segment_set in H. apply orb_false_iff in H. tauto.
Qed.

(** Path state moves a segment of a parsed URL into its buffer as it is. *)
Lemma path_state_segment (segment input buffer : jsstring) (path : list jsstring) :
  outside segment_set segment ->
  path_state (segment ++ input) buffer path
  = path_state input (buffer ++ segment) path.
Proof.
  intros Hs. revert buffer. induction Hs as [|c segment Hc _ IH]; intros buffer.
  - rewrite app_nil_r. reflexivity.
  - destruct (segment_char c Hc) as (E47 & Eend & Epath).
    cbn [app path_state]. rewrite E47, Eend.
    unfold percent_encode. rewrite Epath, IH, <- app_assoc. reflexivity.
Qed.

Lemma end_of_segment_plain (segment : jsstring) (slash : bool)
    (path : list jsstring) :
  segment_ok segment -> end_of_segment segment slash path = path ++ [segment].
Proof.
  intros (_ & Hs & Hd). unfold end_of_segment. rewrite Hd, Hs. reflexivity.
Qed.

Lemma path_state_end (rest buffer : jsstring) (path : list jsstring) :
  path_end rest ->
  path_state rest buffer path = (end_of_segment buffer false path, rest).
Proof.
  destruct rest as [|c t]; [reflexivity|]. cbn [path_end path_state].
  intros H. rewrite H.
  replace (c =? 47)%N with false; [reflexivity|].
  symmetry. apply N.eqb_neq. intros ->.
  apply orb_true_iff in H. destruct H as [H|H]; discriminate.
Qed.

(** Path state reads a serialized path back. *)
Lemma path_state_serialized (segment : jsstring) (more : list jsstring)
    (rest : jsstring) (path : list jsstring) :
  Forall segment_ok (segment :: more) -> path_end rest ->
  path_state (segment ++ path_serializer more ++ rest) [] path
  = (path ++ segment :: more, rest).
Proof.
  revert segment path. induction more as [|next more IH];
    intros segment path Hall Hrest;
    inversion Hall as [|? ? Hseg Hmore]; subst;
    rewrite path_state_segment by apply Hseg; cbn [app].
  - cbn [path_serializer flat_map app].
    rewrite path_state_end by exact Hrest.
    rewrite end_of_segment_plain by exact Hseg. reflexivity.
  - unfold path_serializer. cbn [flat_map].
    fold (path_serializer more). rewrite <- !app_assoc. cbn [app path_state].
    rewrite N.eqb_refl.
    rewrite end_of_segment_plain by exact Hseg.
    rewrite (IH next (path ++ [segment]) Hmore Hrest).
    rewrite <- app_assoc. reflexivity.
Qed.

Lemma path_start_state_serialized (segments : list jsstring) (rest : jsstring) :
  Forall segment_ok segments -> segments <> [] -> path_end rest ->
  path_start_state (path_serializer segments ++ rest) = (segments, rest).
Proof.
  intros Hall Hne Hrest. destruct segments as [|segment more]; [contradiction|].
  unfold path_serializer. cbn [flat_map]. fold (path_serializer more).
  rewrite <- app_assoc. cbn [app path_start_state]. rewrite N.eqb_refl.
  apply (path_state_serialized segment more rest [] Hall Hrest).
Qed.

(** *** Query and fragment *)

Definition query_ok (q : option jsstring) : Prop :=
  match q with Some q => outside special_query_set q | None => True end.

Definition fragment_ok (f : option jsstring) : Prop :=
  match f with Some f => outside fragment_set f | None => True end.

Lemma query_fragment_ok (input : jsstring) :
  query_ok (fst (query_fragment input))
  /\ fragment_ok (snd (query_fragment input)).
Proof.
  unfold query_fragment.
  assert (Hf : forall rest,
             fragment_ok match rest with
                         | [] => None
                         | _ :: f => Some (flat_map (percent_encode fragment_set) f)
                         end).
  { intros [|c f]; [exact I|]. apply flat_map_encode_outside, fragment_spares. }
  destruct input as [|c t]; [split; exact I|].
  destruct (c =? 63)%N.
  - destruct (span _ t) as [q rest]. split; [|apply Hf].
    apply flat_map_encode_outside, query_spares.
  - split; [exact I|apply (Hf (c :: t))].
Qed.

Lemma span_until (p : N -> bool) (a b : jsstring) :
  forallb p a = true ->
  match b with [] => True | c :: _ => p c = false end ->
  span p (a ++ b) = (a, b).
Proof.
  intros Ha Hb. induction a as [|x a IH]; cbn [app span].
  - destruct b as [|c b]; [reflexivity|]. cbn [span]. rewrite Hb. reflexivity.
  - cbn [forallb] in Ha. apply andb_true_iff in Ha. destruct Ha as [Hx Ha].
    rewrite Hx, (IH Ha). reflexivity.
Qed.

Definition query_text (q : option jsstring) : jsstring :=
  match q with Some q => lit "?" ++ q | None => [] end.

Definition fragment_text (f : option jsstring) : jsstring :=
  match f with Some f => lit "#" ++ f | None => [] end.

Lemma outside_forallb (set : N -> bool) (s : jsstring) (k : N) :
  outside set s -> set k = true ->
  forallb (fun c => negb (c =? k)%N) s = true.
Proof.
  intros Hs Hk. apply forallb_forall. intros c Hc.
  unfold outside in Hs. rewrite Forall_forall in Hs.
  rewrite (set_false_neq set c k (Hs c Hc) Hk). reflexivity.
Qed.

(** Query state and fragment state read a serialized query and
    fragment back. *)
Lemma query_fragment_serialized (q f : option jsstring) :
  query_ok q -> fragment_ok f ->
  query_fragment (query_text q ++ fragment_text f) = (q, f).
Proof.
  intros Hq Hf.
  assert (Hfrag : match fragment_text f with
                  | [] => None
                  | _ :: t => Some (flat_map (percent_encode fragment_set) t)
                  end = f).
  { destruct f as [f|]; [|reflexivity].
    change (fragment_text (Some f)) with (35%N :: f).
    cbv beta iota. rewrite (flat_map_encode_id _ _ Hf). reflexivity. }
  destruct q as [q|]; unfold query_fragment.
  - change (query_text (Some q) ++ fragment_text f)
      with (63%N :: q ++ fragment_text f).
    cbv beta iota. rewrite N.eqb_refl.
    rewrite (span_until _ q (fragment_text f)).
    + rewrite (flat_map_encode_id _ _ Hq), Hfrag. reflexivity.
    + apply (outside_forallb special_query_set); [exact Hq|reflexivity].
    + destruct f; [|exact I]. reflexivity.
  - change (query_text None ++ fragment_text f) with (fragment_text f).
    destruct f as [f|]; [|reflexivity].
    change (fragment_text (Some f)) with (35%N :: f) in *.
    cbv beta iota in Hfrag. cbv beta iota.
    change (35 =? 63)%N with false. cbv iota.
    rewrite (flat_map_encode_id _ _ Hf). reflexivity.
Qed.

Lemma path_end_query_fragment (q f : option jsstring) :
  path_end (query_text q ++ fragment_text f).
Proof. destruct q; [reflexivity|]. destruct f; [reflexivity|exact I]. Qed.

(** *** The authority *)

Lemma credentials_app (a b : jsstring) (tokenSeen : bool) (user pass : jsstring) :
  credentials (a ++ b) tokenSeen user pass
  = let '(tokenSeen', user', pass') := credentials a tokenSeen user pass in
    credentials b tokenSeen' user' pass'.
Proof.
  revert tokenSeen user pass. induction a as [|c a IH]; intros tk user pass.
  - reflexivity.
  - cbn [app credentials].
    destruct ((c =? 58)%N && negb tk); [apply IH|].
    destruct tk; apply IH.
Qed.

Lemma credentials_plain (s : jsstring) (tokenSeen : bool) (user pass : jsstring) :
  outside userinfo_set s ->
  credentials s tokenSeen user pass
  = (tokenSeen, if tokenSeen then user else user ++ s,
                if tokenSeen then pass ++ s else pass).
Proof.
  intros Hs. revert user pass.
  induction Hs as [|c s Hc _ IH]; intros user pass.
  - cbn [credentials]. rewrite !app_nil_r. destruct tokenSeen; reflexivity.
  - cbn [credentials].
    rewrite (set_false_neq userinfo_set c 58 Hc eq_refl). cbn [andb].
    unfold percent_encode. rewrite Hc.
    destruct tokenSeen; rewrite IH, <- app_assoc; reflexivity.
Qed.

Lemma credentials_ok (s : jsstring) (tokenSeen : bool) (user pass : jsstring) :
  outside userinfo_set user -> outside userinfo_set pass ->
  outside userinfo_set (snd (fst (credentials s tokenSeen user pass)))
  /\ outside userinfo_set (snd (credentials s tokenSeen user pass)).
Proof.
  revert tokenSeen user pass. induction s as [|c s IH]; intros tk user pass Hu Hp.
  - split; assumption.
  - cbn [credentials].
    destruct ((c =? 58)%N && negb tk); [apply IH; assumption|].
    destruct tk; apply IH; try assumption;
      (apply outside_app; [assumption|]);
      apply percent_encode_outside, userinfo_spares.
Qed.

(** The code points that end a piece of the authority. *)
Definition authority_set (c : N) : bool := (c =? 64)%N || authority_end c.

Lemma authority_state_plain (x input : jsstring) (seen tokenSeen : bool)
    (user pass buffer : jsstring) :
  outside authority_set x ->
  authority_state (x ++ input) seen tokenSeen user pass buffer
  = authority_state input seen tokenSeen user pass (buffer ++ x).
Proof.
  intros Hx. revert buffer. induction Hx as [|c x Hc _ IH]; intros buffer.
  - rewrite app_nil_r. reflexivity.
  - cbn [app authority_state]. unfold authority_set in Hc.
    apply orb_false_iff in Hc. destruct Hc as [H64 Hend].
    rewrite H64, Hend, IH, <- app_assoc. reflexivity.
Qed.

Lemma authority_state_end (rest : jsstring) (seen tokenSeen : bool)
    (user pass buffer : jsstring) :
  match rest with [] => True | c :: _ => authority_end c = true end ->
  authority_state rest seen tokenSeen user pass buffer
  = {| atSignSeen := seen; auth_username := user; auth_password := pass;
       auth_buffer := buffer; auth_rest := rest |}.
Proof.
  destruct rest as [|c t]; [reflexivity|]. intros H. cbn [authority_state].
  rewrite H.
  replace (c =? 64)%N with false; [reflexivity|].
  symmetry. apply N.eqb_neq. intros ->. discriminate.
Qed.

Lemma authority_state_ok (input : jsstring) (seen tokenSeen : bool)
    (user pass buffer : jsstring) :
  outside userinfo_set user -> outside userinfo_set pass ->
  let a := authority_state input seen tokenSeen user pass buffer in
  outside userinfo_set (auth_username a)
  /\ outside userinfo_set (auth_password a)
  /\ match auth_rest a with [] => True | c :: _ => authority_end c = true end.
Proof.
  revert seen tokenSeen user pass buffer.
  induction input as [|c t IH]; intros seen tk user pass buffer Hu Hp.
  - cbn. auto.
  - cbn [authority_state]. destruct (c =? 64)%N.
    + destruct (credentials_ok (if seen then lit "%40" ++ buffer else buffer)
                  tk user pass Hu Hp) as [Hu' Hp'].
      destruct (credentials _ tk user pass) as [[tk' user'] pass'].
      apply IH; assumption.
    + destruct (authority_end c) eqn:E.
      * cbn. auto.
      * apply IH; assumption.
Qed.

(** *** Hosts *)

Lemma flat_map_utf8_ascii (s : jsstring) :
  forallb (fun b => (b <? 128)%N) s = true -> flat_map utf8 s = s.
Proof.
  induction s as [|c s IH]; [reflexivity|]. cbn [forallb flat_map].
  intros H. apply andb_true_iff in H. destruct H as [Hc H].
  unfold utf8 at 1. rewrite Hc, (IH H). reflexivity.
Qed.

Lemma percent_decode_plain (s : jsstring) :
  existsb (N.eqb 37) s = false -> percent_decode s = s.
Proof.
  induction s as [|c s IH]; [reflexivity|]. cbn [existsb].
  intros H. apply orb_false_iff in H. destruct H as [Hc H].
  rewrite N.eqb_sym in Hc. cbn [percent_decode]. rewrite Hc, (IH H).
  destruct s as [|h [|l t]]; try reflexivity.
  destruct (hex_value h); [|reflexivity]. destruct (hex_value l); reflexivity.
Qed.

Lemma lower_lower (c : N) : ascii_lower (ascii_lower c) = ascii_lower c.
Proof.
  unfold ascii_lower, in_range.
  destruct (N.leb_spec 65 c); destruct (N.leb_spec c 90); cbn [andb];
    repeat match goal with
           | |- context [(?a <=? ?b)%N] => destruct (N.leb_spec a b); try lia
           end; reflexivity.
Qed.

Lemma map_lower_lower (s : jsstring) :
  map ascii_lower (map ascii_lower s) = map ascii_lower s.
Proof.
  rewrite map_map. apply map_ext. exact lower_lower.
Qed.

Lemma lower_dot (c : N) : (ascii_lower c =? 46)%N = (c =? 46)%N.
Proof.
  unfold ascii_lower, in_range.
  destruct (65 <=? c)%N eqn:E1; destruct (c <=? 90)%N eqn:E2; cbn [andb];
    try reflexivity.
  apply N.leb_le in E1.
  transitivity false; [apply N.eqb_neq|symmetry; apply N.eqb_neq]; lia.
Qed.

Lemma lower_ascii (c : N) : (ascii_lower c <? 128)%N = (c <? 128)%N.
Proof.
  unfold ascii_lower, in_range.
  destruct (65 <=? c)%N eqn:E1; destruct (c <=? 90)%N eqn:E2; cbn [andb];
    try reflexivity.
  apply N.leb_le in E2.
  transitivity true; [apply N.ltb_lt|symmetry; apply N.ltb_lt]; lia.
Qed.

Lemma split_on_lower (s : jsstring) :
  split_on 46 (map ascii_lower s) = map (map ascii_lower) (split_on 46 s).
Proof.
  induction s as [|c s IH]; [reflexivity|].
  cbn [map split_on]. rewrite lower_dot, IH.
  destruct (c =? 46)%N; [reflexivity|].
  destruct (split_on 46 s); reflexivity.
Qed.

Lemma ace_label_lower (l : jsstring) : ace_label (map ascii_lower l) = ace_label l.
Proof. unfold ace_label. rewrite map_lower_lower. reflexivity. Qed.

Lemma existsb_ace_lower (s : jsstring) :
  existsb ace_label (split_on 46 (map ascii_lower s))
  = existsb ace_label (split_on 46 s).
Proof.
  rewrite split_on_lower. generalize (split_on 46 s). intros parts.
  induction parts as [|p parts IH]; [reflexivity|].
  cbn [map existsb]. rewrite ace_label_lower, IH. reflexivity.
Qed.

Lemma forallb_ascii_lower (s : jsstring) :
  forallb (fun b => (b <? 128)%N) (map ascii_lower s)
  = forallb (fun b => (b <? 128)%N) s.
Proof.
  induction s as [|c s IH]; [reflexivity|].
  cbn [map forallb]. rewrite lower_ascii, IH. reflexivity.
Qed.

(** What domain to ASCII gives in the end, and how. *)
Lemma domain_to_ASCII_cases (U : list N -> option jsstring)
    (bytes d : jsstring) :
  domain_to_ASCII U bytes = Some d ->
  d <> []
  /\ ((forallb (fun b => (b <? 128)%N) bytes
       && negb (existsb ace_label (split_on 46 bytes)) = true
       /\ d = map ascii_lower bytes)
      \/ U bytes = Some d).
Proof.
  unfold domain_to_ASCII.
  destruct (forallb _ bytes && negb _) eqn:E.
  - destruct (map ascii_lower bytes) as [|c s] eqn:Em; [discriminate|].
    intros [= <-]. split; [discriminate|]. left. split; reflexivity.
  - destruct (U bytes) as [[|c s]|] eqn:EU; try discriminate.
    intros [= <-]. split; [discriminate|]. right. reflexivity.
Qed.

(** Domain to ASCII on its own lower-cased ASCII result. *)
Lemma domain_to_ASCII_lower (U : list N -> option jsstring) (bytes : jsstring) :
  forallb (fun b => (b <? 128)%N) bytes
  && negb (existsb ace_label (split_on 46 bytes)) = true ->
  map ascii_lower bytes <> [] ->
  domain_to_ASCII U (map ascii_lower bytes) = Some (map ascii_lower bytes).
Proof.
  intros H Hne. unfold domain_to_ASCII.
  rewrite forallb_ascii_lower, existsb_ace_lower, H, map_lower_lower.
  destruct (map ascii_lower bytes); [contradiction|reflexivity].
Qed.

(** The code points that end the host inside the authority. *)
Definition host_set (c : N) : bool := mem c [58; 64; 47; 63; 35]%N.

Lemma host_set_forbidden (c : N) :
  forbidden_domain_code_point c = false -> host_set c = false.
Proof.
  intros H. destruct (host_set c) eqn:E; [|reflexivity].
  unfold host_set, mem in E. cbn [existsb] in E.
  repeat (apply orb_true_iff in E; destruct E as [E|E]);
    try discriminate; apply N.eqb_eq in E; subst c; discriminate.
Qed.

Lemma percent_forbidden (c : N) :
  forbidden_domain_code_point c = false -> (37 =? c)%N = false.
Proof.
  intros H. apply N.eqb_neq. intros <-. discriminate.
Qed.

Lemma not_forbidden_outside (s : jsstring) :
  existsb forbidden_domain_code_point s = false ->
  outside host_set s /\ existsb (N.eqb 37) s = false.
Proof.
  induction s as [|c s IH]; [split; [constructor|reflexivity]|].
  cbn [existsb]. intros H. apply orb_false_iff in H. destruct H as [Hc H].
  destruct (IH H) as [IH1 IH2]. split.
  - constructor; [apply host_set_forbidden; exact Hc|exact IH1].
  - rewrite (percent_forbidden c Hc), IH2. reflexivity.
Qed.

(** Domain to ASCII of the platform, on a result of its own that holds
    no forbidden code point, gives that result again. *)
Definition stable (U : list N -> option jsstring) : Prop :=
  forall bytes d,
    U bytes = Some d ->
    existsb forbidden_domain_code_point d = false ->
    domain_to_ASCII U (percent_decode (flat_map utf8 d)) = Some d.

Lemma domain_again (U : list N -> option jsstring) (bytes d : jsstring) :
  stable U ->
  domain_to_ASCII U bytes = Some d ->
  existsb forbidden_domain_code_point d = false ->
  domain_to_ASCII U (percent_decode (flat_map utf8 d)) = Some d.
Proof.
  intros HU Hd Hforbidden.
  destruct (domain_to_ASCII_cases U bytes d Hd) as [Hne [[Hfast ->]|Hslow]].
  - pose proof Hfast as Hfast'.
    apply andb_true_iff in Hfast'. destruct Hfast' as [Hascii _].
    rewrite flat_map_utf8_ascii by (rewrite forallb_ascii_lower; exact Hascii).
    rewrite percent_decode_plain by apply (not_forbidden_outside _ Hforbidden).
    apply domain_to_ASCII_lower; assumption.
  - apply (HU bytes d Hslow Hforbidden).
Qed.

Definition host_ok (U : list N -> option jsstring) (h : Host) : Prop :=
  host_parser U (host_serializer h) = Some h
  /\ outside host_set (host_serializer h)
  /\ host_serializer h <> [].

(** Digits and dots. *)
Definition digit_or_dot (c : N) : bool := is_digit c || (c =? 46)%N.

Lemma digit_or_dot_cases (P : N -> bool) :
  forallb (fun c => negb (digit_or_dot c) || P c) (map N.of_nat (seq 0 58)) = true ->
  forall c, digit_or_dot c = true -> P c = true.
Proof.
  intros H c Hc.
  assert (Hlt : (c < N.of_nat 58)%N).
  { unfold digit_or_dot, is_digit, in_range in Hc.
    apply orb_true_iff in Hc. destruct Hc as [Hc|Hc].
    - apply andb_true_iff in Hc. destruct Hc as [_ Hc].
      apply N.leb_le in Hc. lia.
    - apply N.eqb_eq in Hc. lia. }
  pose proof (forall_below 58 _ H c Hlt) as HP. cbv beta in HP.
  rewrite Hc in HP. exact HP.
Qed.

Lemma digits_dots_facts (s : jsstring) :
  forallb digit_or_dot s = true ->
  forallb (fun b => (b <? 128)%N) s = true
  /\ map ascii_lower s = s
  /\ existsb forbidden_domain_code_point s = false.
Proof.
  induction s as [|c s IH]; [repeat split|].
  cbn [forallb map existsb]. intros H.
  apply andb_true_iff in H. destruct H as [Hc H].
  destruct (IH H) as (IH1 & IH2 & IH3).
  rewrite (digit_or_dot_cases (fun c => (c <? 128)%N) eq_refl c Hc), IH1, IH2.
  pose proof (digit_or_dot_cases (fun c => (ascii_lower c =? c)%N) eq_refl c Hc)
    as Hl. apply N.eqb_eq in Hl. rewrite Hl.
  pose proof (digit_or_dot_cases
                (fun c => negb (forbidden_domain_code_point c)) eq_refl c Hc)
    as Hf. apply negb_true_iff in Hf. rewrite Hf, IH3.
  repeat split.
Qed.

Lemma ace_label_digits (l : jsstring) :
  forallb is_digit l = true -> ace_label l = false.
Proof.
  destruct l as [|c l]; [reflexivity|]. cbn [forallb]. intros H.
  apply andb_true_iff in H. destruct H as [Hc _].
  assert (Hd : digit_or_dot c = true) by (unfold digit_or_dot; rewrite Hc; reflexivity).
  pose proof (digit_or_dot_cases
                (fun c => negb (120 =? ascii_lower c)%N) eq_refl c Hd) as Hx.
  apply negb_true_iff in Hx.
  unfold ace_label. cbn [map]. change (lit "xn--") with [120; 110; 45; 45]%N.
  cbn [startsWith]. rewrite Hx. reflexivity.
Qed.

Lemma digits_no_dot (l : jsstring) :
  forallb is_digit l = true -> forallb (fun c => negb (c =? 46)%N) l = true.
Proof.
  intros H. rewrite forallb_forall in *. intros c Hc.
  specialize (H c Hc).
  assert (Hd : digit_or_dot c = true) by (unfold digit_or_dot; rewrite H; reflexivity).
  unfold is_digit, in_range in H. apply andb_true_iff in H.
  destruct H as [H1 _]. apply N.leb_le in H1.
  apply negb_true_iff, N.eqb_neq. lia.
Qed.

Lemma split_on_single (d : N) (a : jsstring) :
  forallb (fun c => negb (c =? d)%N) a = true -> split_on d a = [a].
Proof.
  induction a as [|c a IH]; [reflexivity|]. cbn [forallb split_on].
  intros H. apply andb_true_iff in H. destruct H as [Hc H].
  apply negb_true_iff in Hc. rewrite Hc, (IH H). reflexivity.
Qed.

Lemma split_on_app (d : N) (a b : jsstring) :
  forallb (fun c => negb (c =? d)%N) a = true ->
  split_on d (a ++ d :: b) = a :: split_on d b.
Proof.
  induction a as [|c a IH]; cbn [forallb app split_on].
  - intros _. rewrite N.eqb_refl. reflexivity.
  - intros H. apply andb_true_iff in H. destruct H as [Hc H].
    apply negb_true_iff in Hc. rewrite Hc, (IH H). reflexivity.
Qed.

Lemma ipv4_number_decimal (b : N) :
  (b < 256)%N -> ipv4_number (decimal b) = Some b.
Proof.
  intros H.
  assert (Hall : forallb (fun b => match ipv4_number (decimal b) with
                                   | Some v => (v =? b)%N
                                   | None => false
                                   end) (map N.of_nat (seq 0 256)) = true)
    by (vm_compute; reflexivity).
  pose proof (forall_below 256 _ Hall b H) as E. cbv beta in E.
  destruct (ipv4_number (decimal b)); [|discriminate].
  apply N.eqb_eq in E. subst. reflexivity.
Qed.

Lemma forallb_digit_or_dot (l : jsstring) :
  forallb is_digit l = true -> forallb digit_or_dot l = true.
Proof.
  intros H. rewrite forallb_forall in *. intros c Hc.
  unfold digit_or_dot. rewrite (H c Hc). reflexivity.
Qed.

(** Four numbers below 256, written with dots, are read as the IPv4
    address they spell. *)
Lemma dotted_host (U : list N -> option jsstring) (b1 b2 b3 b4 : N) :
  (b1 < 256)%N -> (b2 < 256)%N -> (b3 < 256)%N -> (b4 < 256)%N ->
  let s := decimal b1 ++ 46%N :: decimal b2 ++ 46%N :: decimal b3
           ++ 46%N :: decimal b4 in
  host_parser U s
  = Some (IPv4 (b4 + (b1 * 16777216 + (b2 * 65536 + (b3 * 256 + 0)))))
  /\ outside host_set s /\ s <> [].
Proof.
  intros H1 H2 H3 H4 s.
  destruct (decimal_spec b1) as (_ & D1 & N1).
  destruct (decimal_spec b2) as (_ & D2 & N2).
  destruct (decimal_spec b3) as (_ & D3 & N3).
  destruct (decimal_spec b4) as (_ & D4 & N4).
  assert (Hs : forallb digit_or_dot s = true).
  { unfold s. repeat (rewrite forallb_app || cbn [forallb]).
    rewrite !forallb_digit_or_dot by assumption. reflexivity. }
  destruct (digits_dots_facts s Hs) as (Hascii & Hlower & Hforbidden).
  assert (Hparts : split_on 46 s
                   = [decimal b1; decimal b2; decimal b3; decimal b4]).
  { unfold s. rewrite !split_on_app, split_on_single
      by (apply digits_no_dot; assumption). reflexivity. }
  assert (Hne : s <> []).
  { unfold s. destruct (decimal b1); [contradiction|discriminate]. }
  clearbody s.
  split; [|split; [apply not_forbidden_outside; exact Hforbidden|exact Hne]].
  unfold host_parser.
  rewrite flat_map_utf8_ascii by exact Hascii.
  rewrite percent_decode_plain by apply (not_forbidden_outside _ Hforbidden).
  assert (Hdomain : domain_to_ASCII U s = Some s).
  { unfold domain_to_ASCII. rewrite Hascii, Hparts, Hlower. cbn [existsb].
    rewrite !ace_label_digits by assumption. cbn [orb negb andb].
    destruct s; [contradiction|reflexivity]. }
  rewrite Hdomain, Hforbidden.
  assert (Hlast : decimal b4 <> []) by exact N4.
  assert (Hends : ends_in_a_number s = true).
  { unfold ends_in_a_number. rewrite Hparts.
    unfold drop_last_empty. cbn [last].
    destruct (decimal b4) as [|c t] eqn:E4; [contradiction|].
    cbn [last truthy andb]. rewrite D4. reflexivity. }
  rewrite Hends. unfold ipv4_parser. rewrite Hparts.
  unfold drop_last_empty. cbn [last].
  destruct (decimal b4) as [|c t] eqn:E4; [contradiction|].
  rewrite <- E4. cbn [length Nat.ltb Nat.leb map].
  rewrite !ipv4_number_decimal by assumption.
  cbn [all_some option_map last removelast existsb length].
  replace (255 <? b1)%N with false by (symmetry; apply N.ltb_ge; lia).
  replace (255 <? b2)%N with false by (symmetry; apply N.ltb_ge; lia).
  replace (255 <? b3)%N with false by (symmetry; apply N.ltb_ge; lia).
  cbn [orb]. change (256 ^ (5 - N.of_nat 4))%N with 256%N.
  replace (256 <=? b4)%N with false by (symmetry; apply N.leb_gt; lia).
  reflexivity.
Qed.

Lemma all_some_length (l : list (option N)) (numbers : list N) :
  all_some l = Some numbers -> length numbers = length l.
Proof.
  revert numbers. induction l as [|[x|] l IH]; intros numbers H; cbn in H.
  - injection H as <-. reflexivity.
  - destruct (all_some l) as [t|]; [|discriminate]. injection H as <-.
    cbn. rewrite (IH t eq_refl). reflexivity.
  - discriminate.
Qed.

(** The IPv4 parser gives a 32-bit address. *)
Lemma ipv4_parser_bound (input : jsstring) (a : N) :
  ipv4_parser input = Some a -> (a < 4294967296)%N.
Proof.
  unfold ipv4_parser.
  set (parts := drop_last_empty (split_on 46 input)).
  destruct (4 <? length parts)%nat eqn:Elen; [discriminate|].
  apply Nat.ltb_ge in Elen.
  destruct (all_some (map ipv4_number parts)) as [numbers|] eqn:E; [|discriminate].
  apply all_some_length in E. rewrite length_map in E.
  destruct (existsb _ (removelast numbers)) eqn:Efront; [discriminate|].
  destruct (_ <=? last numbers 0)%N eqn:Elast; [discriminate|].
  intros [= <-]. apply N.leb_gt in Elast.
  destruct numbers as [|n1 [|n2 [|n3 [|n4 [|n5 more]]]]];
    cbn [length] in E; try lia;
    cbn [last removelast existsb ipv4_sum length] in *;
    repeat match goal with
           | H : _ || _ = false |- _ =>
               apply orb_false_iff in H; destruct H as [? H]
           | H : (255 <? _)%N = false |- _ => apply N.ltb_ge in H
           end;
    repeat match goal with
           | H : context [(256 ^ ?k)%N] |- _ =>
               let v := eval vm_compute in (256 ^ k)%N in
               change (256 ^ k)%N with v in H
           | |- context [(256 ^ ?k)%N] =>
               let v := eval vm_compute in (256 ^ k)%N in
               change (256 ^ k)%N with v
           end;
    lia.
Qed.

(** The IPv4 serializer writes the four bytes of the address. *)
Lemma ipv4_bytes (a : N) :
  (a < 4294967296)%N ->
  let b1 := (a / 16777216)%N in
  let b2 := ((a / 65536) mod 256)%N in
  let b3 := ((a / 256) mod 256)%N in
  let b4 := (a mod 256)%N in
  (b1 < 256)%N /\ (b2 < 256)%N /\ (b3 < 256)%N /\ (b4 < 256)%N
  /\ a = (b4 + (b1 * 16777216 + (b2 * 65536 + (b3 * 256 + 0))))%N.
Proof.
  intros Ha b1 b2 b3 b4.
  assert (E2 : (a / 65536 = a / 256 / 256)%N)
    by (rewrite N.Div0.div_div; reflexivity).
  assert (E1 : (a / 16777216 = a / 256 / 256 / 256)%N)
    by (rewrite !N.Div0.div_div; reflexivity).
  unfold b1, b2, b3, b4. rewrite E1, E2.
  pose proof (N.div_mod a 256 ltac:(lia)) as Q1.
  pose proof (N.div_mod (a / 256) 256 ltac:(lia)) as Q2.
  pose proof (N.div_mod (a / 256 / 256) 256 ltac:(lia)) as Q3.
  pose proof (N.mod_lt a 256 ltac:(lia)) as R1.
  pose proof (N.mod_lt (a / 256) 256 ltac:(lia)) as R2.
  pose proof (N.mod_lt (a / 256 / 256) 256 ltac:(lia)) as R3.
  set (q1 := (a / 256)%N) in *. set (r1 := (a mod 256)%N) in *.
  set (q2 := (q1 / 256)%N) in *. set (r2 := (q1 mod 256)%N) in *.
  set (q3 := (q2 / 256)%N) in *. set (r3 := (q2 mod 256)%N) in *.
  clearbody q1 r1 q2 r2 q3 r3. lia.
Qed.

Lemma host_parser_ok (U : list N -> option jsstring) (name : jsstring) (h : Host) :
  stable U -> host_parser U name = Some h -> host_ok U h.
Proof.
  intros HU. unfold host_parser at 1.
  destruct (domain_to_ASCII U _) as [d|] eqn:Ed; [|discriminate].
  destruct (existsb forbidden_domain_code_point d) eqn:Eforbidden;
    [discriminate|].
  destruct (ends_in_a_number d) eqn:Eends.
  - destruct (ipv4_parser d) as [a|] eqn:Ea; [|discriminate].
    intros [= <-]. apply ipv4_parser_bound in Ea.
    destruct (ipv4_bytes a Ea) as (B1 & B2 & B3 & B4 & Esum).
    destruct (dotted_host U _ _ _ _ B1 B2 B3 B4) as (Hparse & Hout & Hne).
    unfold host_ok. cbn [host_serializer]. unfold ipv4_serializer.
    split; [|split; assumption].
    cbn [app]. rewrite Esum at 5. exact Hparse.
  - intros [= <-]. unfold host_ok. cbn [host_serializer].
    destruct (not_forbidden_outside d Eforbidden) as [Hout _].
    destruct (domain_to_ASCII_cases U _ d Ed) as [Hne _].
    split; [|split; assumption].
    unfold host_parser.
    rewrite (domain_again U _ d HU Ed Eforbidden), Eforbidden, Eends.
    reflexivity.
Qed.

(** *** Ports *)

Definition port_ok (scheme : jsstring) (p : option N) : Prop :=
  match p with
  | Some p => port_state scheme (decimal p) = Some (Some p)
  | None => True
  end.

Lemma port_state_ok (scheme digits : jsstring) (p : option N) :
  port_state scheme digits = Some p -> port_ok scheme p.
Proof.
  unfold port_state. destruct (forallb is_digit digits); [|discriminate].
  destruct digits as [|c t]; [intros [= <-]; exact I|].
  destruct (parse_radix 10 (c :: t)) as [v|]; [|discriminate].
  destruct (65535 <? v)%N eqn:Ev; [discriminate|].
  destruct (decimal_spec v) as (Hparse & Hdigits & Hne).
  assert (Hagain : forall r : N -> option (option N),
             (if forallb is_digit (decimal v)
              then match decimal v with
                   | [] => Some None
                   | _ :: _ =>
                       match parse_radix 10 (decimal v) with
                       | Some p0 => if (65535 <? p0)%N then None else r p0
                       | None => None
                       end
                   end
              else None) = r v).
  { intros r. rewrite Hdigits, Hparse, Ev.
    destruct (decimal v); [contradiction|reflexivity]. }
  destruct (default_port scheme) as [d|] eqn:Ed.
  - destruct (d =? v)%N eqn:Edv; intros [= <-]; [exact I|].
    cbn [port_ok]. unfold port_state. rewrite Ed.
    rewrite (Hagain (fun p0 => if (d =? p0)%N then Some None else Some (Some p0))).
    rewrite Edv. reflexivity.
  - intros [= <-]. cbn [port_ok]. unfold port_state. rewrite Ed.
    apply (Hagain (fun p0 => Some (Some p0))).
Qed.

Definition port_text (p : option N) : jsstring :=
  match p with Some p => lit ":" ++ decimal p | None => [] end.

Lemma host_state_ok (U : list N -> option jsstring) (scheme buffer : jsstring)
    (h : Host) (p : option N) :
  stable U -> host_state U scheme buffer = Some (h, p) ->
  host_ok U h /\ port_ok scheme p.
Proof.
  intros HU. unfold host_state.
  destruct (span _ buffer) as [name after].
  destruct name as [|c name]; [discriminate|].
  destruct (host_parser U (c :: name)) as [h'|] eqn:Eh; [|discriminate].
  destruct after as [|colon digits].
  - intros [= <- <-]. split; [apply (host_parser_ok U _ _ HU Eh)|exact I].
  - destruct (port_state scheme digits) as [p'|] eqn:Ep; [|discriminate].
    intros [= <- <-].
    split; [apply (host_parser_ok U _ _ HU Eh)|apply (port_state_ok _ _ _ Ep)].
Qed.

(** Host state and port state read a serialized host and port back. *)
Lemma host_state_serialized (U : list N -> option jsstring) (scheme : jsstring)
    (h : Host) (p : option N) :
  host_ok U h -> port_ok scheme p ->
  host_state U scheme (host_serializer h ++ port_text p) = Some (h, p).
Proof.
  intros (Hparse & Hout & Hne) Hp. unfold host_state.
  rewrite (span_until _ (host_serializer h) (port_text p)).
  - destruct (host_serializer h) as [|c name] eqn:E; [contradiction|].
    rewrite Hparse. destruct p as [p|]; [|reflexivity].
    change (port_text (Some p)) with (58%N :: decimal p). cbv iota.
    cbn [port_ok] in Hp. rewrite Hp. reflexivity.
  - apply (outside_forallb host_set); [exact Hout|reflexivity].
  - destruct p; [reflexivity|exact I].
Qed.

(** *** Parsed URLs *)

(** What holds of every URL record the parser gives. *)
Record well_formed (U : list N -> option jsstring) (u : URLRecord) : Prop := {
  wf_scheme : scheme u = lit "http" \/ scheme u = lit "https";
  wf_username : outside userinfo_set (username u);
  wf_password : outside userinfo_set (password u);
  wf_host : host_ok U (host u);
  wf_port : port_ok (scheme u) (port u);
  wf_path : Forall segment_ok (path u);
  wf_segments : path u <> [];
  wf_query : query_ok (query u);
  wf_fragment : fragment_ok (fragment u)
}.

Lemma URL_new_well_formed (U : list N -> option jsstring) (s : jsstring)
    (u : URLRecord) :
  stable U -> URL_new U s = Some u -> well_formed U u.
Proof.
  intros HU. unfold URL_new.
  destruct (scheme_start_state s) as [[sch rest]|]; [|discriminate].
  destruct (eqb sch (lit "http") || eqb sch (lit "https")) eqn:Esch;
    [|discriminate].
  pose proof (authority_state_ok (ignore_slashes rest) false false [] [] []
                (Forall_nil _) (Forall_nil _)) as (Huser & Hpass & _).
  set (a := authority_state (ignore_slashes rest) false false [] [] []) in *.
  destruct (atSignSeen a && negb (truthy (auth_buffer a))); [discriminate|].
  destruct (host_state U sch (auth_buffer a)) as [[h p]|] eqn:Ehost;
    [|discriminate].
  destruct (host_state_ok U sch _ h p HU Ehost) as [Hh Hp].
  pose proof (path_start_state_ok (auth_rest a)) as (Hpath & Hne & _).
  destruct (path_start_state (auth_rest a)) as [segments rest'].
  pose proof (query_fragment_ok rest') as (Hq & Hf).
  destruct (query_fragment rest') as [q f].
  intros [= <-]. constructor; cbn; try assumption.
  apply orb_true_iff in Esch. destruct Esch as [E|E]; apply eqb_eq in E; auto.
Qed.

Definition credentials_text (u : URLRecord) : jsstring :=
  if truthy (username u) || truthy (password u)
  then username u
       ++ (if truthy (password u) then lit ":" ++ password u else [])
       ++ lit "@"
  else [].

Lemma href_parts (u : URLRecord) :
  href u
  = scheme u ++ lit ":" ++ lit "//"
    ++ credentials_text u
    ++ host_serializer (host u) ++ port_text (port u)
    ++ path_serializer (path u)
    ++ query_text (query u) ++ fragment_text (fragment u).
Proof. reflexivity. Qed.

Lemma authority_in_userinfo (c : N) :
  userinfo_set c = false -> authority_set c = false.
Proof.
  intros H. destruct (authority_set c) eqn:E; [|reflexivity].
  unfold authority_set, authority_end, mem in E. cbn [existsb] in E.
  repeat (apply orb_true_iff in E; destruct E as [E|E]);
    try discriminate; apply N.eqb_eq in E; subst c; discriminate.
Qed.

Lemma authority_in_host (c : N) :
  host_set c = false -> authority_set c = false.
Proof.
  intros H. destruct (authority_set c) eqn:E; [|reflexivity].
  unfold authority_set, authority_end, mem in E. cbn [existsb] in E.
  repeat (apply orb_true_iff in E; destruct E as [E|E]);
    try discriminate; apply N.eqb_eq in E; subst c; discriminate.
Qed.

Lemma outside_weaken (set set' : N -> bool) (s : jsstring) :
  (forall c, set c = false -> set' c = false) ->
  outside set s -> outside set' s.
Proof. intros H. apply Forall_impl. exact H. Qed.

Lemma digits_outside_authority (s : jsstring) :
  forallb is_digit s = true -> outside authority_set s.
Proof.
  intros H. apply Forall_forall. intros c Hc.
  rewrite forallb_forall in H. specialize (H c Hc).
  assert (Hd : digit_or_dot c = true) by (unfold digit_or_dot; rewrite H; reflexivity).
  apply negb_true_iff.
  apply (digit_or_dot_cases (fun c => negb (authority_set c)) eq_refl c Hd).
Qed.

Lemma port_text_outside (p : option N) : outside authority_set (port_text p).
Proof.
  destruct p as [p|]; [|constructor].
  change (port_text (Some p)) with (58%N :: decimal p).
  constructor; [reflexivity|].
  apply digits_outside_authority. apply decimal_spec.
Qed.

Lemma ignore_slashes_plain (set : N -> bool) (x y : jsstring) :
  set 47%N = true -> outside set x -> x <> [] ->
  ignore_slashes (x ++ y) = x ++ y.
Proof.
  intros H47 Hx Hne. destruct x as [|c x]; [contradiction|].
  inversion Hx as [|? ? Hc _]; subst. cbn [app ignore_slashes].
  rewrite (set_false_neq set c 47 Hc H47). reflexivity.
Qed.

(** The text before the [@], when there is one. *)
Definition userinfo_text (u : URLRecord) : jsstring :=
  username u ++ (if truthy (password u) then lit ":" ++ password u else []).

Lemma userinfo_text_outside (U : list N -> option jsstring) (u : URLRecord) :
  well_formed U u -> outside authority_set (userinfo_text u).
Proof.
  intros Hwf. unfold userinfo_text. apply outside_app.
  - apply (outside_weaken userinfo_set); [exact authority_in_userinfo|].
    apply (wf_username _ _ Hwf).
  - destruct (truthy (password u)); [|constructor].
    change (lit ":" ++ password u) with (58%N :: password u).
    constructor; [reflexivity|].
    apply (outside_weaken userinfo_set); [exact authority_in_userinfo|].
    apply (wf_password _ _ Hwf).
Qed.

Lemma credentials_userinfo (U : list N -> option jsstring) (u : URLRecord) :
  well_formed U u ->
  exists tokenSeen,
    credentials (userinfo_text u) false [] [] = (tokenSeen, username u, password u).
Proof.
  intros Hwf. unfold userinfo_text. rewrite credentials_app.
  rewrite (credentials_plain _ false [] [] (wf_username _ _ Hwf)). cbn [app].
  cbv beta iota.
  destruct (truthy (password u)) eqn:E.
  - exists true. change (lit ":" ++ password u) with (58%N :: password u).
    cbn [credentials]. change ((58 =? 58)%N && negb false) with true. cbv iota.
    rewrite (credentials_plain _ true _ [] (wf_password _ _ Hwf)). reflexivity.
  - exists false. destruct (password u); [reflexivity|discriminate].
Qed.

Lemma path_serializer_starts (segments : list jsstring) (rest : jsstring) :
  segments <> [] ->
  match path_serializer segments ++ rest with
  | [] => True
  | c :: _ => authority_end c = true
  end.
Proof.
  destruct segments as [|s more]; [contradiction|]. intros _. reflexivity.
Qed.

(** Authority state reads a serialized authority back. *)
Lemma authority_state_serialized (U : list N -> option jsstring) (u : URLRecord)
    (rest : jsstring) :
  well_formed U u ->
  match rest with [] => True | c :: _ => authority_end c = true end ->
  let text := credentials_text u
              ++ host_serializer (host u) ++ port_text (port u) ++ rest in
  ignore_slashes (lit "//" ++ text) = text
  /\ exists seen,
       authority_state text false false [] [] []
       = {| atSignSeen := seen; auth_username := username u;
            auth_password := password u;
            auth_buffer := host_serializer (host u) ++ port_text (port u);
            auth_rest := rest |}.
Proof.
  intros Hwf Hrest text'.
  set (text := credentials_text u
               ++ host_serializer (host u) ++ port_text (port u)).
  replace text' with (text ++ rest)
    by (unfold text, text'; rewrite <- !app_assoc; reflexivity).
  clear text'.
  destruct (wf_host _ _ Hwf) as (_ & Hhost & Hne).
  assert (Hhp : outside authority_set
                  (host_serializer (host u) ++ port_text (port u))).
  { apply outside_app; [|apply port_text_outside].
    apply (outside_weaken host_set); [exact authority_in_host|exact Hhost]. }
  change (lit "//" ++ text ++ rest) with (47%N :: 47%N :: text ++ rest).
  cbn [ignore_slashes]. change (47 =? 47)%N with true. cbv iota.
  unfold text, credentials_text.
  destruct (truthy (username u) || truthy (password u)) eqn:Ecred.
  - fold (userinfo_text u).
    replace ((username u
              ++ (if truthy (password u) then lit ":" ++ password u else [])
              ++ lit "@")
             ++ host_serializer (host u) ++ port_text (port u))
      with (userinfo_text u
            ++ 64%N :: host_serializer (host u) ++ port_text (port u)).
    2:{ unfold userinfo_text. rewrite <- !app_assoc. reflexivity. }
    rewrite <- !app_assoc. split.
    + apply (ignore_slashes_plain authority_set);
        [reflexivity|apply (userinfo_text_outside U); exact Hwf|].
      unfold userinfo_text. intros E. apply app_eq_nil in E.
      destruct E as [E1 E2]. rewrite E1 in Ecred. cbn [truthy orb] in Ecred.
      rewrite Ecred in E2. discriminate.
    + rewrite authority_state_plain by (apply (userinfo_text_outside U); exact Hwf).
      cbn [app authority_state]. change (64 =? 64)%N with true. cbv iota.
      destruct (credentials_userinfo U u Hwf) as [tokenSeen ->].
      rewrite authority_state_plain by exact Hhp. cbn [app].
      rewrite authority_state_end by exact Hrest.
      exists true. reflexivity.
  - apply orb_false_iff in Ecred. destruct Ecred as [Eu Ep].
    destruct (username u) eqn:Eu'; [|discriminate].
    destruct (password u) eqn:Ep'; [|discriminate].
    cbn [app]. rewrite <- app_assoc. split.
    + apply (ignore_slashes_plain host_set); [reflexivity|exact Hhost|exact Hne].
    + rewrite app_assoc.
      rewrite authority_state_plain by exact Hhp. cbn [app].
      rewrite authority_state_end by exact Hrest.
      exists false. reflexivity.
Qed.

Lemma scheme_start_state_serialized (sch rest : jsstring) :
  sch = lit "http" \/ sch = lit "https" ->
  scheme_start_state (sch ++ lit ":" ++ rest) = Some (sch, rest).
Proof. intros [->| ->]; reflexivity. Qed.

(** The parser reads a serialized URL record back as that record. *)
Lemma URL_new_href (U : list N -> option jsstring) (u : URLRecord) :
  well_formed U u -> URL_new U (href u) = Some u.
Proof.
  intros Hwf. rewrite href_parts. unfold URL_new.
  rewrite (scheme_start_state_serialized _ _ (wf_scheme _ _ Hwf)).
  assert (Esch : eqb (scheme u) (lit "http") || eqb (scheme u) (lit "https") = true).
  { destruct (wf_scheme _ _ Hwf) as [-> | ->]; reflexivity. }
  rewrite Esch.
  set (rest := path_serializer (path u)
               ++ query_text (query u) ++ fragment_text (fragment u)).
  assert (Hrest : match rest with [] => True | c :: _ => authority_end c = true end)
    by apply (path_serializer_starts _ _ (wf_segments _ _ Hwf)).
  destruct (authority_state_serialized U u rest Hwf Hrest) as (Hslashes & seen & Hauth).
  rewrite Hslashes, Hauth.
  cbn [atSignSeen auth_buffer auth_rest auth_username auth_password].
  destruct (wf_host _ _ Hwf) as (_ & _ & Hne).
  replace (truthy (host_serializer (host u) ++ port_text (port u))) with true
    by (destruct (host_serializer (host u)); [contradiction|reflexivity]).
  rewrite andb_false_r.
  rewrite (host_state_serialized U _ _ _ (wf_host _ _ Hwf) (wf_port _ _ Hwf)).
  unfold rest.
  rewrite (path_start_state_serialized _ _ (wf_path _ _ Hwf)
             (wf_segments _ _ Hwf) (path_end_query_fragment _ _)).
  rewrite (query_fragment_serialized _ _ (wf_query _ _ Hwf) (wf_fragment _ _ Hwf)).
  destruct u. reflexivity.
Qed.

(** *** No white space around a serialized URL *)

Lemma trimStart_visible (c : N) (s : jsstring) :
  is_space c = false -> trimStart (c :: s) = c :: s.
Proof. intros H. cbn [trimStart]. rewrite H. reflexivity. Qed.

Lemma trim_solid (s : jsstring) (a z : N) (front back : jsstring) :
  s = a :: back -> s = front ++ [z] ->
  is_space a = false -> is_space z = false -> trim s = s.
Proof.
  intros Ea Ez Ha Hz. unfold trim, trimEnd.
  rewrite Ea, (trimStart_visible a back Ha), <- Ea, Ez.
  rewrite rev_app_distr. cbn [rev app].
  rewrite (trimStart_visible z _ Hz).
  cbn [rev]. rewrite rev_involutive. reflexivity.
Qed.

Lemma segment_visible (c : N) : segment_set c = false -> visible c = true.
Proof.
  intros H. apply outside_query_visible, outside_path.
  unfold segment_set in H. apply orb_false_iff in H. tauto.
Qed.

(** From the path on, a serialized URL is made of visible code points
    and is not empty. *)
Lemma href_tail_visible (U : list N -> option jsstring) (u : URLRecord) :
  well_formed U u ->
  let tail := path_serializer (path u)
              ++ query_text (query u) ++ fragment_text (fragment u) in
  Forall (fun c => visible c = true) tail /\ tail <> [].
Proof.
  intros Hwf tail. split.
  - unfold tail. apply Forall_app; split; [|apply Forall_app; split].
    + pose proof (wf_path _ _ Hwf) as Hp.
      induction Hp as [|segment more (Hs & _) _ IH]; [constructor|].
      unfold path_serializer. cbn [flat_map]. constructor; [reflexivity|].
      apply Forall_app. split; [|exact IH].
      revert Hs. apply Forall_impl. exact segment_visible.
    + pose proof (wf_query _ _ Hwf) as Hq. destruct (query u) as [q|]; [|constructor].
      change (query_text (Some q)) with (63%N :: q).
      constructor; [reflexivity|]. revert Hq. apply Forall_impl.
      intros c Hc. apply outside_query_visible, outside_special_query, Hc.
    + pose proof (wf_fragment _ _ Hwf) as Hf.
      destruct (fragment u) as [f|]; [|constructor].
      change (fragment_text (Some f)) with (35%N :: f).
      constructor; [reflexivity|]. revert Hf. apply Forall_impl.
      exact outside_fragment_visible.
  - unfold tail. pose proof (wf_segments _ _ Hwf) as Hne.
    destruct (path u); [contradiction|discriminate].
Qed.

Lemma trim_href (U : list N -> option jsstring) (u : URLRecord) :
  well_formed U u -> trim (href u) = href u.
Proof.
  intros Hwf. destruct (href_tail_visible U u Hwf) as [Hvisible Hne].
  rewrite href_parts.
  set (tail := path_serializer (path u)
               ++ query_text (query u) ++ fragment_text (fragment u)) in *.
  destruct (exists_last Hne) as (front & z & Etail).
  assert (Hz : is_space z = false).
  { apply visible_not_space. rewrite Forall_forall in Hvisible.
    apply Hvisible. rewrite Etail. apply in_or_app. right. left. reflexivity. }
  clearbody tail.
  set (middle := credentials_text u).
  set (hp1 := host_serializer (host u)). set (hp2 := port_text (port u)).
  destruct (wf_scheme _ _ Hwf) as [-> | ->].
  - apply (trim_solid _ 104%N z
             (lit "http" ++ lit ":" ++ lit "//" ++ middle ++ hp1 ++ hp2 ++ front)
             (lit "ttp" ++ lit ":" ++ lit "//" ++ middle ++ hp1 ++ hp2 ++ tail));
      [reflexivity| |reflexivity|exact Hz].
    rewrite Etail, <- !app_assoc. reflexivity.
  - apply (trim_solid _ 104%N z
             (lit "https" ++ lit ":" ++ lit "//" ++ middle ++ hp1 ++ hp2 ++ front)
             (lit "ttps" ++ lit ":" ++ lit "//" ++ middle ++ hp1 ++ hp2 ++ tail));
      [reflexivity| |reflexivity|exact Hz].
    rewrite Etail, <- !app_assoc. reflexivity.
Qed.

(** ** Validating a normalized URL again *)

Lemma withProtocol_href (U : list N -> option jsstring) (u : URLRecord) :
  well_formed U u -> URLValidator.withProtocol (href u) = href u.
Proof.
  intros Hwf. unfold URLValidator.withProtocol.
  pose proof (href_starts u) as Hs.
  destruct (wf_scheme _ _ Hwf) as [E|E]; rewrite E in Hs;
    change (lit "http" ++ lit "://") with (lit "http://") in Hs;
    change (lit "https" ++ lit "://") with (lit "https://") in Hs;
    rewrite Hs; cbn [negb andb]; [reflexivity|].
  rewrite andb_false_r. reflexivity.
Qed.

Lemma protocol_allowed (U : list N -> option jsstring) (u : URLRecord) :
  well_formed U u ->
  existsb (eqb (protocol u)) [lit "http:"; lit "https:"] = true.
Proof.
  intros Hwf. unfold protocol.
  destruct (wf_scheme _ _ Hwf) as [-> | ->]; reflexivity.
Qed.

(** What [validate] returns on a URL it has normalized itself. *)
Definition revalidated (n : jsstring) : ValidationResult :=
  if test URL_PATTERNS.URL_REGEX n then
    if URLValidator.containsUnsafePatterns n
    then URLValidator.rejected "URL contains potentially unsafe content"
    else URLValidator.accepted n
  else URLValidator.rejected "Please enter a valid URL".

Lemma validate_href (U : list N -> option jsstring) (u : URLRecord) :
  well_formed U u ->
  URLValidator.validate U (href u) = revalidated (href u).
Proof.
  intros Hwf. unfold URLValidator.validate, revalidated.
  rewrite (trim_href _ _ Hwf), href_truthy, (withProtocol_href _ _ Hwf).
  cbn [negb].
  destruct (test URL_PATTERNS.URL_REGEX (href u)); cbn [negb]; [|reflexivity].
  rewrite (URL_new_href _ _ Hwf), (protocol_allowed _ _ Hwf). cbn [negb].
  reflexivity.
Qed.

(** X1. When [validate] accepts an input, validating the normalized URL
    it returned gives that same normalized URL again, unless the
    normalized text fails the shape check [URL_REGEX] or holds a
    denylisted snippet, in which case it is rejected with that error.
    (The platform's Unicode domain processing is taken to be stable on
    its own results.) *)
Theorem validate_normalized_again
    (Unicode_ToASCII : list N -> option jsstring) (url n : jsstring) :
  stable Unicode_ToASCII ->
  URLValidator.validate Unicode_ToASCII url = URLValidator.accepted n ->
  URLValidator.validate Unicode_ToASCII n = revalidated n.
Proof.
  intros HU Hurl.
  destruct (validate_cases Unicode_ToASCII url)
    as [[msg E]|(u & _ & _ & Hnew & _ & E)].
  { rewrite E in Hurl. discriminate. }
  rewrite E in Hurl. injection Hurl as <-. unfold toString.
  apply validate_href, (URL_new_well_formed _ _ _ HU Hnew).
Qed.

Lemma no_Unicode_stable : stable (fun _ => None).
Proof. intros bytes d H. discriminate. Qed.

Lemma validate_normalized_again_witness :
  stable (fun _ => None)
  /\ URLValidator.validate (fun _ => None) (lit " Example.COM/a/../b?q=1#top ")
     = URLValidator.accepted (lit "https://example.com/b?q=1#top")
  /\ URLValidator.validate (fun _ => None) (lit "https://example.com/b?q=1#top")
     = revalidated (lit "https://example.com/b?q=1#top").
Proof.
  split; [exact no_Unicode_stable|]. split; [vm_compute; reflexivity|].
  apply (validate_normalized_again (fun _ => None)
           (lit " Example.COM/a/../b?q=1#top ")).
  - exact no_Unicode_stable.
  - vm_compute. reflexivity.
Defined.

(** *** [trim] twice *)

Definition no_lead (s : jsstring) : Prop :=
  match s with c :: _ => is_space c = false | [] => True end.

Lemma trimStart_no_lead (s : jsstring) : no_lead (trimStart s).
Proof.
  induction s as [|c s IH]; [exact I|]. cbn [trimStart].
  destruct (is_space c) eqn:E; [exact IH|exact E].
Qed.

Lemma trimStart_id (s : jsstring) : no_lead s -> trimStart s = s.
Proof. destruct s as [|c s]; [reflexivity|]. cbn. intros ->. reflexivity. Qed.

Lemma trimEnd_no_lead (s : jsstring) : no_lead s -> no_lead (trimEnd s).
Proof.
  destruct s as [|c s]; [intros _; exact I|]. cbn [no_lead]. intros Hc.
  unfold trimEnd. cbn [rev].
  destruct (trimStart_keeps (rev s) c [] Hc) as [pre' ->].
  rewrite rev_app_distr. exact Hc.
Qed.

Lemma trimEnd_trimEnd (s : jsstring) : trimEnd (trimEnd s) = trimEnd s.
Proof.
  unfold trimEnd. rewrite rev_involutive.
  rewrite (trimStart_id _ (trimStart_no_lead _)). reflexivity.
Qed.

Lemma trim_trim (s : jsstring) : trim (trim s) = trim s.
Proof.
  unfold trim.
  rewrite (trimStart_id (trimEnd (trimStart s))).
  - apply trimEnd_trimEnd.
  - apply trimEnd_no_lead, trimStart_no_lead.
Qed.

Lemma trimStart_spaces (pre s : jsstring) :
  forallb is_space pre = true -> trimStart (pre ++ s) = trimStart s.
Proof.
  induction pre as [|c pre IH]; [reflexivity|]. cbn [forallb app trimStart].
  intros H. apply andb_true_iff in H. destruct H as [-> H]. apply IH, H.
Qed.

Lemma forallb_rev (P : N -> bool) (s : jsstring) :
  forallb P s = true -> forallb P (rev s) = true.
Proof.
  rewrite !forallb_forall. intros H x Hx. apply H, in_rev, Hx.
Qed.

Lemma trimEnd_spaces (s post : jsstring) :
  forallb is_space post = true -> trimEnd (s ++ post) = trimEnd s.
Proof.
  intros H. unfold trimEnd. rewrite rev_app_distr.
  rewrite (trimStart_spaces _ _ (forallb_rev _ _ H)). reflexivity.
Qed.

Lemma trim_padding (pre s post : jsstring) :
  forallb is_space pre = true -> forallb is_space post = true ->
  trim (pre ++ s ++ post) = trim s.
Proof.
  intros Hpre Hpost. unfold trim. rewrite (trimStart_spaces _ _ Hpre).
  induction s as [|c s IH].
  - cbn [app]. rewrite <- (app_nil_r post), (trimStart_spaces _ _ Hpost).
    reflexivity.
  - cbn [app trimStart]. destruct (is_space c); [exact IH|].
    apply (trimEnd_spaces (c :: s) post Hpost).
Qed.

(** X2. White space around the input does not matter to [validate]:
    the input padded with white space on either side gets the result
    of the input itself. *)
Theorem validate_ignores_padding
    (Unicode_ToASCII : list N -> option jsstring) (pre url post : jsstring) :
  forallb is_space pre = true -> forallb is_space post = true ->
  URLValidator.validate Unicode_ToASCII (pre ++ url ++ post)
  = URLValidator.validate Unicode_ToASCII url.
Proof.
  intros Hpre Hpost. unfold URLValidator.validate.
  rewrite (trim_padding _ _ _ Hpre Hpost). reflexivity.
Qed.

Lemma validate_ignores_padding_witness :
  forallb is_space (lit "  ") = true
  /\ forallb is_space [9%N; 10%N; 160%N] = true
  /\ URLValidator.validate (fun _ => None)
       (lit "  " ++ lit "codepen.io/x" ++ [9%N; 10%N; 160%N])
     = URLValidator.validate (fun _ => None) (lit "codepen.io/x").
Proof.
  split; [reflexivity|]. split; [reflexivity|].
  apply (validate_ignores_padding (fun _ => None)); reflexivity.
Defined.

(** ** What a match consumes *)

Section Consumes.

Variable P : N -> bool.
Variable ic : bool.

(** Every code unit the pattern can consume satisfies [P]. *)
Fixpoint consumes_only (r : regex) : Prop :=
  match r with
  | Eps | Bol | Eol | WordB | NegLook _ => True
  | Chr c => forall x, (canon ic c =? canon ic x)%N = true -> P x = true
  | Cls invert items =>
      forall x, xorb invert (existsb (item_match ic x) items) = true -> P x = true
  | Seq r1 r2 => consumes_only r1 /\ consumes_only r2
  | Rep _ _ r1 | Star r1 => consumes_only r1
  end.

Definition consuming (m : matcher) : Prop :=
  forall prev s k z,
    m prev s k = Some z ->
    exists s1 s2 p', s = s1 ++ s2 /\ forallb P s1 = true /\ k p' s2 = Some z.

Lemma repeat_matcher_consuming (m : matcher) :
  consuming m -> forall max min, consuming (repeat_matcher m min max).
Proof.
  intros Hm. induction max as [|max IH]; intros min prev s k z H.
  - exists [], s, prev. auto.
  - cbn [repeat_matcher] in H.
    assert (Hiter : forall (b : bool) z',
               m prev s (fun p' s' =>
                  if b && (length s' =? length s)%nat then None
                  else repeat_matcher m (pred min) max p' s' k) = Some z' ->
               exists s1 s2 p', s = s1 ++ s2 /\ forallb P s1 = true
                                /\ k p' s2 = Some z').
    { intros b z' H'. apply Hm in H'. destruct H' as (a & t & p1 & -> & Ha & H').
      destruct (b && _); [discriminate|].
      apply IH in H'. destruct H' as (c & d & p2 & -> & Hc & H').
      exists (a ++ c), d, p2. rewrite app_assoc, forallb_app, Ha, Hc. auto. }
    destruct (min =? 0)%nat.
    + destruct (m prev s _) as [z'|] eqn:E.
      * injection H as <-. apply (Hiter true). exact E.
      * exists [], s, prev. auto.
    + apply (Hiter false). exact H.
Qed.

Lemma rmatch_consuming (r : regex) : consumes_only r -> consuming (rmatch ic r).
Proof.
  induction r as [|c|invert items|r1 IH1 r2 IH2|min max r1 IH|r1 IH| | | |r1 IH];
    intros Hr prev s k z H; cbn [rmatch consumes_only] in *.
  - exists [], s, prev. auto.
  - destruct s as [|x t]; [discriminate|].
    destruct (canon ic c =? canon ic x)%N eqn:E; [|discriminate].
    exists [x], t, (Some x). cbn. rewrite (Hr x E). auto.
  - destruct s as [|x t]; [discriminate|].
    destruct (xorb invert _) eqn:E; [|discriminate].
    exists [x], t, (Some x). cbn. rewrite (Hr x E). auto.
  - destruct Hr as [H1 H2].
    apply (IH1 H1) in H. destruct H as (a & b & p1 & -> & Ha & H).
    apply (IH2 H2) in H. destruct H as (c & d & p2 & -> & Hc & H).
    exists (a ++ c), d, p2. rewrite app_assoc, forallb_app, Ha, Hc. auto.
  - apply (repeat_matcher_consuming _ (IH Hr)) in H. exact H.
  - apply (repeat_matcher_consuming _ (IH Hr)) in H. exact H.
  - destruct prev; [discriminate|]. exists [], s, None. auto.
  - destruct s; [|discriminate]. exists [], [], prev. auto.
  - destruct (xorb _ _); [|discriminate]. exists [], s, prev. auto.
  - destruct (rmatch ic r1 prev s _); [discriminate|]. exists [], s, prev. auto.
Qed.

(** A pattern that ends in [$]: what it matches runs to the end. *)
Inductive to_the_end : regex -> Prop :=
| end_Eol : to_the_end Eol
| end_Seq (r1 r2 : regex) :
    consumes_only r1 -> to_the_end r2 -> to_the_end (Seq r1 r2).

Lemma rmatch_to_the_end (r : regex) :
  to_the_end r ->
  forall prev s k z, rmatch ic r prev s k = Some z -> forallb P s = true.
Proof.
  induction 1 as [|r1 r2 H1 H2 IH]; intros prev s k z H; cbn [rmatch] in H.
  - destruct s; [reflexivity|discriminate].
  - apply (rmatch_consuming r1 H1) in H.
    destruct H as (a & b & p1 & -> & Ha & H).
    rewrite forallb_app, Ha. apply (IH _ _ _ _ H).
Qed.

End Consumes.

(** ** The shape check of [validate] *)

(** The code units of the last class of [URL_REGEX]:
    [-a-zA-Z0-9()@:%_+.~#?&/=]. *)
Definition url_code_unit (c : N) : bool :=
  is_alnum c || mem c (lit "-()@:%_+.~#?&/=").

Lemma in_range_chr_cases (P : N -> bool) (k : nat) :
  forallb P (map N.of_nat (seq 0 k)) = true ->
  forall lo hi c, (hi < N.of_nat k)%N -> in_range lo hi c = true -> P c = true.
Proof.
  intros H lo hi c Hhi Hc. apply (forall_below k P H).
  unfold in_range in Hc. apply andb_true_iff in Hc. destruct Hc as [_ Hc].
  apply N.leb_le in Hc. lia.
Qed.

Lemma class_in_alphabet (items : list class_item) :
  forallb (fun it =>
             forallb (fun c => negb (item_match false c it) || url_code_unit c)
                     (map N.of_nat (seq 0 128))
             && match it with
                | CChar c => (c <? 128)%N
                | CRange _ hi => (hi <? 128)%N
                | CSpace => false
                end) items = true ->
  forall x, xorb false (existsb (item_match false x) items) = true ->
            url_code_unit x = true.
Proof.
  intros H x Hx. rewrite xorb_false_l in Hx.
  apply existsb_exists in Hx. destruct Hx as (it & Hin & Hm).
  rewrite forallb_forall in H. specialize (H it Hin).
  apply andb_true_iff in H. destruct H as [Hall Hbound].
  assert (Hlt : (x < N.of_nat 128)%N).
  { destruct it as [c|lo hi|]; [| |discriminate]; cbn in Hm.
    - apply N.eqb_eq in Hm. apply N.ltb_lt in Hbound. unfold canon in Hm. lia.
    - unfold in_range in Hm. apply andb_true_iff in Hm. destruct Hm as [_ Hm].
      apply N.leb_le in Hm. apply N.ltb_lt in Hbound. lia. }
  pose proof (forall_below 128 _ Hall x Hlt) as Hx. cbv beta in Hx.
  rewrite Hm in Hx. exact Hx.
Qed.

Lemma chr_in_alphabet (c : N) :
  url_code_unit c = true ->
  forall x, (canon false c =? canon false x)%N = true -> url_code_unit x = true.
Proof. intros Hc x Hx. apply N.eqb_eq in Hx. cbn in Hx. subst x. exact Hc. Qed.

Lemma str_in_alphabet (s : jsstring) :
  forallb url_code_unit s = true -> consumes_only url_code_unit false (str s).
Proof.
  induction s as [|c s IH]; [intros _; exact I|]. cbn [forallb].
  intros H. apply andb_true_iff in H. destruct H as [Hc H].
  split; [exact (chr_in_alphabet c Hc)|apply IH; exact H].
Qed.

Lemma URL_REGEX_to_the_end :
  exists body,
    pattern URL_PATTERNS.URL_REGEX = Seq Bol body
    /\ to_the_end url_code_unit false body.
Proof.
  eexists. split; [reflexivity|].
  repeat (apply end_Seq || apply end_Eol);
    try exact I;
    try (refine (str_in_alphabet _ _); reflexivity);
    try (refine (chr_in_alphabet _ _); reflexivity);
    cbn [consumes_only Opt];
    try (refine (chr_in_alphabet _ _); reflexivity);
    try (refine (str_in_alphabet _ _); reflexivity);
    try (refine (class_in_alphabet _ _); vm_compute; reflexivity).
Qed.

Lemma test_from_anchored (re : RegExp) (body : regex) (c : N) (t : jsstring) :
  pattern re = Seq Bol body -> test_from re (Some c) t = false.
Proof.
  intros E. revert c. induction t as [|x t IH]; intros c;
    cbn [test_from]; unfold match_here; rewrite E; cbn [rmatch].
  - reflexivity.
  - apply IH.
Qed.

Lemma test_anchored (re : RegExp) (body : regex) (s : jsstring) :
  pattern re = Seq Bol body ->
  test re s = true ->
  exists z, rmatch (ignoreCase re) body None s (fun p' s' => Some (p', s')) = Some z.
Proof.
  intros E H. unfold test in H. destruct s as [|c t]; cbn [test_from] in H;
    unfold match_here in H; rewrite E in H; cbn [rmatch] in H.
  - destruct (rmatch _ body None [] _) as [z|]; [exists z; reflexivity|discriminate].
  - destruct (rmatch _ body None (c :: t) _) as [z|]; [exists z; reflexivity|].
    rewrite (test_from_anchored re body c t E) in H. discriminate.
Qed.

(** Text that passes [URL_REGEX] is made of the code units of its last
    class alone. *)
Lemma URL_REGEX_alphabet (s : jsstring) :
  test URL_PATTERNS.URL_REGEX s = true -> forallb url_code_unit s = true.
Proof.
  intros H. destruct URL_REGEX_to_the_end as (body & E & Hend).
  destruct (test_anchored _ body s E H) as [z Hz].
  apply (rmatch_to_the_end url_code_unit false body Hend _ _ _ _ Hz).
Qed.

Lemma rmatch_str_exact (l : jsstring) (prev : option N) (s : jsstring)
    (k : cont) (z : state) :
  rmatch false (str l) prev s k = Some z ->
  exists t p', s = l ++ t /\ k p' t = Some z.
Proof.
  revert prev s. induction l as [|c l IH]; intros prev s H.
  - exists s, prev. auto.
  - cbn [str fold_right rmatch] in H. fold (str l) in H.
    destruct s as [|x t]; [discriminate|].
    destruct (canon false c =? canon false x)%N eqn:E; [|discriminate].
    apply N.eqb_eq in E. cbn in E. subst x.
    apply IH in H. destruct H as (t' & p' & -> & H). exists t', p'. auto.
Qed.

Lemma URL_REGEX_head :
  exists tail,
    pattern URL_PATTERNS.URL_REGEX
    = Seq Bol (Seq (str (lit "http"))
                   (Seq (Opt (Chr 115%N)) (Seq (str (lit "://")) tail))).
Proof. eexists. reflexivity. Qed.

(** Text that passes [URL_REGEX] begins with one of the two protocols. *)
Lemma URL_REGEX_protocol (s : jsstring) :
  test URL_PATTERNS.URL_REGEX s = true ->
  startsWith (lit "http://") s || startsWith (lit "https://") s = true.
Proof.
  intros H. destruct URL_REGEX_head as [tail E].
  destruct (test_anchored URL_PATTERNS.URL_REGEX _ s E H) as [z Hz].
  change (ignoreCase URL_PATTERNS.URL_REGEX) with false in Hz.
  cbn [rmatch] in Hz.
  apply rmatch_str_exact in Hz. destruct Hz as (t & p & -> & Hz).
  unfold Opt in Hz. cbn [rmatch repeat_matcher Nat.eqb andb pred] in Hz.
  assert (Hhttp : forall p' t' z',
             rmatch false (str (lit "://")) p' t'
               (fun p2 s2 => rmatch false tail p2 s2
                               (fun p3 s3 => Some (p3, s3))) = Some z' ->
             exists t2, t' = lit "://" ++ t2).
  { intros p' t' z' H'. apply rmatch_str_exact in H'.
    destruct H' as (t2 & _ & -> & _). exists t2. reflexivity. }
  destruct t as [|x t'].
  - destruct (Hhttp _ _ _ Hz) as [t2 E2]. discriminate.
  - destruct (canon false 115 =? canon false x)%N eqn:Ex.
    + apply N.eqb_eq in Ex. cbn in Ex. subst x.
      replace (length t' =? length (115%N :: t'))%nat with false in Hz
        by (symmetry; apply Nat.eqb_neq; cbn [length]; lia).
      cbv iota in Hz.
      match type of Hz with
      | match ?m with _ => _ end = _ => destruct m as [z1|] eqn:E1
      end.
      * destruct (Hhttp _ _ _ E1) as [t2 ->].
        apply orb_true_iff. right.
        apply (startsWith_app (lit "https://") t2).
      * destruct (Hhttp _ _ _ Hz) as [t2 E2]. rewrite E2.
        apply orb_true_iff. left.
        apply (startsWith_app (lit "http://") t2).
    + destruct (Hhttp _ _ _ Hz) as [t2 E2]. rewrite E2.
      apply orb_true_iff. left.
      apply (startsWith_app (lit "http://") t2).
Qed.

Lemma forallb_suffix (P : N -> bool) (a b : jsstring) :
  forallb P (a ++ b) = true -> forallb P b = true.
Proof. rewrite forallb_app. intros H. apply andb_true_iff in H. tauto. Qed.

(** X3. [validate] accepts an input only if, once trimmed, it is made
    of the code units [-a-zA-Z0-9()@:%_+.~#?&/=] alone: an input with
    a space inside, a quote, an angle bracket or a code unit outside
    ASCII is rejected. *)
Theorem validate_accepts_only_url_code_units
    (Unicode_ToASCII : list N -> option jsstring) (url : jsstring) :
  isValid (URLValidator.validate Unicode_ToASCII url) = true ->
  forallb url_code_unit (trim url) = true.
Proof.
  intros Hvalid.
  destruct (validate_cases Unicode_ToASCII url)
    as [[msg E]|(u & _ & Htest & _)].
  { rewrite E in Hvalid. discriminate. }
  apply URL_REGEX_alphabet in Htest. revert Htest.
  unfold URLValidator.withProtocol.
  destruct (negb _ && negb _); [apply forallb_suffix|tauto].
Qed.

Lemma validate_accepts_only_url_code_units_witness :
  isValid (URLValidator.validate (fun _ => None) (lit " codepen.io/x?a=b#c ")) = true
  /\ forallb url_code_unit (trim (lit " codepen.io/x?a=b#c ")) = true.
Proof.
  split; [vm_compute; reflexivity|].
  apply (validate_accepts_only_url_code_units (fun _ => None)).
  vm_compute. reflexivity.
Defined.

(** X4. [validate] hands the URL parser nothing but text that begins
    with ["http://"] or ["https://"] and is made of the code units of
    [URL_REGEX]: the check of the protocol after parsing has nothing
    left to reject. *)
Theorem URL_REGEX_admits (s : jsstring) :
  test URL_PATTERNS.URL_REGEX s = true ->
  startsWith (lit "http://") s || startsWith (lit "https://") s = true
  /\ forallb url_code_unit s = true.
Proof.
  intros H. split; [apply URL_REGEX_protocol|apply URL_REGEX_alphabet]; exact H.
Qed.

Lemma URL_REGEX_admits_witness :
  test URL_PATTERNS.URL_REGEX (lit "https://www.example.com/a?b=c#d") = true
  /\ startsWith (lit "http://") (lit "https://www.example.com/a?b=c#d")
     || startsWith (lit "https://") (lit "https://www.example.com/a?b=c#d") = true
  /\ forallb url_code_unit (lit "https://www.example.com/a?b=c#d") = true.
Proof.
  split; [vm_compute; reflexivity|].
  apply (URL_REGEX_admits (lit "https://www.example.com/a?b=c#d")).
  vm_compute. reflexivity.
Defined.

(** Two inputs [validate] accepts whose normalized URLs it rejects: the
    path separator the parser adds moves the dot out of the reach of
    [URL_REGEX]; the percent-decoded host spells a denylisted snippet. *)
Example validate_rejects_its_own_output :
  (forall U, URLValidator.validate U (lit "http://localhost#a.b")
             = URLValidator.accepted (lit "http://localhost/#a.b"))
  /\ (forall U, URLValidator.validate U (lit "http://localhost/#a.b")
                = URLValidator.rejected "Please enter a valid URL")
  /\ (forall U, URLValidator.validate U (lit "http://onclic%6B.com")
                = URLValidator.accepted (lit "http://onclick.com/"))
  /\ (forall U, URLValidator.validate U (lit "http://onclick.com/")
                = URLValidator.rejected "URL contains potentially unsafe content").
Proof. repeat split; intros U; vm_compute; reflexivity. Qed.

(** ** validate on its own normalized URL *)

(** C2. Validating the normalized URL of an accepted input gives a
    valid result exactly when that URL passes [URL_REGEX] and holds no
    denylisted snippet, and then the normalized URL of the second result
    is the one of the first; otherwise the second result has no
    normalized URL.  (The platform's Unicode domain processing is taken
    to be stable on its own results.) *)
Theorem validate_idempotent_when_accepted
    (Unicode_ToASCII : list N -> option jsstring) (url n : jsstring) :
  stable Unicode_ToASCII ->
  URLValidator.validate Unicode_ToASCII url = URLValidator.accepted n ->
  isValid (URLValidator.validate Unicode_ToASCII n)
  = test URL_PATTERNS.URL_REGEX n
    && negb (URLValidator.containsUnsafePatterns n)
  /\ normalizedUrl (URLValidator.validate Unicode_ToASCII n)
     = if isValid (URLValidator.validate Unicode_ToASCII n)
       then normalizedUrl (URLValidator.validate Unicode_ToASCII url)
       else None.
Proof.
  intros HU Hurl. rewrite Hurl.
  destruct (validate_cases Unicode_ToASCII url)
    as [[msg E]|(u & _ & _ & Hnew & _ & E)].
  { rewrite E in Hurl. discriminate. }
  rewrite E in Hurl. injection Hurl as <-. unfold toString.
  rewrite (validate_href _ _ (URL_new_well_formed _ _ _ HU Hnew)).
  unfold revalidated.
  destruct (test URL_PATTERNS.URL_REGEX (href u));
    [|split; reflexivity].
  destruct (URLValidator.containsUnsafePatterns (href u)); split; reflexivity.
Qed.

Lemma validate_idempotent_when_accepted_witness :
  isValid (URLValidator.validate (fun _ => None)
             (lit "https://example.com/b?q=1#top")) = true
  /\ normalizedUrl (URLValidator.validate (fun _ => None)
                      (lit "https://example.com/b?q=1#top"))
     = normalizedUrl (URLValidator.validate (fun _ => None)
                        (lit " Example.COM/a/../b?q=1#top ")).
Proof.
  destruct (validate_idempotent_when_accepted (fun _ => None)
              (lit " Example.COM/a/../b?q=1#top ")
              (lit "https://example.com/b?q=1#top")
              no_Unicode_stable eq_refl) as [Hvalid Hsame].
  assert (E : isValid (URLValidator.validate (fun _ => None)
                         (lit "https://example.com/b?q=1#top")) = true)
    by (rewrite Hvalid; vm_compute; reflexivity).
  split; [exact E|]. rewrite Hsame, E. reflexivity.
Defined.

(** Where C2 fails as the specification words it: [validate] accepts
    [http://localhost#a.b] with the normalized URL
    [http://localhost/#a.b], which it rejects, so that the second result
    has no normalized URL where the first has one. *)
Lemma validate_not_idempotent :
  (forall U, URLValidator.validate U (lit "http://localhost#a.b")
             = URLValidator.accepted (lit "http://localhost/#a.b"))
  /\ (forall U, normalizedUrl
                  (URLValidator.validate U (lit "http://localhost/#a.b"))
                = None)
  /\ (forall U, normalizedUrl
                  (URLValidator.validate U (lit "http://localhost#a.b"))
                = Some (lit "http://localhost/#a.b")).
Proof. repeat split; intros U; vm_compute; reflexivity. Qed.

End URLRoundTrip.

(* ===================================================================== *)
(** * Sanitisation: further properties *)
(* ===================================================================== *)

Module SanitizationProperties.

Import Sanitization.

(** ** Replacing a character class *)

Definition in_class (ic invert : bool) (items : list class_item) (x : N)
  : bool :=
  xorb invert (existsb (item_match ic x) items).

Lemma length_cons_sub (x : N) (t : jsstring) :
  (length (x :: t) - length t)%nat = 1%nat.
Proof. cbn [length]. lia. Qed.

(** With a class for pattern, [replace] looks at one code unit at a
    time. *)
Lemma replace_from_class (ic invert : bool) (items : list class_item)
    (rep : jsstring) (prev : option N) (s : jsstring) :
  replace_from {| pattern := Cls invert items; ignoreCase := ic |} rep 0 prev s
  = flat_map (fun x => if in_class ic invert items x then rep else [x]) s.
Proof.
  revert prev. induction s as [|x t IH]; intros prev; [reflexivity|].
  cbn [replace_from match_here rmatch pattern ignoreCase flat_map].
  unfold in_class at 1. destruct (xorb invert _).
  - rewrite length_cons_sub, IH. reflexivity.
  - rewrite IH. reflexivity.
Qed.

Lemma flat_map_drop (P : N -> bool) (s : jsstring) :
  flat_map (fun x => if P x then [] else [x]) s
  = filter (fun x => negb (P x)) s.
Proof.
  induction s as [|x t IH]; [reflexivity|]. cbn [flat_map filter].
  rewrite IH. destruct (P x); reflexivity.
Qed.

Lemma remove_class (ic invert : bool) (items : list class_item) (s : jsstring) :
  replace {| pattern := Cls invert items; ignoreCase := ic |} [] s
  = filter (fun x => negb (in_class ic invert items x)) s.
Proof. unfold replace. rewrite replace_from_class. apply flat_map_drop. Qed.

(** The control characters of [sanitizeText]: C0, DEL and C1. *)
Definition is_control (c : N) : bool := in_range 0 31 c || in_range 127 159 c.

Lemma controlCharacters_removed (s : jsstring) :
  replace controlCharacters [] s = filter (fun c => negb (is_control c)) s.
Proof.
  unfold controlCharacters. rewrite remove_class.
  apply filter_ext. intros c. unfold in_class, is_control.
  cbn [existsb item_match xorb]. rewrite orb_false_r. reflexivity.
Qed.

(** ** Replacing runs of white space *)

(** Every run of white space gives way to one space; [in_run] tells
    whether the code unit before was white space. *)
Fixpoint squeeze (in_run : bool) (s : jsstring) : jsstring :=
  match s with
  | [] => []
  | c :: t =>
      if is_space c
      then if in_run then squeeze true t else 32%N :: squeeze true t
      else c :: squeeze false t
  end.

Lemma squeeze_flag (s : jsstring) :
  match s with c :: _ => is_space c = false | [] => True end ->
  squeeze true s = squeeze false s.
Proof. destruct s as [|c t]; [reflexivity|]. cbn. intros ->. reflexivity. Qed.

Lemma span_spec (P : N -> bool) (s : jsstring) :
  s = fst (WHATWG.span P s) ++ snd (WHATWG.span P s)
  /\ forallb P (fst (WHATWG.span P s)) = true
  /\ match snd (WHATWG.span P s) with c :: _ => P c = false | [] => True end.
Proof.
  induction s as [|c t IH]; [repeat split|].
  cbn [WHATWG.span]. destruct (P c) eqn:Hc.
  - destruct (WHATWG.span P t) as [a b]. cbn [fst snd] in *.
    destruct IH as (Ht & Ha & Hb). repeat split.
    + cbn [app]. rewrite <- Ht. reflexivity.
    + cbn [forallb]. rewrite Hc, Ha. reflexivity.
    + exact Hb.
  - cbn [fst snd]. repeat split. exact Hc.
Qed.

(** The code unit before the position [run] leads to. *)
Definition after (run : jsstring) (prev : option N) : option N :=
  fold_left (fun _ x => Some x) run prev.

(** A starred class takes the whole run, when what follows the star
    succeeds there. *)
Lemma star_class_greedy (P : N -> bool) (m : matcher) :
  (forall prev x t k, m prev (x :: t) k = if P x then k (Some x) t else None) ->
  (forall prev k, m prev [] k = None) ->
  forall (n : nat) (run rest : jsstring) (prev : option N) (k : cont)
         (z : state),
    forallb P run = true ->
    match rest with c :: _ => P c = false | [] => True end ->
    (length run <= n)%nat ->
    k (after run prev) rest = Some z ->
    repeat_matcher m 0 n prev (run ++ rest) k = Some z.
Proof.
  intros Hcons Hnil.
  induction n as [|n IH]; intros run rest prev k z Hrun Hrest Hn Hk.
  - destruct run; [|cbn in Hn; lia]. exact Hk.
  - cbn [repeat_matcher Nat.eqb]. destruct run as [|x run].
    + cbn [app]. cbn in Hk. destruct rest as [|c rest].
      * rewrite Hnil. exact Hk.
      * rewrite Hcons, Hrest. exact Hk.
    + cbn [forallb] in Hrun. apply andb_true_iff in Hrun.
      destruct Hrun as [Hx Hrun]. cbn [app]. rewrite Hcons, Hx.
      cbn [andb pred].
      replace (length (run ++ rest) =? length (x :: run ++ rest))%nat
        with false
        by (symmetry; apply Nat.eqb_neq; cbn [length]; lia).
      cbn [length] in Hn.
      rewrite (IH run rest (Some x) k z Hrun Hrest ltac:(lia) Hk).
      reflexivity.
Qed.

Lemma whitespaceRun_here (prev : option N) (c : N) (t : jsstring) :
  is_space c = true ->
  exists p, match_here whitespaceRun prev (c :: t)
            = Some (p, snd (WHATWG.span is_space t)).
Proof.
  intros Hc. unfold match_here, whitespaceRun, Plus.
  cbn [pattern ignoreCase rmatch existsb item_match xorb].
  rewrite Hc. cbn [orb].
  destruct (span_spec is_space t) as (Ht & Hrun & Hrest).
  set (run := fst (WHATWG.span is_space t)) in *.
  set (rest := snd (WHATWG.span is_space t)) in *.
  clearbody run rest. subst t.
  exists (after run (Some c)).
  apply (star_class_greedy is_space
           (rmatch false (Cls false [CSpace]))).
  - intros prev' x t' k. cbn [rmatch existsb item_match xorb].
    rewrite orb_false_r. reflexivity.
  - reflexivity.
  - exact Hrun.
  - exact Hrest.
  - rewrite length_app. lia.
  - reflexivity.
Qed.

Lemma whitespaceRun_not_here (prev : option N) (s : jsstring) :
  match s with c :: _ => is_space c = false | [] => True end ->
  match_here whitespaceRun prev s = None.
Proof.
  intros Hs. unfold match_here, whitespaceRun, Plus.
  cbn [pattern ignoreCase rmatch]. destruct s as [|c t]; [reflexivity|].
  cbn [existsb item_match xorb]. rewrite Hs. reflexivity.
Qed.

Lemma span_head_space (c : N) (t : jsstring) :
  is_space c = true ->
  fst (WHATWG.span is_space (c :: t)) = c :: fst (WHATWG.span is_space t).
Proof.
  intros Hc. cbn [WHATWG.span]. rewrite Hc.
  destruct (WHATWG.span is_space t). reflexivity.
Qed.

Lemma span_head_other (c : N) (t : jsstring) :
  is_space c = false -> fst (WHATWG.span is_space (c :: t)) = [].
Proof. intros Hc. cbn [WHATWG.span]. rewrite Hc. reflexivity. Qed.

Lemma no_run_no_space (t : jsstring) :
  length (fst (WHATWG.span is_space t)) = 0%nat ->
  match t with c :: _ => is_space c = false | [] => True end.
Proof.
  destruct t as [|c t]; [trivial|]. destruct (is_space c) eqn:Hc; [|trivial].
  rewrite (span_head_space c t Hc). discriminate.
Qed.

(** [skip] is either 0 or the length of the run of white space the text
    begins with. *)
Lemma whitespaceRun_from (s : jsstring) :
  forall (skip : nat) (prev : option N),
    skip = 0%nat \/ skip = length (fst (WHATWG.span is_space s)) ->
    replace_from whitespaceRun (lit " ") skip prev s
    = squeeze (negb (skip =? 0)%nat) s.
Proof.
  induction s as [|c t IH]; intros skip prev Hskip.
  - destruct skip; reflexivity.
  - destruct skip as [|n].
    + cbn [Nat.eqb negb squeeze replace_from].
      destruct (is_space c) eqn:Hc.
      * destruct (whitespaceRun_here prev c t Hc) as [p ->].
        destruct (span_spec is_space t) as (Ht & _ & _).
        set (run := fst (WHATWG.span is_space t)) in *.
        set (rest := snd (WHATWG.span is_space t)) in *.
        replace (length (c :: t) - length rest)%nat with (S (length run))
          by (rewrite Ht at 1; cbn [length]; rewrite length_app; lia).
        rewrite (IH (length run) (Some c) (or_intror eq_refl)).
        change (lit " ") with [32%N]. cbn [app]. f_equal.
        destruct (length run =? 0)%nat eqn:E; [|reflexivity].
        cbn [negb]. symmetry. apply squeeze_flag, no_run_no_space.
        apply Nat.eqb_eq, E.
      * rewrite (whitespaceRun_not_here prev (c :: t) Hc).
        rewrite (IH 0%nat (Some c) (or_introl eq_refl)). reflexivity.
    + destruct Hskip as [Hskip|Hskip]; [discriminate|].
      destruct (is_space c) eqn:Hc.
      2:{ rewrite (span_head_other c t Hc) in Hskip. discriminate. }
      rewrite (span_head_space c t Hc) in Hskip. cbn [length] in Hskip.
      injection Hskip as Hn.
      cbn [Nat.eqb negb squeeze replace_from]. rewrite Hc.
      rewrite (IH n (Some c) (or_intror Hn)).
      destruct (n =? 0)%nat eqn:E; [|reflexivity].
      cbn [negb]. symmetry. apply squeeze_flag, no_run_no_space.
      apply Nat.eqb_eq in E. congruence.
Qed.

Lemma whitespaceRun_squeezed (s : jsstring) :
  replace whitespaceRun (lit " ") s = squeeze false s.
Proof. apply (whitespaceRun_from s 0%nat None). left. reflexivity. Qed.

(** [sanitizeText] without regular expressions. *)
Lemma sanitizeText_squeeze (text : jsstring) :
  sanitizeText text
  = squeeze false (filter (fun c => negb (is_control c)) (trim text)).
Proof.
  unfold sanitizeText. rewrite controlCharacters_removed.
  apply whitespaceRun_squeezed.
Qed.

(** ** What [sanitizeText] returns *)

(** No white space but the space, and no two spaces in a row. *)
Fixpoint single_spaced (s : jsstring) : bool :=
  match s with
  | [] => true
  | a :: t =>
      (negb (is_space a) || (a =? 32)%N)
      && match t with
         | b :: _ => negb (is_space a && is_space b)
         | [] => true
         end
      && single_spaced t
  end.

Lemma space_is_space : is_space 32 = true.
Proof. reflexivity. Qed.

Lemma squeeze_single_spaced (s : jsstring) :
  single_spaced (squeeze false s) = true
  /\ single_spaced (32%N :: squeeze true s) = true.
Proof.
  induction s as [|c t [IHf IHt]]; [split; reflexivity|].
  cbn [squeeze]. destruct (is_space c) eqn:Hc.
  - split; exact IHt.
  - assert (H : single_spaced (c :: squeeze false t) = true).
    { cbn [single_spaced]. rewrite Hc, IHf. cbn [negb orb andb].
      destruct (squeeze false t); reflexivity. }
    split; [exact H|].
    change (single_spaced (32%N :: c :: squeeze false t))
      with ((negb (is_space 32) || (32 =? 32)%N)
            && negb (is_space 32 && is_space c)
            && single_spaced (c :: squeeze false t)).
    rewrite H, Hc, andb_false_r. reflexivity.
Qed.

Lemma squeeze_keeps (P : N -> bool) (in_run : bool) (s : jsstring) :
  P 32%N = true -> forallb P s = true -> forallb P (squeeze in_run s) = true.
Proof.
  intros H32. revert in_run. induction s as [|c t IH]; intros in_run Hs.
  - reflexivity.
  - cbn [forallb] in Hs. apply andb_true_iff in Hs. destruct Hs as [Hc Ht].
    cbn [squeeze]. destruct (is_space c), in_run; cbn [forallb];
      rewrite ?H32, ?Hc, ?(IH _ Ht); reflexivity.
Qed.

Lemma forallb_filter_same (P : N -> bool) (s : jsstring) :
  forallb P (filter P s) = true.
Proof.
  induction s as [|c t IH]; [reflexivity|]. cbn [filter].
  destruct (P c) eqn:Hc; [|exact IH]. cbn [forallb]. rewrite Hc. exact IH.
Qed.

Lemma sanitizeText_no_control (text : jsstring) :
  forallb (fun c => negb (is_control c)) (sanitizeText text) = true.
Proof.
  rewrite sanitizeText_squeeze.
  apply squeeze_keeps; [reflexivity|]. apply forallb_filter_same.
Qed.

Lemma sanitizeText_single_spaced (text : jsstring) :
  single_spaced (sanitizeText text) = true.
Proof. rewrite sanitizeText_squeeze. apply squeeze_single_spaced. Qed.

(** X5. The text [sanitizeText] returns holds no control character
    (C0, DEL, C1: so no tab and no line break), no white space other
    than the space U+0020, and no two spaces in a row. *)
Theorem sanitizeText_clean (text : jsstring) :
  forallb (fun c => negb (is_control c)) (sanitizeText text) = true
  /\ single_spaced (sanitizeText text) = true.
Proof.
  rewrite sanitizeText_squeeze. split.
  - apply squeeze_keeps; [reflexivity|]. apply forallb_filter_same.
  - apply squeeze_single_spaced.
Qed.

(** ** Text that is clean already *)

Lemma filter_all (P : N -> bool) (s : jsstring) :
  forallb P s = true -> filter P s = s.
Proof.
  induction s as [|c t IH]; [reflexivity|]. cbn [forallb filter].
  intros H. apply andb_true_iff in H. destruct H as [-> H].
  rewrite (IH H). reflexivity.
Qed.

Lemma squeeze_single (s : jsstring) :
  single_spaced s = true -> squeeze false s = s.
Proof.
  induction s as [|c t IH]; [reflexivity|]. cbn [single_spaced squeeze].
  intros H. apply andb_true_iff in H. destruct H as [H Ht].
  apply andb_true_iff in H. destruct H as [Hc Hnext].
  destruct (is_space c) eqn:Hs.
  - cbn [negb orb] in Hc. apply N.eqb_eq in Hc. subst c. f_equal.
    rewrite squeeze_flag; [exact (IH Ht)|].
    destruct t as [|b t]; [exact I|]. cbn [andb] in Hnext.
    apply negb_true_iff in Hnext. exact Hnext.
  - rewrite (IH Ht). reflexivity.
Qed.

Lemma trim_id (s : jsstring) :
  URLRoundTrip.no_lead s -> URLRoundTrip.no_lead (rev s) -> trim s = s.
Proof.
  intros Hs Hr. unfold trim, trimEnd.
  rewrite (URLRoundTrip.trimStart_id s Hs).
  rewrite (URLRoundTrip.trimStart_id (rev s) Hr). apply rev_involutive.
Qed.

(** X6. A text that is clean already comes back from [sanitizeText] as
    it is: no white space at either end, no control character, no white
    space but single spaces. *)
Theorem sanitizeText_keeps_clean_text (text : jsstring) :
  URLRoundTrip.no_lead text -> URLRoundTrip.no_lead (rev text) ->
  forallb (fun c => negb (is_control c)) text = true ->
  single_spaced text = true ->
  sanitizeText text = text.
Proof.
  intros Hs Hr Hc Hsp. rewrite sanitizeText_squeeze.
  rewrite (trim_id text Hs Hr), (filter_all _ text Hc).
  apply squeeze_single, Hsp.
Qed.

Lemma sanitizeText_keeps_clean_text_witness :
  sanitizeText (lit "Space Invaders 2: The Return")
  = lit "Space Invaders 2: The Return".
Proof.
  apply (sanitizeText_keeps_clean_text (lit "Space Invaders 2: The Return"));
    reflexivity.
Defined.

(** ** Lengths *)

Lemma trimStart_length (s : jsstring) : (length (trimStart s) <= length s)%nat.
Proof.
  induction s as [|c t IH]; [apply le_n|]. cbn [trimStart].
  destruct (is_space c); cbn [length]; lia.
Qed.

Lemma trim_length (s : jsstring) : (length (trim s) <= length s)%nat.
Proof.
  unfold trim, trimEnd. rewrite length_rev.
  pose proof (trimStart_length (rev (trimStart s))) as H.
  rewrite length_rev in H. pose proof (trimStart_length s). lia.
Qed.

Lemma squeeze_length (in_run : bool) (s : jsstring) :
  (length (squeeze in_run s) <= length s)%nat.
Proof.
  revert in_run. induction s as [|c t IH]; intros in_run; [apply le_n|].
  cbn [squeeze]. pose proof (IH true). pose proof (IH false).
  destruct (is_space c), in_run; cbn [length]; lia.
Qed.

(** Replacing matches by nothing never lengthens a text, whatever the
    pattern. *)
Lemma remove_length (re : RegExp) (s : jsstring) :
  forall (skip : nat) (prev : option N),
    (length (replace_from re [] skip prev s) <= length s)%nat.
Proof.
  induction s as [|c t IH]; intros skip prev.
  - destruct skip; cbn [replace_from]; [|apply le_n].
    destruct (match_here re prev []) as [[p s']|]; apply le_n.
  - destruct skip as [|n]; cbn [replace_from].
    + destruct (match_here re prev (c :: t)) as [[p s']|].
      * cbn [app]. destruct (length (c :: t) - length s')%nat as [|n].
        -- pose proof (IH 0%nat (Some c)). cbn [length]. lia.
        -- pose proof (IH n (Some c)). cbn [length]. lia.
      * pose proof (IH 0%nat (Some c)). cbn [length]. lia.
    + pose proof (IH n (Some c)). cbn [length]. lia.
Qed.

Lemma sanitizeText_length (text : jsstring) :
  (length (sanitizeText text) <= length text)%nat.
Proof.
  rewrite sanitizeText_squeeze.
  pose proof (squeeze_length false
                (filter (fun c => negb (is_control c)) (trim text))).
  pose proof (filter_length_le (fun c => negb (is_control c)) (trim text)).
  pose proof (trim_length text). lia.
Qed.

(** ** Code units that pass through *)

Lemma forallb_weaken (P Q : N -> bool) (s : jsstring) :
  (forall c, P c = true -> Q c = true) ->
  forallb P s = true -> forallb Q s = true.
Proof.
  intros HPQ. induction s as [|c t IH]; [reflexivity|]. cbn [forallb].
  intros H. apply andb_true_iff in H. destruct H as [Hc Ht].
  rewrite (HPQ c Hc), (IH Ht). reflexivity.
Qed.

Lemma forallb_and (P Q : N -> bool) (s : jsstring) :
  forallb P s = true -> forallb Q s = true ->
  forallb (fun c => P c && Q c) s = true.
Proof.
  induction s as [|c t IH]; [reflexivity|]. cbn [forallb].
  intros HP HQ. apply andb_true_iff in HP, HQ.
  destruct HP as [-> HP], HQ as [-> HQ]. exact (IH HP HQ).
Qed.

Lemma forallb_trimStart (P : N -> bool) (s : jsstring) :
  forallb P s = true -> forallb P (trimStart s) = true.
Proof.
  induction s as [|c t IH]; [reflexivity|]. intros H. cbn [trimStart].
  destruct (is_space c); [|exact H].
  cbn [forallb] in H. apply andb_true_iff in H. apply IH, H.
Qed.

Lemma forallb_unrev (P : N -> bool) (s : jsstring) :
  forallb P (rev s) = true -> forallb P s = true.
Proof.
  intros H. rewrite <- (rev_involutive s).
  apply URLRoundTrip.forallb_rev, H.
Qed.

Lemma forallb_trim (P : N -> bool) (s : jsstring) :
  forallb P s = true -> forallb P (trim s) = true.
Proof.
  intros H. unfold trim, trimEnd.
  apply URLRoundTrip.forallb_rev, forallb_trimStart, URLRoundTrip.forallb_rev,
    forallb_trimStart, H.
Qed.

Lemma forallb_filter_keeps (P Q : N -> bool) (s : jsstring) :
  forallb P s = true -> forallb P (filter Q s) = true.
Proof.
  induction s as [|c t IH]; [reflexivity|]. cbn [forallb filter].
  intros H. apply andb_true_iff in H. destruct H as [Hc Ht].
  destruct (Q c); [cbn [forallb]; rewrite Hc|]; exact (IH Ht).
Qed.

Lemma single_spaced_spaces (s : jsstring) :
  single_spaced s = true ->
  forallb (fun a => negb (is_space a) || (a =? 32)%N) s = true.
Proof.
  induction s as [|c t IH]; [reflexivity|]. cbn [single_spaced forallb].
  intros H. apply andb_true_iff in H. destruct H as [H Ht].
  apply andb_true_iff in H. destruct H as [-> _]. exact (IH Ht).
Qed.

Lemma trim_trimmed (s : jsstring) :
  URLRoundTrip.no_lead (trim s) /\ URLRoundTrip.no_lead (rev (trim s)).
Proof.
  split.
  - apply URLRoundTrip.trimEnd_no_lead, URLRoundTrip.trimStart_no_lead.
  - unfold trim, trimEnd. rewrite rev_involutive.
    apply URLRoundTrip.trimStart_no_lead.
Qed.

(** ** Descriptions *)

(** A line break in the sense of ECMA-262: LF, CR, LS, PS. *)
Definition line_terminator (c : N) : bool :=
  (c =? 10)%N || (c =? 13)%N || (c =? 8232)%N || (c =? 8233)%N.

Lemma clean_no_line_terminator (c : N) :
  negb (is_control c) && (negb (is_space c) || (c =? 32)%N) = true ->
  negb (line_terminator c) = true.
Proof.
  unfold line_terminator. intros H.
  destruct (c =? 10)%N eqn:E1;
    [apply N.eqb_eq in E1; subst c; discriminate H|].
  destruct (c =? 13)%N eqn:E2;
    [apply N.eqb_eq in E2; subst c; discriminate H|].
  destruct (c =? 8232)%N eqn:E3;
    [apply N.eqb_eq in E3; subst c; discriminate H|].
  destruct (c =? 8233)%N eqn:E4;
    [apply N.eqb_eq in E4; subst c; discriminate H|].
  reflexivity.
Qed.

Lemma sanitizeText_no_line_terminator (text : jsstring) :
  forallb (fun c => negb (line_terminator c)) (sanitizeText text) = true.
Proof.
  pose proof (sanitizeText_no_control text) as Hc.
  pose proof (sanitizeText_single_spaced text) as Hs.
  apply single_spaced_spaces in Hs.
  apply (forallb_weaken _ _ _ clean_no_line_terminator).
  apply forallb_and; assumption.
Qed.

Lemma sanitizeDescription_trim (description : jsstring) :
  sanitizeDescription description = trim (sanitizeText description).
Proof.
  unfold sanitizeDescription. rewrite URLRoundTrip.split_on_single.
  - reflexivity.
  - apply (forallb_weaken (fun c => negb (line_terminator c))).
    + intros c H. apply negb_true_iff in H. apply negb_true_iff.
      unfold line_terminator in H.
      destruct (c =? 10)%N; [discriminate H|reflexivity].
    + apply sanitizeText_no_line_terminator.
Qed.

(** X7. [sanitizeDescription] returns a single line: its splitting at
    line feeds finds none, for [sanitizeText] has removed them, so the
    result is the trimmed [sanitizeText] of the description and holds
    no line break. *)
Theorem sanitizeDescription_single_line (description : jsstring) :
  sanitizeDescription description = trim (sanitizeText description)
  /\ forallb (fun c => negb (line_terminator c))
       (sanitizeDescription description) = true.
Proof.
  split; [apply sanitizeDescription_trim|].
  rewrite sanitizeDescription_trim.
  apply forallb_trim, sanitizeText_no_line_terminator.
Qed.

(** ** Authors *)

(** [[a-zA-Z0-9_-]] and the space. *)
Definition author_code_unit (c : N) : bool :=
  is_alnum c || (c =? 45)%N || (c =? 95)%N || (c =? 32)%N.

Lemma notAuthorCharacter_removed (s : jsstring) :
  replace notAuthorCharacter [] s
  = filter (fun c => is_alnum c || (c =? 45)%N || (c =? 95)%N || is_space c) s.
Proof.
  unfold notAuthorCharacter. rewrite remove_class.
  apply filter_ext. intros c. unfold in_class.
  cbn [existsb xorb]. rewrite orb_false_r.
  unfold URL_PATTERNS.a_z, URL_PATTERNS.A_Z, URL_PATTERNS.d0_9.
  cbn [item_match].
  change (URL_PATTERNS.chr "a") with 97%N.
  change (URL_PATTERNS.chr "z") with 122%N.
  change (URL_PATTERNS.chr "A") with 65%N.
  change (URL_PATTERNS.chr "Z") with 90%N.
  change (URL_PATTERNS.chr "0") with 48%N.
  change (URL_PATTERNS.chr "9") with 57%N.
  change (URL_PATTERNS.chr "-") with 45%N.
  change (URL_PATTERNS.chr "_") with 95%N.
  unfold canon, is_alnum, is_alpha, is_digit.
  rewrite (N.eqb_sym 45 c), (N.eqb_sym 95 c).
  destruct (in_range 97 122 c), (in_range 65 90 c), (in_range 48 57 c),
    (c =? 45)%N, (c =? 95)%N, (is_space c); reflexivity.
Qed.

Lemma forallb_filter_both (P Q : N -> bool) (s : jsstring) :
  forallb P s = true -> forallb (fun c => Q c && P c) (filter Q s) = true.
Proof.
  induction s as [|c t IH]; [reflexivity|]. cbn [forallb filter].
  intros H. apply andb_true_iff in H. destruct H as [Hc Ht].
  destruct (Q c) eqn:HQ; [cbn [forallb]; rewrite HQ, Hc|]; exact (IH Ht).
Qed.

(** X8. An author name that [sanitizeAuthor] returns is made of ASCII
    letters, digits, [-], [_] and spaces alone, and neither begins nor
    ends with a space. *)
Theorem sanitizeAuthor_alphabet (author : jsstring) :
  forallb author_code_unit (sanitizeAuthor author) = true
  /\ URLRoundTrip.no_lead (sanitizeAuthor author)
  /\ URLRoundTrip.no_lead (rev (sanitizeAuthor author)).
Proof.
  unfold sanitizeAuthor. split; [|apply trim_trimmed].
  apply forallb_trim. rewrite notAuthorCharacter_removed.
  pose proof (sanitizeText_single_spaced author) as Hs.
  apply single_spaced_spaces in Hs.
  apply (forallb_weaken
           (fun c => (is_alnum c || (c =? 45)%N || (c =? 95)%N || is_space c)
                     && (negb (is_space c) || (c =? 32)%N))).
  - intros c H. unfold author_code_unit.
    destruct (is_alnum c), (c =? 45)%N, (c =? 95)%N, (is_space c),
      (c =? 32)%N; try reflexivity; discriminate H.
  - apply forallb_filter_both, Hs.
Qed.

(** X9. No sanitiser lengthens its text: a title, description or
    author name within a length limit before sanitising is within it
    afterwards. *)
Theorem sanitizers_never_lengthen (text : jsstring) :
  (length (sanitizeText text) <= length text)%nat
  /\ (length (sanitizeTitle text) <= length text)%nat
  /\ (length (sanitizeDescription text) <= length text)%nat
  /\ (length (sanitizeAuthor text) <= length text)%nat.
Proof.
  pose proof (sanitizeText_length text) as Ht.
  split; [exact Ht|]. split; [|split].
  - unfold sanitizeTitle, replace.
    pose proof (remove_length scriptElement (sanitizeText text) 0%nat None).
    lia.
  - rewrite sanitizeDescription_trim.
    pose proof (trim_length (sanitizeText text)). lia.
  - unfold sanitizeAuthor, replace.
    pose proof (trim_length
                  (replace_from notAuthorCharacter [] 0 None (sanitizeText text))).
    pose proof (remove_length notAuthorCharacter (sanitizeText text) 0%nat None).
    lia.
Qed.

End SanitizationProperties.

(* ===================================================================== *)
(** * sanitizeTags against the words of its specification *)
(* ===================================================================== *)

Module SanitizeTagsProperties.

Import Sanitization SanitizationProperties SanitizeTagsSpec.

(** The words of the specification for one element: trim, strip the
    control characters, collapse every run of white space to one
    space. *)
Definition stripControlCharacters (s : jsstring) : jsstring :=
  filter (fun c => negb (is_control c)) s.

Definition collapseWhitespace (s : jsstring) : jsstring := squeeze false s.

Definition sanitizeText_spec (text : jsstring) : jsstring :=
  collapseWhitespace (stripControlCharacters (trim text)).

(** The words of the specification for the array: clean each element,
    drop the elements that become empty, remove duplicates keeping the
    first occurrence, keep at most the first 10 entries. *)
Definition sanitizeTags_spec (tags : list jsstring) : list jsstring :=
  firstn 10
    (dedupFirst []
       (filter (fun tag => negb (eqb tag [])) (map sanitizeText_spec tags))).

Lemma sanitizeText_spec_eq (text : jsstring) :
  sanitizeText text = sanitizeText_spec text.
Proof. apply sanitizeText_squeeze. Qed.

(** C9. [sanitizeTags] trims each element, strips its control
    characters and collapses its runs of white space to one space,
    drops the elements that become empty, removes duplicates keeping
    the first occurrence and keeps at most the first 10 entries: what it
    returns has no duplicate and at most 10 entries, each of them a
    non-empty cleaned element of the input with no control character
    and none but single spaces for white space; on ["a","a"," a ","b"]
    it gives ["a","b"]. *)
Theorem sanitizeTags_meets_spec (tags : list jsstring) :
  sanitizeTags tags = sanitizeTags_spec tags
  /\ NoDup (sanitizeTags tags)
  /\ (length (sanitizeTags tags) <= 10)%nat
  /\ (forall tag, In tag (sanitizeTags tags) ->
        tag <> []
        /\ forallb (fun c => negb (is_control c)) tag = true
        /\ single_spaced tag = true
        /\ exists raw, In raw tags
                       /\ sanitizeText raw = tag
                       /\ sanitizeText_spec raw = tag)
  /\ sanitizeTags [lit "a"; lit "a"; lit " a "; lit "b"] = [lit "a"; lit "b"].
Proof.
  assert (E : sanitizeTags tags = sanitizeTags_spec tags).
  { rewrite sanitizeTags_first_occurrences. unfold sanitizeTags_spec.
    do 3 f_equal. apply map_ext. exact sanitizeText_spec_eq. }
  split; [exact E|]. rewrite sanitizeTags_first_occurrences.
  split; [apply NoDup_firstn, dedupFirst_NoDup|].
  split; [apply firstn_le_length|].
  split; [|vm_compute; reflexivity].
  intros tag Hin.
  assert (Hin' : In tag (dedupFirst []
            (filter (fun t => negb (eqb t [])) (map sanitizeText tags)))).
  { rewrite <- (firstn_skipn 10). apply in_or_app. left. exact Hin. }
  apply dedupFirst_In in Hin'. destruct Hin' as [Hin' _].
  apply filter_In in Hin'. destruct Hin' as [Hmap Hne].
  apply in_map_iff in Hmap. destruct Hmap as (raw & Hraw & Hin0).
  split; [intros ->; discriminate Hne|].
  split; [rewrite <- Hraw; apply sanitizeText_no_control|].
  split; [rewrite <- Hraw; apply sanitizeText_single_spaced|].
  exists raw. split; [exact Hin0|]. split; [exact Hraw|].
  rewrite <- sanitizeText_spec_eq. exact Hraw.
Qed.

End SanitizeTagsProperties.

(* ===================================================================== *)
(** * Escaping HTML ([src/utils/sanitization.ts], [sanitizeHtml]) *)
(* ===================================================================== *)

Module Html.

Import URL_PATTERNS.

(** [s.replace(re, f)] of a regular expression with the [g] flag and a
    function [f] of the matched text: every match, left to right, gives
    way to what [f] returns for it. *)
Fixpoint replace_by_from (re : RegExp) (f : jsstring -> jsstring) (skip : nat)
    (prev : option N) (s : jsstring) : jsstring :=
  match skip with
  | S n =>
      match s with
      | c :: t => replace_by_from re f n (Some c) t
      | [] => []
      end
  | O =>
      match match_here re prev s with
      | Some (_, s') =>
          f (firstn (length s - length s') s) ++
          match s with
          | c :: t =>
              match (length s - length s')%nat with
              | O => c :: replace_by_from re f 0 (Some c) t
              | S n => replace_by_from re f n (Some c) t
              end
          | [] => []
          end
      | None =>
          match s with
          | c :: t => c :: replace_by_from re f 0 (Some c) t
          | [] => []
          end
      end
  end.

Definition replace_by (re : RegExp) (f : jsstring -> jsstring) (s : jsstring)
  : jsstring :=
  replace_by_from re f 0 None s.

(** The object literal [htmlEscapeMap], key by key. *)
Definition htmlEscapeMap : list (jsstring * jsstring) :=
  [ (lit "&", lit "&amp;");
    (lit "<", lit "&lt;");
    (lit ">", lit "&gt;");
    ([34%N], lit "&quot;");
    (lit "'", lit "&#x27;");
    (lit "/", lit "&#x2F;") ].

(** [map[key]], with [None] for [undefined]. *)
Definition get (map : list (jsstring * jsstring)) (key : jsstring)
  : option jsstring :=
  option_map snd (find (fun entry => eqb (fst entry) key) map).

(** The pattern of [sanitizeHtml]: the class of [&], [<], [>], the
    double quote, ['] and [/], with the flag [g]. *)
Definition htmlSpecial : RegExp :=
  {| pattern := Cls false (chars "&<>" ++ [CChar 34] ++ chars "'/");
     ignoreCase := false |}.

(** A replacement function that returns [undefined] inserts the text
    [undefined]. *)
Definition sanitizeHtml (content : jsstring) : jsstring :=
  replace_by htmlSpecial
    (fun matched => or_else (get htmlEscapeMap matched) (lit "undefined"))
    content.

End Html.

(* ===================================================================== *)
(** * Escaping HTML: properties *)
(* ===================================================================== *)

Module HtmlProperties.

Import Html SanitizationProperties.

Lemma replace_by_from_class (ic invert : bool) (items : list class_item)
    (f : jsstring -> jsstring) (prev : option N) (s : jsstring) :
  replace_by_from {| pattern := Cls invert items; ignoreCase := ic |} f 0 prev s
  = flat_map (fun x => if in_class ic invert items x then f [x] else [x]) s.
Proof.
  revert prev. induction s as [|x t IH]; intros prev; [reflexivity|].
  cbn [replace_by_from match_here rmatch pattern ignoreCase flat_map].
  unfold in_class at 1. destruct (xorb invert _).
  - rewrite length_cons_sub, IH. reflexivity.
  - rewrite IH. reflexivity.
Qed.

(** The six code units [sanitizeHtml] replaces. *)
Definition special (c : N) : bool := WHATWG.mem c [38; 60; 62; 34; 39; 47]%N.

Definition escape (c : N) : jsstring :=
  if special c
  then or_else (get htmlEscapeMap [c]) (lit "undefined")
  else [c].

Lemma sanitizeHtml_escape (content : jsstring) :
  sanitizeHtml content = flat_map escape content.
Proof.
  unfold sanitizeHtml, replace_by, htmlSpecial.
  rewrite replace_by_from_class. apply flat_map_ext. intros c.
  unfold escape, special, in_class, WHATWG.mem.
  cbn [URL_PATTERNS.chars lit list_ascii_of_string map app existsb item_match
       xorb canon].
  change (N_of_ascii "&") with 38%N. change (N_of_ascii "<") with 60%N.
  change (N_of_ascii ">") with 62%N. change (N_of_ascii "'") with 39%N.
  change (N_of_ascii "/") with 47%N.
  rewrite (N.eqb_sym 38 c), (N.eqb_sym 60 c), (N.eqb_sym 62 c),
    (N.eqb_sym 34 c), (N.eqb_sym 39 c), (N.eqb_sym 47 c).
  reflexivity.
Qed.

Lemma special_cases (c : N) :
  special c = true ->
  c = 38%N \/ c = 60%N \/ c = 62%N \/ c = 34%N \/ c = 39%N \/ c = 47%N.
Proof.
  unfold special, WHATWG.mem. cbn [existsb]. intros H.
  repeat (apply orb_true_iff in H; destruct H as [H|H];
          [apply N.eqb_eq in H; tauto|]).
  discriminate H.
Qed.

Lemma forallb_flat_map (P : N -> bool) (f : N -> jsstring) (s : jsstring) :
  (forall c, forallb P (f c) = true) -> forallb P (flat_map f s) = true.
Proof.
  intros Hf. induction s as [|c t IH]; [reflexivity|]. cbn [flat_map].
  rewrite forallb_app, (Hf c), IH. reflexivity.
Qed.

(** X10. The text [sanitizeHtml] returns holds none of [<], [>], the
    double quote, ['] and [/]. *)
Theorem sanitizeHtml_leaves_no_markup (content : jsstring) :
  forallb (fun c => negb (WHATWG.mem c [60; 62; 34; 39; 47]%N))
    (sanitizeHtml content) = true.
Proof.
  rewrite sanitizeHtml_escape. apply forallb_flat_map. intros c.
  unfold escape. destruct (special c) eqn:Hc.
  - destruct (special_cases c Hc) as [->|[->|[->|[->|[->| ->]]]]];
      reflexivity.
  - cbn [forallb]. rewrite andb_true_r. revert Hc.
    unfold special, WHATWG.mem. cbn [existsb].
    destruct (c =? 38)%N, (c =? 60)%N, (c =? 62)%N, (c =? 34)%N,
      (c =? 39)%N, (c =? 47)%N; intros H; try discriminate H; reflexivity.
Qed.

Lemma escape_head (c : N) :
  exists rest, escape c = (if special c then 38%N else c) :: rest.
Proof.
  unfold escape. destruct (special c) eqn:Hc.
  - destruct (special_cases c Hc) as [->|[->|[->|[->|[->| ->]]]]];
      eexists; reflexivity.
  - exists []. reflexivity.
Qed.

Lemma escape_plain (c : N) : special c = false -> escape c = [c].
Proof. unfold escape. intros ->. reflexivity. Qed.

Lemma escape_special_inj (x y : N) (a b : jsstring) :
  special x = true -> special y = true ->
  escape x ++ a = escape y ++ b -> x = y /\ a = b.
Proof.
  intros Hx Hy.
  destruct (special_cases x Hx) as [->|[->|[->|[->|[->| ->]]]]];
    destruct (special_cases y Hy) as [->|[->|[->|[->|[->| ->]]]]];
    vm_compute; intros H; try discriminate H;
    injection H as ->; split; reflexivity.
Qed.

Lemma escape_injective (a b : jsstring) :
  flat_map escape a = flat_map escape b -> a = b.
Proof.
  revert b. induction a as [|x a IH]; intros [|y b] H.
  - reflexivity.
  - cbn [flat_map] in H. destruct (escape_head y) as [r E].
    rewrite E in H. discriminate H.
  - cbn [flat_map] in H. destruct (escape_head x) as [r E].
    rewrite E in H. discriminate H.
  - cbn [flat_map] in H.
    destruct (special x) eqn:Hx, (special y) eqn:Hy.
    + destruct (escape_special_inj x y _ _ Hx Hy H) as [-> H'].
      rewrite (IH b H'). reflexivity.
    + destruct (escape_head x) as [rx Ex]. rewrite Ex, Hx in H.
      rewrite (escape_plain y Hy) in H. injection H as Hy' _.
      subst y. discriminate Hy.
    + destruct (escape_head y) as [ry Ey]. rewrite Ey, Hy in H.
      rewrite (escape_plain x Hx) in H. injection H as Hx' _.
      subst x. discriminate Hx.
    + rewrite (escape_plain x Hx), (escape_plain y Hy) in H.
      injection H as -> H. rewrite (IH b H). reflexivity.
Qed.

(** X11. Escaping loses nothing: two different texts are never escaped
    to the same text, so text that was escaped already and text that
    was not stay apart. *)
Theorem sanitizeHtml_injective (a b : jsstring) :
  a <> b -> sanitizeHtml a <> sanitizeHtml b.
Proof.
  intros Hne H. apply Hne, escape_injective.
  rewrite <- !sanitizeHtml_escape. exact H.
Qed.

Lemma sanitizeHtml_injective_witness :
  lit "1 < 2" <> lit "1 &lt; 2"
  /\ sanitizeHtml (lit "1 < 2") <> sanitizeHtml (lit "1 &lt; 2").
Proof.
  split; [discriminate|].
  apply (sanitizeHtml_injective (lit "1 < 2") (lit "1 &lt; 2")).
  discriminate.
Defined.

End HtmlProperties.

(* ===================================================================== *)
(** * sanitizeTitle and script elements *)
(* ===================================================================== *)

Module ScriptElement.

Import Sanitization SanitizationProperties.

(** ** Replacing, match by match *)

Lemma replace_from_skip (re : RegExp) (rep m s : jsstring) (prev : option N) :
  replace_from re rep (length m) prev (m ++ s)
  = replace_from re rep 0 (after m prev) s.
Proof.
  revert prev. induction m as [|c m IH]; intros prev.
  - destruct s; reflexivity.
  - cbn [length app replace_from]. apply IH.
Qed.

Lemma replace_from_match (re : RegExp) (rep : jsstring) (prev q : option N)
    (c : N) (m s : jsstring) :
  match_here re prev (c :: m ++ s) = Some (q, s) ->
  replace_from re rep 0 prev (c :: m ++ s)
  = rep ++ replace_from re rep 0 (after m (Some c)) s.
Proof.
  intros H. cbn [replace_from]. rewrite H.
  replace (length (c :: m ++ s) - length s)%nat with (S (length m))
    by (cbn [length]; rewrite length_app; lia).
  rewrite replace_from_skip. reflexivity.
Qed.

Lemma replace_from_no_match (re : RegExp) (rep : jsstring) (prev : option N)
    (c : N) (t : jsstring) :
  match_here re prev (c :: t) = None ->
  replace_from re rep 0 prev (c :: t) = c :: replace_from re rep 0 (Some c) t.
Proof. intros H. cbn [replace_from]. rewrite H. reflexivity. Qed.

(** ** Matching a run of pattern characters *)

Lemma rmatch_str_here (ic : bool) (w : jsstring) (prev : option N)
    (rest : jsstring) (k : cont) :
  rmatch ic (str w) prev (w ++ rest) k = k (after w prev) rest.
Proof.
  revert prev. induction w as [|c w IH]; intros prev; [reflexivity|].
  cbn [str fold_right rmatch app]. fold (str w).
  rewrite N.eqb_refl. apply IH.
Qed.

(** A star whose pattern cannot match here matches nothing. *)
Lemma star_none (m : matcher) (n : nat) (prev : option N) (s : jsstring)
    (k : cont) :
  (forall d, m prev s d = None) ->
  repeat_matcher m 0 n prev s k = k prev s.
Proof.
  intros H. destruct n; [reflexivity|].
  cbn [repeat_matcher Nat.eqb]. rewrite H. reflexivity.
Qed.

(** ** The pattern of [sanitizeTitle] *)

Definition notLt : regex := Cls true [CChar 60%N].

Definition inner : regex :=
  Seq (NegLook (str (lit "</script>"))) (Seq (Chr 60%N) (Star notLt)).

Lemma scriptElement_pattern :
  pattern scriptElement
  = Seq (str (lit "<script"))
        (Seq WordB (Seq (Star notLt) (Seq (Star inner) (str (lit "</script>"))))).
Proof. reflexivity. Qed.

Lemma canon_lt (x : N) :
  (x =? 60)%N = false -> (canon true 60 =? canon true x)%N = false.
Proof.
  intros Hx. apply N.eqb_neq in Hx. apply N.eqb_neq.
  unfold canon, ascii_upper.
  change (in_range 97 122 60) with false. cbn iota.
  unfold in_range. destruct (97 <=? x)%N eqn:E1; cbn [andb]; [|lia].
  destruct (x <=? 122)%N eqn:E2; [|lia].
  apply N.leb_le in E1. lia.
Qed.

(** No match begins at a code unit other than [<]. *)
Lemma scriptElement_needs_lt (prev : option N) (x : N) (t : jsstring) :
  (x =? 60)%N = false -> match_here scriptElement prev (x :: t) = None.
Proof.
  intros Hx. unfold match_here. rewrite scriptElement_pattern.
  change (ignoreCase scriptElement) with true.
  change (str (lit "<script")) with (Seq (Chr 60%N) (str (lit "script"))).
  cbn [rmatch]. rewrite (canon_lt x Hx). reflexivity.
Qed.

(** An empty script element is matched as a whole. *)
Lemma scriptElement_empty (prev : option N) (rest : jsstring) :
  match_here scriptElement prev (lit "<script></script>" ++ rest)
  = Some (Some 62%N, rest).
Proof.
  unfold match_here. rewrite scriptElement_pattern.
  change (ignoreCase scriptElement) with true.
  change (lit "<script></script>" ++ rest)
    with (lit "<script" ++ [62%N] ++ lit "</script>" ++ rest).
  cbn [rmatch]. rewrite rmatch_str_here.
  change (after (lit "<script") prev) with (Some 116%N).
  cbn [rmatch app hd_error is_word].
  change (xorb (is_alnum 116 || (116 =? 95)%N) (is_alnum 62 || (62 =? 95)%N))
    with true. cbn iota.
  change (62%N :: lit "</script>" ++ rest)
    with ([62%N] ++ lit "</script>" ++ rest).
  apply (star_class_greedy
           (fun x => negb (canon true 60 =? canon true x)%N)
           (rmatch true notLt)).
  - intros p x t k. unfold notLt. cbn [rmatch existsb item_match xorb].
    rewrite orb_false_r. destruct (canon true 60 =? canon true x)%N; reflexivity.
  - reflexivity.
  - reflexivity.
  - reflexivity.
  - rewrite length_app. cbn [length]. lia.
  - change (after [62%N] (Some 116%N)) with (Some 62%N).
    rewrite star_none.
    + rewrite rmatch_str_here. reflexivity.
    + intros d. unfold inner. cbn [rmatch].
      rewrite rmatch_str_here. reflexivity.
Qed.

(** ** A script element that survives *)

Lemma remove_script_plain (q tail tail' : jsstring) :
  forallb (fun c => negb (c =? 60)%N) q = true ->
  (forall prev, replace_from scriptElement [] 0 prev tail = tail') ->
  forall prev, replace_from scriptElement [] 0 prev (q ++ tail) = q ++ tail'.
Proof.
  intros Hq Htail. induction q as [|c q IH]; intros prev; [apply Htail|].
  cbn [forallb] in Hq. apply andb_true_iff in Hq. destruct Hq as [Hc Hq].
  apply negb_true_iff in Hc. cbn [app].
  rewrite (replace_from_no_match _ _ _ _ _ (scriptElement_needs_lt prev c _ Hc)).
  rewrite (IH Hq). reflexivity.
Qed.

Lemma end_tag_stays (prev : option N) :
  replace_from scriptElement [] 0 prev (lit "</script>") = lit "</script>".
Proof.
  change (lit "</script>") with (60%N :: lit "/script>").
  rewrite replace_from_no_match.
  - reflexivity.
  - unfold match_here. rewrite scriptElement_pattern.
    change (ignoreCase scriptElement) with true.
    change (str (lit "<script"))
      with (Seq (Chr 60%N) (Seq (Chr 115%N) (str (lit "cript")))).
    cbn [rmatch]. reflexivity.
Qed.

Lemma remove_script_nested (q : jsstring) :
  forallb (fun c => negb (c =? 60)%N) q = true ->
  replace scriptElement []
    (lit "<scr" ++ lit "<script></script>" ++ q ++ lit "</script>")
  = lit "<scr" ++ q ++ lit "</script>".
Proof.
  intros Hq. unfold replace.
  change (lit "<scr" ++ lit "<script></script>" ++ q ++ lit "</script>")
    with (60%N :: lit "scr"
          ++ (60%N :: lit "script></script>" ++ q ++ lit "</script>")).
  rewrite replace_from_no_match.
  2:{ unfold match_here. rewrite scriptElement_pattern.
      change (ignoreCase scriptElement) with true.
      change (str (lit "<script"))
        with (Seq (Chr 60%N) (Seq (Chr 115%N) (Seq (Chr 99%N) (Seq (Chr 114%N)
               (Seq (Chr 105%N) (str (lit "pt"))))))).
      cbn [rmatch app lit list_ascii_of_string map].
      reflexivity. }
  change (lit "<scr") with (60%N :: lit "scr"). cbn [app]. f_equal.
  rewrite (remove_script_plain (lit "scr")
             (60%N :: lit "script></script>" ++ q ++ lit "</script>")
             (q ++ lit "</script>")).
  - reflexivity.
  - reflexivity.
  - intros prev.
    rewrite (replace_from_match scriptElement [] prev (Some 62%N) 60%N
               (lit "script></script>") (q ++ lit "</script>")
               (scriptElement_empty prev _)).
    cbn [app]. apply remove_script_plain; [exact Hq|].
    intros p. apply end_tag_stays.
Qed.

Lemma sanitizeText_visible (s : jsstring) :
  forallb URLRoundTrip.visible s = true -> sanitizeText s = s.
Proof.
  intros H.
  assert (Hsp : forallb (fun c => negb (is_space c)) s = true).
  { apply (forallb_weaken URLRoundTrip.visible); [|exact H].
    intros c Hc. rewrite (URLRoundTrip.visible_not_space c Hc). reflexivity. }
  assert (Hlead : forall t, forallb (fun c => negb (is_space c)) t = true ->
                            URLRoundTrip.no_lead t).
  { intros [|c t] Ht; [exact I|]. cbn [forallb] in Ht.
    apply andb_true_iff in Ht. destruct Ht as [Hc _].
    apply negb_true_iff in Hc. exact Hc. }
  rewrite sanitizeText_squeeze, trim_id, filter_all.
  - apply squeeze_single. clear H Hlead. induction s as [|c t IH]; [reflexivity|].
    cbn [forallb] in Hsp. apply andb_true_iff in Hsp.
    destruct Hsp as [Hc Ht]. cbn [single_spaced].
    rewrite Hc, (IH Ht). apply negb_true_iff in Hc. rewrite Hc.
    destruct t; reflexivity.
  - apply (forallb_weaken URLRoundTrip.visible); [|exact H].
    intros c Hc. unfold URLRoundTrip.visible, in_range in Hc.
    apply andb_true_iff in Hc. destruct Hc as [H1 H2].
    apply N.leb_le in H1, H2. unfold is_control, in_range.
    apply negb_true_iff, orb_false_iff. split.
    + apply andb_false_iff. right. apply N.leb_gt. lia.
    + apply andb_false_iff. left. apply N.leb_gt. lia.
  - apply Hlead, Hsp.
  - apply Hlead, URLRoundTrip.forallb_rev, Hsp.
Qed.

(** X12. [sanitizeTitle] removes script elements in a single pass, and
    what it removes can bring the pieces of another one together: for
    every payload of visible ASCII without [<], the title
    [<scr<script></script>ipt>payload</script>] is sanitised to
    [<script>payload</script>]. *)
Theorem sanitizeTitle_can_return_script_element (payload : jsstring) :
  forallb (fun c => URLRoundTrip.visible c && negb (c =? 60)%N) payload = true ->
  sanitizeTitle (lit "<scr<script></script>ipt>" ++ payload ++ lit "</script>")
  = lit "<script>" ++ payload ++ lit "</script>".
Proof.
  intros Hp.
  assert (Hv : forallb URLRoundTrip.visible payload = true).
  { revert Hp. apply forallb_weaken. intros c Hc.
    apply andb_true_iff in Hc. tauto. }
  assert (Hl : forallb (fun c => negb (c =? 60)%N) payload = true).
  { revert Hp. apply forallb_weaken. intros c Hc.
    apply andb_true_iff in Hc. tauto. }
  unfold sanitizeTitle. cbv zeta. rewrite sanitizeText_visible.
  - change (lit "<scr<script></script>ipt>" ++ payload ++ lit "</script>")
      with (lit "<scr" ++ lit "<script></script>"
            ++ (lit "ipt>" ++ payload) ++ lit "</script>").
    rewrite remove_script_nested; [reflexivity|].
    rewrite forallb_app, Hl. reflexivity.
  - rewrite !forallb_app, Hv. reflexivity.
Qed.

Lemma sanitizeTitle_can_return_script_element_witness :
  sanitizeTitle (lit "<scr<script></script>ipt>" ++ lit "alert(1)" ++ lit "</script>")
  = lit "<script>" ++ lit "alert(1)" ++ lit "</script>".
Proof.
  apply (sanitizeTitle_can_return_script_element (lit "alert(1)")).
  reflexivity.
Defined.

End ScriptElement.

(* ===================================================================== *)
(** * Helpers ([src/utils/helpers.ts]): truncateText *)
(* ===================================================================== *)

Module Truncation.

(** [s.substring(start, end)] for integer arguments: both are clamped
    to the text, and swapped when the first is the larger. *)
Definition substring (s : jsstring) (indexStart indexEnd : Z) : jsstring :=
  let len := Z.of_nat (length s) in
  let intStart := Z.min (Z.max indexStart 0) len in
  let intEnd := Z.min (Z.max indexEnd 0) len in
  let from := Z.min intStart intEnd in
  let to := Z.max intStart intEnd in
  firstn (Z.to_nat (to - from)) (skipn (Z.to_nat from) s).

Definition truncateText (text : jsstring) (maxLength : Z) : jsstring :=
  if (Z.of_nat (length text) <=? maxLength)%Z then text
  else substring text 0 (maxLength - 3) ++ lit "...".

End Truncation.

Module TruncationProperties.

Import Truncation.

Lemma substring_prefix (s : jsstring) (n : Z) :
  (0 <= n <= Z.of_nat (length s))%Z ->
  substring s 0 n = firstn (Z.to_nat n) s.
Proof.
  intros Hn. unfold substring. cbv zeta.
  replace (Z.min (Z.max 0 0) (Z.of_nat (length s))) with 0%Z by lia.
  replace (Z.min (Z.max n 0) (Z.of_nat (length s))) with n by lia.
  replace (Z.min 0 n) with 0%Z by lia.
  replace (Z.max 0 n) with n by lia.
  rewrite Z.sub_0_r. reflexivity.
Qed.

(** X13. With a limit of 3 or more, [truncateText] returns at most
    [maxLength] code units: the text itself when it fits, and otherwise
    its first [maxLength - 3] code units followed by three dots. *)
Theorem truncateText_within_limit (text : jsstring) (maxLength : Z) :
  (3 <= maxLength)%Z ->
  (Z.of_nat (length (truncateText text maxLength)) <= maxLength)%Z
  /\ (truncateText text maxLength = text
      \/ (maxLength < Z.of_nat (length text))%Z
         /\ truncateText text maxLength
            = firstn (Z.to_nat (maxLength - 3)) text ++ lit "...").
Proof.
  intros Hmax. unfold truncateText.
  destruct (Z.of_nat (length text) <=? maxLength)%Z eqn:E.
  - apply Z.leb_le in E. split; [exact E|left; reflexivity].
  - apply Z.leb_gt in E. rewrite substring_prefix by lia. split.
    + rewrite length_app, length_firstn. cbn [lit list_ascii_of_string map length].
      lia.
    + right. split; [exact E|reflexivity].
Qed.

Lemma truncateText_within_limit_witness :
  (3 <= 10)%Z
  /\ truncateText (lit "Space Invaders") 10 = lit "Space I..."
  /\ (Z.of_nat (length (truncateText (lit "Space Invaders") 10)) <= 10)%Z.
Proof.
  split; [lia|]. split; [reflexivity|].
  apply (truncateText_within_limit (lit "Space Invaders") 10). lia.
Defined.

(** X14. With a limit below 3, a text that does not fit is replaced by
    three dots, which exceed the limit. *)
Theorem truncateText_small_limit (text : jsstring) (maxLength : Z) :
  (maxLength < 3)%Z -> (maxLength < Z.of_nat (length text))%Z ->
  truncateText text maxLength = lit "...".
Proof.
  intros Hmax Hlen. unfold truncateText.
  destruct (Z.of_nat (length text) <=? maxLength)%Z eqn:E;
    [apply Z.leb_le in E; lia|].
  unfold substring. cbv zeta.
  replace (Z.min (Z.max 0 0) (Z.of_nat (length text))) with 0%Z by lia.
  replace (Z.min (Z.max (maxLength - 3) 0) (Z.of_nat (length text)))
    with 0%Z by lia.
  reflexivity.
Qed.

Lemma truncateText_small_limit_witness :
  (2 < 3)%Z /\ (2 < Z.of_nat (length (lit "Pong")))%Z
  /\ truncateText (lit "Pong") 2 = lit "...".
Proof.
  split; [lia|]. split; [cbn; lia|].
  apply (truncateText_small_limit (lit "Pong") 2); [lia|cbn; lia].
Defined.

End TruncationProperties.

(* ===================================================================== *)
(** * Validation of game data: properties *)
(* ===================================================================== *)

Module ValidationProperties.

Import Helpers VALIDATION_LIMITS.

Lemma tagErrors_none (tags : list jsstring) (index : nat) :
  tagErrors index tags = []
  <-> forallb (fun tag => (length tag <=? TAG_MAX_LENGTH)%nat) tags = true.
Proof.
  revert index. induction tags as [|tag rest IH]; intros index.
  - split; reflexivity.
  - cbn [tagErrors forallb]. rewrite Nat.ltb_antisym.
    destruct (length tag <=? TAG_MAX_LENGTH)%nat; cbn [negb andb app].
    + apply IH.
    + split; discriminate.
Qed.

(** The limits of the data model, on the data of a submission. *)
Definition within_limits (data : GameSubmissionData) : bool :=
  truthy (trim (sub_title data))
  && (length (sub_title data) <=? TITLE_MAX_LENGTH)%nat
  && truthy (trim (sub_url data))
  && negb (too_long (sub_description data) DESCRIPTION_MAX_LENGTH)
  && negb (too_long (sub_author data) AUTHOR_MAX_LENGTH)
  && (length (sub_tags data) <=? MAX_TAGS)%nat
  && forallb (fun tag => (length tag <=? TAG_MAX_LENGTH)%nat) (sub_tags data).

Lemma length_zero_nil (A : Type) (l : list A) :
  (length l =? 0)%nat = true <-> l = [].
Proof.
  destruct l; cbn; split; try reflexivity; discriminate.
Qed.

Lemma validateGameData_within_limits (data : GameSubmissionData) :
  fst (validateGameData data) = within_limits data.
Proof.
  unfold validateGameData, within_limits. cbn [fst].
  apply eq_true_iff_eq. rewrite length_zero_nil.
  rewrite !andb_true_iff.
  rewrite <- (tagErrors_none (sub_tags data) 0).
  rewrite !Nat.ltb_antisym.
  destruct (truthy (trim (sub_title data))),
    (length (sub_title data) <=? TITLE_MAX_LENGTH)%nat,
    (truthy (trim (sub_url data))),
    (too_long (sub_description data) DESCRIPTION_MAX_LENGTH),
    (too_long (sub_author data) AUTHOR_MAX_LENGTH),
    (length (sub_tags data) <=? MAX_TAGS)%nat;
    cbn [negb app]; try (split; [discriminate|]; intros H; decompose [and] H;
                         discriminate).
  tauto.
Qed.

(** X15. [validateGameData] accepts the data exactly when they are
    within the limits of the data model: a title that is not blank and
    has at most 100 code units, a URL that is not blank, a description
    of at most 500 and an author of at most 50 code units when present,
    at most 10 tags, each of at most 20 code units; and it reports no
    error exactly when it accepts. *)
Theorem validateGameData_accepts (data : GameSubmissionData) :
  fst (validateGameData data) = within_limits data
  /\ (snd (validateGameData data) = [] <-> fst (validateGameData data) = true).
Proof.
  split; [apply validateGameData_within_limits|].
  unfold validateGameData. cbn [fst snd]. symmetry. apply length_zero_nil.
Qed.

End ValidationProperties.

(* ===================================================================== *)
(** * The tag controls of the submission form
      ([src/components/game/GameSubmission.tsx]) *)
(* ===================================================================== *)

Module TagControls.

Import VALIDATION_LIMITS Sanitization.

(** The part of the component's state the tag controls work on:
    [formData.tags] and [tagInput]. *)
Record FormState : Type := {
  form_tags : list jsstring;
  tagInput : jsstring
}.

Definition initial : FormState := {| form_tags := []; tagInput := [] |}.

(** [setTagInput(e.target.value)] *)
Definition setTagInput (text : jsstring) (st : FormState) : FormState :=
  {| form_tags := form_tags st; tagInput := text |}.

Definition handleTagAdd (st : FormState) : FormState :=
  if negb (truthy (trim (tagInput st)))
     || (MAX_TAGS <=? length (form_tags st))%nat
  then st
  else
    let newTag := trim (tagInput st) in
    {| form_tags :=
         if negb (existsb (eqb newTag) (form_tags st))
         then form_tags st ++ [newTag]
         else form_tags st;
       tagInput := [] |}.

Definition handleTagRemove (indexToRemove : nat) (st : FormState) : FormState :=
  {| form_tags :=
       filter_from (fun _ index => negb (index =? indexToRemove)%nat) 0
         (form_tags st);
     tagInput := tagInput st |}.

(** What the user does with the tag controls. *)
Inductive event : Type :=
| Type_ (text : jsstring)
| Add
| Remove (index : nat).

Definition handle (st : FormState) (e : event) : FormState :=
  match e with
  | Type_ text => setTagInput text st
  | Add => handleTagAdd st
  | Remove index => handleTagRemove index st
  end.

End TagControls.

Module TagControlsProperties.

Import VALIDATION_LIMITS Sanitization TagControls.

(** Each tag is trimmed and not empty, no tag occurs twice, and there
    are at most [MAX_TAGS] of them. *)
Definition tidy (tags : list jsstring) : Prop :=
  (length tags <= MAX_TAGS)%nat
  /\ NoDup tags
  /\ Forall (fun tag => truthy tag = true /\ trim tag = tag) tags.

Lemma existsb_eqb_In (x : jsstring) (l : list jsstring) :
  existsb (eqb x) l = false -> ~ In x l.
Proof.
  intros H Hin. assert (E : existsb (eqb x) l = true).
  { apply existsb_exists. exists x. split; [exact Hin|apply eqb_refl]. }
  rewrite E in H. discriminate H.
Qed.

Lemma filter_from_sub (A : Type) (f : A -> nat -> bool) (l : list A) :
  forall index,
    (length (filter_from f index l) <= length l)%nat
    /\ (forall x, In x (filter_from f index l) -> In x l)
    /\ (NoDup l -> NoDup (filter_from f index l)).
Proof.
  induction l as [|x t IH]; intros index.
  - repeat split; auto.
  - cbn [filter_from]. destruct (IH (S index)) as (Hlen & Hin & Hnd).
    destruct (f x index).
    + repeat split.
      * cbn [length]. lia.
      * intros y [->|Hy]; [left; reflexivity|right; apply Hin, Hy].
      * intros H. inversion H as [|? ? Hx Ht]; subst. constructor.
        -- intros Hx'. apply Hx, Hin, Hx'.
        -- apply Hnd, Ht.
    + repeat split.
      * cbn [length]. lia.
      * intros y Hy. right. apply Hin, Hy.
      * intros H. inversion H; subst. apply Hnd. assumption.
Qed.

Lemma handle_tidy (st : FormState) (e : event) :
  tidy (form_tags st) -> tidy (form_tags (handle st e)).
Proof.
  intros (Hlen & Hnd & Hall). destruct e as [text| |index]; cbn [handle].
  - exact (conj Hlen (conj Hnd Hall)).
  - unfold handleTagAdd.
    destruct (truthy (trim (tagInput st))) eqn:Ht; cbn [negb orb];
      [|exact (conj Hlen (conj Hnd Hall))].
    destruct (MAX_TAGS <=? length (form_tags st))%nat eqn:Hfull;
      [exact (conj Hlen (conj Hnd Hall))|].
    apply Nat.leb_gt in Hfull. cbv zeta. cbn [form_tags].
    destruct (existsb (eqb (trim (tagInput st))) (form_tags st)) eqn:Hin;
      cbn [negb]; [exact (conj Hlen (conj Hnd Hall))|].
    apply existsb_eqb_In in Hin. repeat split.
    + rewrite length_app. cbn [length]. lia.
    + apply NoDup_app; [exact Hnd|repeat constructor; auto|].
      intros x Hx [<-|[]]. exact (Hin Hx).
    + apply Forall_app. split; [exact Hall|]. constructor; [|constructor].
      split; [exact Ht|apply URLRoundTrip.trim_trim].
  - unfold handleTagRemove. cbn [form_tags].
    destruct (filter_from_sub jsstring
                (fun (_ : jsstring) i => negb (i =? index)%nat)
                (form_tags st) 0) as (Hl & Hi & Hn).
    repeat split.
    + lia.
    + apply Hn, Hnd.
    + rewrite Forall_forall in *. intros x Hx. apply Hall, Hi, Hx.
Qed.

(** X16. Whatever the user types, adds and removes, the tag list of the
    form holds at most 10 tags, none of them twice, each trimmed and not
    empty. *)
Theorem tag_controls_keep_tags_tidy (events : list event) :
  tidy (form_tags (fold_left handle events initial)).
Proof.
  assert (H : forall st, tidy (form_tags st) ->
                         tidy (form_tags (fold_left handle events st))).
  { induction events as [|e events IH]; intros st Hst; [exact Hst|].
    cbn [fold_left]. apply IH, handle_tidy, Hst. }
  apply H. repeat split; [cbn; unfold MAX_TAGS; lia|constructor|constructor].
Qed.

End TagControlsProperties.

(* ===================================================================== *)
(** * GameStorage over localStorage: further properties *)
(* ===================================================================== *)

Module LocalStorageMore.

Import GameStorage.

Section Platform.

Variable Unicode_ToASCII : list N -> option jsstring.
Variable setItem_throws : localStorage -> list Game -> option DOMException.

Lemma getAll_stored (st : localStorage) : getAll st = (Returns (stored st), st).
Proof. unfold getAll, stored. destruct (GAMES st); reflexivity. Qed.

Lemma saveGames_returns (games : list Game) (st st' : localStorage) :
  saveGames setItem_throws games st = (Returns tt, st') ->
  stored st' = games /\ APP_STATE st' = APP_STATE st.
Proof.
  unfold saveGames. destruct (setItem_throws st games) as [[|]|];
    intros [= <-]; split; reflexivity.
Qed.

(** The record [save] builds. *)
Definition newGame (uuid now : jsstring) (game : NewGame) (n : jsstring) : Game :=
  {| id := uuid;
     title := trim (new_title game);
     url := n;
     description := option_map trim (new_description game);
     author := option_map trim (new_author game);
     tags := filter truthy (map (fun tag => trim tag) (new_tags game));
     submittedAt := now;
     featured := false;
     playCount := 0;
     status := active |}.

Lemma save_returns (uuid now : jsstring) (game : NewGame)
    (st st' : localStorage) :
  save Unicode_ToASCII setItem_throws uuid now game st = (Returns tt, st') ->
  exists n,
    URLValidator.validate Unicode_ToASCII (new_url game) = URLValidator.accepted n
    /\ stored st' = stored st ++ [newGame uuid now game n].
Proof.
  unfold save, validateUrl.
  destruct (validate_cases Unicode_ToASCII (new_url game))
    as [[msg E]|(u & _ & _ & _ & _ & E)]; rewrite E.
  - discriminate.
  - cbn [isValid URLValidator.accepted negb normalizedUrl or_else].
    unfold bind. rewrite getAll_stored. intros H.
    apply saveGames_returns in H. destruct H as [H _].
    exists (WHATWG.toString u). split; [reflexivity|exact H].
Qed.

Lemma find_app_fresh (p : Game -> bool) (games : list Game) (g : Game) :
  forallb (fun x => negb (p x)) games = true ->
  find p (games ++ [g]) = if p g then Some g else None.
Proof.
  induction games as [|x t IH]; [reflexivity|]. cbn [forallb app find].
  intros H. apply andb_true_iff in H. destruct H as [Hx Ht].
  apply negb_true_iff in Hx. rewrite Hx. apply IH, Ht.
Qed.

(** X17. A game saved under an id no stored game has is what
    [getById] returns for that id afterwards: the trimmed title, the
    normalized URL, the trimmed description and author, the trimmed
    tags without the empty ones, no play, not featured, active,
    whatever the caller passed for [featured] and [status]; the games
    stored before stay, in their order, in front of it. *)
Theorem save_then_getById (uuid now : jsstring) (game : NewGame)
    (st st' : localStorage) :
  forallb (fun g => negb (eqb (id g) uuid)) (stored st) = true ->
  save Unicode_ToASCII setItem_throws uuid now game st = (Returns tt, st') ->
  exists n,
    URLValidator.validate Unicode_ToASCII (new_url game) = URLValidator.accepted n
    /\ getById uuid st' = (Returns (Some (newGame uuid now game n)), st')
    /\ stored st' = stored st ++ [newGame uuid now game n].
Proof.
  intros Hfresh H. destruct (save_returns _ _ _ _ _ H) as (n & Hn & Hst).
  exists n. split; [exact Hn|]. split; [|exact Hst].
  unfold getById, bind. rewrite getAll_stored, Hst. cbn [ret].
  rewrite (find_app_fresh _ _ _ Hfresh). cbn [newGame id].
  rewrite eqb_refl. reflexivity.
Qed.

(** ** delete *)

Lemma delete_returns (gameId : jsstring) (st st' : localStorage) :
  delete setItem_throws gameId st = (Returns tt, st') ->
  stored st' = filter (fun game => negb (eqb (id game) gameId)) (stored st).
Proof.
  unfold delete, bind. rewrite getAll_stored. intros H.
  apply saveGames_returns in H. apply H.
Qed.

Lemma find_filter_other (p q : Game -> bool) (games : list Game) :
  (forall g, p g = true -> q g = true) ->
  find p (filter q games) = find p games.
Proof.
  intros Hpq. induction games as [|x t IH]; [reflexivity|].
  cbn [filter find]. destruct (p x) eqn:Hp.
  - rewrite (Hpq x Hp). cbn [find]. rewrite Hp. reflexivity.
  - destruct (q x); [cbn [find]; rewrite Hp|]; exact IH.
Qed.

Lemma find_filter_none (p : Game -> bool) (games : list Game) :
  find p (filter (fun g => negb (p g)) games) = None.
Proof.
  induction games as [|x t IH]; [reflexivity|]. cbn [filter].
  destruct (p x) eqn:Hp; cbn [negb]; [exact IH|].
  cbn [find]. rewrite Hp. exact IH.
Qed.

Lemma eqb_neq (a b : jsstring) : a <> b -> eqb a b = false.
Proof.
  intros H. destruct (eqb a b) eqn:E; [|reflexivity].
  apply eqb_eq in E. contradiction.
Qed.

Lemma filter_find_none (p : Game -> bool) (games : list Game) :
  find p games = None -> filter (fun g => negb (p g)) games = games.
Proof.
  induction games as [|x t IH]; [reflexivity|]. cbn [find filter].
  destruct (p x); [discriminate|]. intros H. cbn [negb]. f_equal. exact (IH H).
Qed.

(** X18. [delete] fails only when the write of the remaining games
    fails, whether or not a game is stored under the id: when that write
    goes through, [delete] returns, [getById] then finds no game under
    the deleted id and finds under every other id what it found before,
    and when no game was stored under the id the stored collection is
    the one there was. *)
Theorem delete_removes_that_game_only (gameId : jsstring) (st : localStorage) :
  setItem_throws st
    (filter (fun game => negb (eqb (id game) gameId)) (stored st)) = None ->
  exists st',
    delete setItem_throws gameId st = (Returns tt, st')
    /\ fst (getById gameId st') = Returns None
    /\ (forall other, other <> gameId ->
          fst (getById other st') = fst (getById other st))
    /\ (fst (getById gameId st) = Returns None -> stored st' = stored st).
Proof.
  intros Hwrite.
  exists {| GAMES := Stored (filter (fun game => negb (eqb (id game) gameId))
                              (stored st));
            APP_STATE := APP_STATE st |}.
  split.
  { unfold delete, bind. rewrite getAll_stored. unfold saveGames.
    rewrite Hwrite. reflexivity. }
  unfold getById, bind. rewrite !getAll_stored. cbn [ret fst stored GAMES].
  split; [|split].
  - f_equal. apply (find_filter_none (fun game => eqb (id game) gameId)).
  - intros other Hother. f_equal. apply find_filter_other.
    intros g Hg. apply eqb_eq in Hg. apply negb_true_iff, eqb_neq.
    rewrite Hg. exact Hother.
  - intros [= Hnone].
    apply (filter_find_none (fun game => eqb (id game) gameId)). exact Hnone.
Qed.

(** ** update *)

Lemma findIndex_split (p : Game -> bool) (games : list Game) (i : nat) :
  findIndex p games = Some i ->
  exists pre x post,
    games = pre ++ x :: post /\ length pre = i /\ p x = true
    /\ forall y, In y pre -> p y = false.
Proof.
  revert i. induction games as [|g t IH]; intros i; [discriminate|].
  cbn [findIndex]. destruct (p g) eqn:Hg.
  - intros [= <-]. exists [], g, t. repeat split; auto. intros y [].
  - destruct (findIndex p t) as [j|]; [|discriminate]. intros [= <-].
    destruct (IH j eq_refl) as (pre & x & post & -> & Hlen & Hx & Hpre).
    exists (g :: pre), x, post. repeat split; cbn [length]; auto.
    intros y [<-|Hy]; [exact Hg|apply Hpre, Hy].
Qed.

Lemma find_other (q : Game -> bool) (pre post : list Game) (x x' : Game) :
  q x = false -> q x' = false ->
  find q (pre ++ x' :: post) = find q (pre ++ x :: post).
Proof.
  intros Hx Hx'. induction pre as [|y pre IH]; cbn [app find].
  - rewrite Hx, Hx'. reflexivity.
  - destruct (q y); [reflexivity|exact IH].
Qed.

(** The updates [update] merges into the game: those it was given,
    with the URL, if there is one and it is not empty, normalized. *)
Definition normalized (updates : GameUpdates) : GameUpdates :=
  {| upd_id := upd_id updates;
     upd_title := upd_title updates;
     upd_url := match upd_url updates with
                | Some u =>
                    if truthy u
                    then normalizedUrl (URLValidator.validate Unicode_ToASCII u)
                    else Some u
                | None => None
                end;
     upd_description := upd_description updates;
     upd_author := upd_author updates;
     upd_tags := upd_tags updates;
     upd_submittedAt := upd_submittedAt updates;
     upd_featured := upd_featured updates;
     upd_playCount := upd_playCount updates;
     upd_status := upd_status updates |}.

Lemma update_returns (gameId : jsstring) (updates : GameUpdates)
    (st st' : localStorage) :
  update Unicode_ToASCII setItem_throws gameId updates st = (Returns tt, st') ->
  exists pre old post,
    stored st = pre ++ old :: post
    /\ eqb (id old) gameId = true
    /\ (forall y, In y pre -> eqb (id y) gameId = false)
    /\ stored st' = pre ++ spread old (normalized updates) :: post
    /\ match upd_url updates with
       | Some u =>
           truthy u = true ->
           isValid (URLValidator.validate Unicode_ToASCII u) = true
       | None => True
       end.
Proof.
  unfold update, bind at 1. rewrite getAll_stored.
  destruct (findIndex _ (stored st)) as [i|] eqn:Hi; [|discriminate].
  destruct (findIndex_split _ _ _ Hi) as (pre & old & post & Hst & <- & Hold & Hpre).
  rewrite Hst. intros H. exists pre, old, post.
  split; [reflexivity|]. split; [exact Hold|]. split; [exact Hpre|].
  revert H. unfold bind, validateUrl.
  destruct updates as [uid utitle uurl udesc uauthor utags usub ufeat uplay ustat].
  unfold normalized. cbn [upd_id upd_title upd_url upd_description upd_author
                          upd_tags upd_submittedAt upd_featured upd_playCount
                          upd_status].
  destruct uurl as [u|].
  - destruct (truthy u) eqn:Hu.
    + destruct (isValid (URLValidator.validate Unicode_ToASCII u)) eqn:Hv;
        cbn [negb]; [|discriminate].
      cbn [ret].
      rewrite (proj1 (assign_middle pre post old old)).
      rewrite (proj2 (assign_middle pre post old _)). intros H.
      apply saveGames_returns in H. split; [apply H|reflexivity].
    + cbn [ret].
      rewrite (proj1 (assign_middle pre post old old)).
      rewrite (proj2 (assign_middle pre post old _)). intros H.
      apply saveGames_returns in H. split; [apply H|discriminate].
  - cbn [ret].
    rewrite (proj1 (assign_middle pre post old old)).
    rewrite (proj2 (assign_middle pre post old _)). intros H.
    apply saveGames_returns in H. split; [apply H|exact I].
Qed.

(** X19. After [update] has returned on updates that leave the id
    alone, [getById] finds under that id the game it found before with
    the updates merged in, and under every other id what it found
    before.  A URL among the updates is stored in its normalized form
    if it is not empty; an empty one is stored as it is, without
    validation. *)
Theorem update_then_getById (gameId : jsstring) (updates : GameUpdates)
    (st st' : localStorage) :
  upd_id updates = None ->
  update Unicode_ToASCII setItem_throws gameId updates st = (Returns tt, st') ->
  exists old,
    fst (getById gameId st) = Returns (Some old)
    /\ fst (getById gameId st')
       = Returns (Some (spread old (normalized updates)))
    /\ (forall other, other <> gameId ->
          fst (getById other st') = fst (getById other st))
    /\ match upd_url updates with
       | Some u =>
           if truthy u
           then URLValidator.validate Unicode_ToASCII u
                = URLValidator.accepted (url (spread old (normalized updates)))
           else url (spread old (normalized updates)) = []
       | None => url (spread old (normalized updates)) = url old
       end.
Proof.
  intros Hid H.
  destruct (update_returns _ _ _ _ H)
    as (pre & old & post & Hst & Hold & Hpre & Hst' & Hurl).
  exists old. unfold getById, bind. rewrite !getAll_stored, Hst, Hst'.
  cbn [ret fst].
  assert (Hnew : eqb (id (spread old (normalized updates))) gameId = true).
  { cbn [spread id normalized upd_id]. rewrite Hid. exact Hold. }
  split; [|split; [|split]].
  - f_equal. apply (find_first gameId pre post old Hpre Hold).
  - f_equal. apply (find_first gameId pre post _ Hpre Hnew).
  - intros other Hother. f_equal. apply find_other.
    + apply eqb_eq in Hold. rewrite Hold. apply eqb_neq.
      intros E. apply Hother. symmetry. exact E.
    + apply eqb_eq in Hnew. rewrite Hnew. apply eqb_neq.
      intros E. apply Hother. symmetry. exact E.
  - cbn [spread url normalized upd_url].
    destruct (upd_url updates) as [u|]; [|reflexivity].
    destruct (truthy u) eqn:Hu.
    + specialize (Hurl eq_refl).
      destruct (validate_cases Unicode_ToASCII u)
        as [[msg E]|(o & _ & _ & _ & _ & E)]; rewrite E in Hurl |- *;
        [discriminate Hurl|reflexivity].
    + destruct u; [reflexivity|discriminate Hu].
Qed.

End Platform.

End LocalStorageMore.

Lemma save_then_getById_witness :
  let game := {| new_title := lit " Tetris "; new_url := lit "codepen.io/z";
                 new_description := None; new_author := Some (lit "Alexey ");
                 new_tags := [lit " puzzle"; lit "  "];
                 new_featured := true; new_status := hidden |} in
  let st' := snd (GameStorage.save (fun _ => None) (fun _ _ => None)
                    (lit "3") (lit "2024-01-03T10:00:00.000Z") game arcade) in
  GameStorage.getById (lit "3") st'
  = (Returns
       (Some {| id := lit "3"; title := lit "Tetris";
                url := lit "https://codepen.io/z"; description := None;
                author := Some (lit "Alexey"); tags := [lit "puzzle"];
                submittedAt := lit "2024-01-03T10:00:00.000Z";
                featured := false; playCount := 0; status := active |}), st').
Proof.
  intros game st'.
  destruct (LocalStorageMore.save_then_getById (fun _ => None) (fun _ _ => None)
              (lit "3") (lit "2024-01-03T10:00:00.000Z") game arcade st')
    as (n & Hn & Hget & _); [reflexivity|reflexivity|].
  rewrite Hget. vm_compute in Hn. injection Hn as <-. reflexivity.
Defined.

Lemma delete_removes_that_game_only_witness :
  (exists st',
     GameStorage.delete (fun _ _ => None) (lit "9") arcade = (Returns tt, st')
     /\ stored st' = [snake; pong])
  /\ (exists st',
        GameStorage.delete (fun _ _ => None) (lit "1") arcade = (Returns tt, st')
        /\ fst (GameStorage.getById (lit "1") st') = Returns None
        /\ fst (GameStorage.getById (lit "2") st') = Returns (Some pong)).
Proof.
  split.
  - destruct (LocalStorageMore.delete_removes_that_game_only (fun _ _ => None)
                (lit "9") arcade eq_refl) as (st' & Hrun & _ & _ & Hsame).
    exists st'. split; [exact Hrun|]. exact (Hsame eq_refl).
  - destruct (LocalStorageMore.delete_removes_that_game_only (fun _ _ => None)
                (lit "1") arcade eq_refl) as (st' & Hrun & Hgone & Hkept & _).
    exists st'. split; [exact Hrun|]. split; [exact Hgone|].
    rewrite (Hkept (lit "2")); [reflexivity|discriminate].
Defined.

Lemma update_then_getById_witness :
  let updates := {| upd_id := None; upd_title := Some (lit "Snake II");
                    upd_url := Some []; upd_description := None;
                    upd_author := None; upd_tags := None;
                    upd_submittedAt := None; upd_featured := Some true;
                    upd_playCount := None; upd_status := None |} in
  let st' := snd (GameStorage.update (fun _ => None) (fun _ _ => None)
                    (lit "1") updates arcade) in
  exists old,
    fst (GameStorage.getById (lit "1") arcade) = Returns (Some old)
    /\ fst (GameStorage.getById (lit "1") st')
       = Returns (Some (spread old (LocalStorageMore.normalized (fun _ => None)
                                      updates)))
    /\ url (spread old (LocalStorageMore.normalized (fun _ => None) updates)) = [].
Proof.
  intros updates st'.
  destruct (LocalStorageMore.update_then_getById (fun _ => None)
              (fun _ _ => None) (lit "1") updates arcade st' eq_refl eq_refl)
    as (old & H1 & H2 & _ & H3).
  exists old. split; [exact H1|]. split; [exact H2|exact H3].
Defined.

(* ===================================================================== *)
(** * The submission form, end to end *)
(* ===================================================================== *)

Module SubmissionProperties.

Import Sanitization Helpers GameStorage GameSubmission VALIDATION_LIMITS.
Import SanitizationProperties ValidationProperties LocalStorageMore.

Section Platform.

Variable Unicode_ToASCII : list N -> option jsstring.
Variable setItem_throws : localStorage -> list Game -> option DOMException.

(** What the form hands to [validateGameData] and then to [addGame]. *)
Definition sanitizedData (formData : GameSubmissionData) : GameSubmissionData :=
  {| sub_title := sanitizeTitle (sub_title formData);
     sub_url := trim (sub_url formData);
     sub_description := when_present sanitizeDescription (sub_description formData);
     sub_author := when_present sanitizeAuthor (sub_author formData);
     sub_tags := sanitizeTags (sub_tags formData) |}.

(** The limits of the data model, on a stored game. *)
Definition game_within_limits (game : Game) : Prop :=
  (TITLE_MIN_LENGTH <= length (title game) <= TITLE_MAX_LENGTH)%nat
  /\ (forall d, description game = Some d ->
                (length d <= DESCRIPTION_MAX_LENGTH)%nat)
  /\ (forall a, author game = Some a -> (length a <= AUTHOR_MAX_LENGTH)%nat)
  /\ (length (tags game) <= MAX_TAGS)%nat
  /\ Forall (fun tag => (1 <= length tag <= TAG_MAX_LENGTH)%nat) (tags game).

Lemma truthy_length (s : jsstring) : truthy s = true -> (1 <= length s)%nat.
Proof. destruct s; [discriminate|]. cbn [length]. lia. Qed.

Lemma too_long_trim (text : option jsstring) (limit : nat) (t : jsstring) :
  too_long text limit = false -> option_map trim text = Some t ->
  (length t <= limit)%nat.
Proof.
  destruct text as [x|]; [|discriminate]. cbn [too_long option_map].
  intros H [= <-]. pose proof (trim_length x) as Hx.
  destruct x as [|c x]; [cbn in *; lia|]. cbn [truthy andb] in H.
  apply Nat.ltb_ge in H. lia.
Qed.

Lemma trimmed_tags (tags : list jsstring) :
  forallb (fun tag => (length tag <=? TAG_MAX_LENGTH)%nat) tags = true ->
  Forall (fun tag => (1 <= length tag <= TAG_MAX_LENGTH)%nat)
    (filter truthy (map (fun tag => trim tag) tags)).
Proof.
  induction tags as [|tag rest IH]; [constructor|]. cbn [forallb map filter].
  intros H. apply andb_true_iff in H. destruct H as [Htag Hrest].
  apply Nat.leb_le in Htag. pose proof (trim_length tag).
  destruct (truthy (trim tag)) eqn:Ht; [|exact (IH Hrest)].
  constructor; [|exact (IH Hrest)]. apply truthy_length in Ht. lia.
Qed.

Lemma filter_map_length (tags : list jsstring) :
  (length (filter truthy (map (fun tag => trim tag) tags)) <= length tags)%nat.
Proof.
  pose proof (filter_length_le truthy (map (fun tag => trim tag) tags)) as H.
  rewrite length_map in H. exact H.
Qed.

Lemma stored_within_limits (data : GameSubmissionData) (uuid now n : jsstring) :
  within_limits data = true ->
  game_within_limits
    (newGame uuid now
       {| new_title := sub_title data; new_url := sub_url data;
          new_description := sub_description data;
          new_author := sub_author data; new_tags := sub_tags data;
          new_featured := false; new_status := active |} n).
Proof.
  unfold within_limits. rewrite !andb_true_iff.
  intros ((((((Htitle & Hlen) & _) & Hdesc) & Hauthor) & Htags) & Heach).
  apply Nat.leb_le in Hlen, Htags. apply negb_true_iff in Hdesc, Hauthor.
  unfold game_within_limits, newGame.
  cbn [title description author tags new_title new_description new_author
       new_tags].
  repeat split.
  - apply truthy_length, Htitle.
  - pose proof (trim_length (sub_title data)). lia.
  - intros d Hd. exact (too_long_trim _ _ _ Hdesc Hd).
  - intros a Ha. exact (too_long_trim _ _ _ Hauthor Ha).
  - pose proof (filter_map_length (sub_tags data)). lia.
  - apply trimmed_tags, Heach.
Qed.

Lemma validate_trim (url : jsstring) :
  URLValidator.validate Unicode_ToASCII (trim url)
  = URLValidator.validate Unicode_ToASCII url.
Proof. unfold URLValidator.validate. rewrite URLRoundTrip.trim_trim. reflexivity. Qed.

(** X20. [handleSubmit] never fails with an exception: it ends with the
    list of errors the form shows.  When the list is empty the store
    holds one game more, at the end: a game with the id and time of
    this submission, not featured, active and never played, with the
    normalized form of the URL entered, and within the limits of the
    data model.  When the list is not empty the store is as it was. *)
Theorem handleSubmit_stores_valid_game_or_nothing
    (formData : GameSubmissionData) (urlIsValid : option bool)
    (urlError : option jsstring) (uuid now : jsstring) (st : localStorage) :
  exists errors st',
    handleSubmit Unicode_ToASCII setItem_throws formData urlIsValid urlError
      uuid now st = (Returns errors, st')
    /\ ((errors <> [] /\ st' = st)
        \/ (errors = []
            /\ exists game,
                 stored st' = stored st ++ [game]
                 /\ id game = uuid /\ submittedAt game = now
                 /\ featured game = false /\ playCount game = 0%Z
                 /\ status game = active
                 /\ URLValidator.validate Unicode_ToASCII (sub_url formData)
                    = URLValidator.accepted (url game)
                 /\ game_within_limits game)).
Proof.
  unfold handleSubmit. fold (sanitizedData formData).
  pose proof (validateGameData_within_limits (sanitizedData formData)) as Hv.
  destruct (validateGameData (sanitizedData formData)) as [valid errors] eqn:E.
  cbn [fst snd] in *.
  assert (Herr : errors = [] <-> valid = true).
  { pose proof (f_equal fst E) as E1. pose proof (f_equal snd E) as E2.
    unfold validateGameData in E1, E2. cbn [fst snd] in E1, E2.
    rewrite <- E1, <- E2. symmetry. apply length_zero_nil. }
  destruct valid; cbn [negb].
  2:{ exists errors, st. split; [reflexivity|]. left.
      split; [|reflexivity]. intros H. apply Herr in H. discriminate H. }
  destruct (or_else urlIsValid false); cbn [negb].
  2:{ eexists _, st. split; [reflexivity|]. left.
      split; [discriminate|reflexivity]. }
  unfold bind, addGame.
  destruct (save Unicode_ToASCII setItem_throws uuid now _ st)
    as [[[]|e] st'] eqn:Hsave.
  - exists [], st'. split; [reflexivity|]. right. split; [reflexivity|].
    destruct (save_returns _ _ _ _ _ _ _ Hsave) as (n & Hn & Hst).
    eexists. split; [exact Hst|].
    cbn [newGame id submittedAt featured playCount status url].
    repeat (split; [reflexivity|]). split.
    + cbn [new_url sanitizedData sub_url] in Hn. rewrite validate_trim in Hn.
      exact Hn.
    + apply stored_within_limits. symmetry. exact Hv.
  - eexists _, st'. split; [reflexivity|]. left. split; [discriminate|].
    apply (save_throws _ _ _ _ _ _ _ _ Hsave).
Qed.

End Platform.

End SubmissionProperties.

(* ===================================================================== *)
(** * The gallery ([src/components/game/GameGallery.tsx]) *)
(* ===================================================================== *)

Module GameGallery.

(** [APP_CONFIG.PAGINATION_SIZE] *)
Definition PAGINATION_SIZE : Z := 12.

(** The [filters] state of the component.  It is a [GameFilters] object
    all of whose fields are set, from [useState] on. *)
Record FilterState : Type := {
  state_tags : list jsstring;
  state_featured : bool;
  state_searchTerm : jsstring;
  state_status : StatusFilter
}.

Definition initialFilters : FilterState :=
  {| state_tags := []; state_featured := false; state_searchTerm := [];
     state_status := only active |}.

(** The object as [GameStorage.getFiltered] receives it. *)
Definition asGameFilters (filters : FilterState) : GameFilters :=
  {| searchTerm := Some (state_searchTerm filters);
     filter_tags := Some (state_tags filters);
     filter_featured := Some (state_featured filters);
     filter_status := Some (state_status filters) |}.

Section Platform.

Variable toLowerCase : jsstring -> jsstring.

(** The predicate of [propGames.filter(...)], for games handed to the
    component. *)
Definition clientFilter (filters : FilterState) (game : Game) : bool :=
  if match state_status filters with
     | only s => negb (Status_eqb (status game) s)
     | all => false
     end
  then false
  else if state_featured filters && negb (featured game)
  then false
  else if truthy (state_searchTerm filters)
          && negb (matchesSearch toLowerCase
                     (toLowerCase (state_searchTerm filters)) game)
  then false
  else if (0 <? length (state_tags filters))%nat
          && negb (existsb (fun filterTag =>
                     existsb (fun gameTag =>
                       includes (toLowerCase gameTag) (toLowerCase filterTag))
                       (tags game))
                     (state_tags filters))
  then false
  else true.

(** [filteredGames] when the games are handed to the component. *)
Definition filteredProps (filters : FilterState) (propGames : list Game)
  : list Game :=
  filter (clientFilter filters) propGames.

End Platform.

(** [arr.slice(start, end)] for integer arguments. *)
Definition slice (A : Type) (arr : list A) (start end_ : Z) : list A :=
  let len := Z.of_nat (length arr) in
  let k := if (start <? 0)%Z then Z.max (len + start) 0 else Z.min start len in
  let final := if (end_ <? 0)%Z then Z.max (len + end_) 0 else Z.min end_ len in
  let count := Z.max (final - k) 0 in
  firstn (Z.to_nat count) (skipn (Z.to_nat k) arr).

Definition paginatedGames (sortedGames : list Game) (currentPage : Z)
  : list Game :=
  let startIndex := ((currentPage - 1) * PAGINATION_SIZE)%Z in
  slice Game sortedGames startIndex (startIndex + PAGINATION_SIZE).

(** [Math.ceil(sortedGames.length / PAGINATION_SIZE)] *)
Definition totalPages (sortedGames : list Game) : Z :=
  ((Z.of_nat (length sortedGames) + PAGINATION_SIZE - 1) / PAGINATION_SIZE)%Z.

End GameGallery.

Module GameGalleryProperties.

Import GameGallery.

(** ** Filtering in the component and in the store *)

Section Platform.

Variable toLowerCase : jsstring -> jsstring.

Lemma passesFilters_clientFilter (filters : FilterState) (game : Game) :
  GameStorage.passesFilters toLowerCase (asGameFilters filters) game
  = clientFilter toLowerCase filters game
    && (state_featured filters || negb (featured game)).
Proof.
  unfold GameStorage.passesFilters, clientFilter, asGameFilters.
  cbn [filter_status filter_featured searchTerm filter_tags].
  destruct (state_status filters) as [s|];
    [destruct (negb (Status_eqb (status game) s)); [reflexivity|]|];
    destruct (state_featured filters), (featured game); cbn [Bool.eqb negb andb orb];
    try reflexivity;
    repeat match goal with
           | |- context [if ?b then _ else _] => destruct b
           end; reflexivity.
Qed.

(** X21. With the same filter state the gallery shows different games
    depending on where they come from.  Games loaded through
    [GameStorage.getFiltered] are those the component's own filter
    keeps, less, while "featured" is switched off, every featured
    game: the store reads the flag as a request for games that are not
    featured, the component as no request at all. *)
Theorem gallery_filter_paths
    (filters : FilterState) (st : GameStorage.localStorage) :
  fst (GameStorage.getFiltered toLowerCase (asGameFilters filters) st)
  = Returns
      (filter (fun game => state_featured filters || negb (featured game))
         (filteredProps toLowerCase filters (stored st))).
Proof.
  unfold GameStorage.getFiltered, bind, filteredProps.
  rewrite LocalStorageMore.getAll_stored. cbn [ret fst]. f_equal.
  induction (stored st) as [|g l IH]; [reflexivity|]. cbn [filter].
  rewrite passesFilters_clientFilter.
  destruct (clientFilter toLowerCase filters g); cbn [andb filter];
    [destruct (state_featured filters || negb (featured g))|];
    rewrite IH; reflexivity.
Qed.

End Platform.

(** ** Pages *)

Lemma firstn_add (A : Type) (a b : nat) (l : list A) :
  firstn (a + b) l = firstn a l ++ firstn b (skipn a l).
Proof.
  revert l. induction a as [|a IH]; intros l; [reflexivity|].
  destruct l as [|x l]; cbn [Nat.add firstn skipn app].
  - destruct b; reflexivity.
  - rewrite IH. reflexivity.
Qed.

Lemma slice_chunk (A : Type) (l : list A) (p : nat) :
  slice A l (Z.of_nat p * PAGINATION_SIZE)
    (Z.of_nat p * PAGINATION_SIZE + PAGINATION_SIZE)
  = firstn 12 (skipn (p * 12) l).
Proof.
  unfold slice, PAGINATION_SIZE. cbv zeta.
  set (len := length l).
  destruct (Z.of_nat p * 12 <? 0)%Z eqn:E1; [apply Z.ltb_lt in E1; lia|].
  destruct (Z.of_nat p * 12 + 12 <? 0)%Z eqn:E2; [apply Z.ltb_lt in E2; lia|].
  destruct (Nat.le_gt_cases len (p * 12)) as [Hle|Hgt].
  - rewrite !skipn_all2 by (fold len; lia).
    rewrite !firstn_nil. reflexivity.
  - replace (Z.to_nat (Z.min (Z.of_nat p * 12) (Z.of_nat len)))
      with (p * 12)%nat by lia.
    destruct (Nat.le_gt_cases (p * 12 + 12) len) as [Hfull|Hpart].
    + f_equal. lia.
    + replace (Z.to_nat
                 (Z.max (Z.min (Z.of_nat p * 12 + 12) (Z.of_nat len)
                         - Z.min (Z.of_nat p * 12) (Z.of_nat len)) 0))
        with (len - p * 12)%nat by lia.
      rewrite !firstn_all2; [reflexivity| |];
        rewrite length_skipn; fold len; lia.
Qed.

Lemma paginatedGames_chunk (l : list Game) (p : nat) :
  paginatedGames l (Z.of_nat (S p)) = firstn 12 (skipn (p * 12) l).
Proof.
  unfold paginatedGames. cbv zeta.
  replace (Z.of_nat (S p) - 1)%Z with (Z.of_nat p) by lia.
  apply slice_chunk.
Qed.

Lemma pages_prefix (l : list Game) (n : nat) :
  concat (map (fun p => paginatedGames l (Z.of_nat p)) (seq 1 n))
  = firstn (n * 12) l.
Proof.
  induction n as [|n IH]; [reflexivity|].
  rewrite seq_S, map_app, concat_app, IH. cbn [map concat Nat.add].
  rewrite app_nil_r, paginatedGames_chunk.
  replace (S n * 12)%nat with (n * 12 + 12)%nat by lia.
  symmetry. apply firstn_add.
Qed.

(** X22. The pages 1 to [totalPages] of the gallery, one after the
    other, are the sorted games: every game is on exactly one page, in
    its place; no page holds more than 12 games, and a page after the
    last is empty. *)
Theorem pages_partition (sortedGames : list Game) :
  concat (map (fun p => paginatedGames sortedGames (Z.of_nat p))
            (seq 1 (Z.to_nat (totalPages sortedGames))))
  = sortedGames
  /\ (forall p, (length (paginatedGames sortedGames (Z.of_nat (S p))) <= 12)%nat)
  /\ (forall p, (Z.to_nat (totalPages sortedGames) <= p)%nat ->
                paginatedGames sortedGames (Z.of_nat (S p)) = []).
Proof.
  assert (Htotal : (length sortedGames <= Z.to_nat (totalPages sortedGames) * 12
                    < length sortedGames + 12)%nat).
  { unfold totalPages, PAGINATION_SIZE.
    set (n := Z.of_nat (length sortedGames)).
    assert (Hn : (0 <= n)%Z) by lia.
    pose proof (Z.div_mod (n + 12 - 1) 12 ltac:(lia)) as Hdm.
    pose proof (Z.mod_pos_bound (n + 12 - 1) 12 ltac:(lia)) as Hb.
    assert (Hq : (0 <= (n + 12 - 1) / 12)%Z) by (apply Z.div_pos; lia).
    lia. }
  split; [|split].
  - rewrite pages_prefix. apply firstn_all2. lia.
  - intros p. rewrite paginatedGames_chunk. apply firstn_le_length.
  - intros p Hp. rewrite paginatedGames_chunk.
    rewrite skipn_all2 by nia. reflexivity.
Qed.

End GameGalleryProperties.

(* ===================================================================== *)
(** * GameStorage over Supabase: further properties *)
(* ===================================================================== *)

Module SupabaseProperties.

Import SupabaseGameStorage.

Lemma insert_desc_has (row x : Row) (sorted : list Row) :
  In x (insert_desc row sorted) <-> x = row \/ In x sorted.
Proof.
  split; [apply insert_desc_In|].
  induction sorted as [|r rest IH]; cbn [insert_desc].
  - intros [->|[]]. left. reflexivity.
  - destruct (ltb (submitted_at r) (submitted_at row)).
    + intros [->|H]; [left; reflexivity|right; exact H].
    + intros [->|[->|H]].
      * right. apply IH. left. reflexivity.
      * left. reflexivity.
      * right. apply IH. right. exact H.
Qed.

Lemma order_desc_has (x : Row) (rows : list Row) :
  In x (order_desc rows) <-> In x rows.
Proof.
  induction rows as [|r rows IH]; [reflexivity|].
  cbn [order_desc fold_right]. fold (order_desc rows).
  rewrite insert_desc_has, IH. cbn [In]. split; intros [H|H]; auto.
Qed.

Lemma Status_eqb_eq (a b : Status) : Status_eqb a b = true -> a = b.
Proof. destruct a, b; intros H; try reflexivity; discriminate H. Qed.

(** ** The array literal of the tags filter *)

Lemma split_on_none (d : N) (s : jsstring) :
  existsb (N.eqb d) s = false -> split_on d s = [s].
Proof.
  induction s as [|c t IH]; [reflexivity|]. cbn [existsb split_on].
  intros H. apply orb_false_iff in H. destruct H as [Hc Ht].
  rewrite N.eqb_sym, Hc, (IH Ht). reflexivity.
Qed.

Lemma split_on_item (d : N) (s rest : jsstring) :
  existsb (N.eqb d) s = false ->
  split_on d (s ++ d :: rest) = s :: split_on d rest.
Proof.
  induction s as [|c t IH]; cbn [existsb split_on app].
  - intros _. rewrite N.eqb_refl. reflexivity.
  - intros H. apply orb_false_iff in H. destruct H as [Hc Ht].
    rewrite N.eqb_sym, Hc, (IH Ht). reflexivity.
Qed.

(** Joined by commas and split on them again, items without a comma
    are what they were. *)
Lemma split_join (items : list jsstring) :
  items <> [] ->
  forallb (fun item => negb (existsb (N.eqb 44) item)) items = true ->
  split_on 44 (join (lit ",") items) = items.
Proof.
  induction items as [|x t IH]; [intros H; contradiction|]. intros _ H.
  cbn [forallb] in H. apply andb_true_iff in H. destruct H as [Hx Ht].
  apply negb_true_iff in Hx. destruct t as [|y t].
  - apply split_on_none, Hx.
  - change (join (lit ",") (x :: y :: t))
      with (x ++ 44%N :: join (lit ",") (y :: t)).
    rewrite (split_on_item 44 x _ Hx), IH; [reflexivity|discriminate|exact Ht].
Qed.

(** A tag the literal carries as it is: not empty, of ordinary
    characters without a comma, no space at either end, and not the
    word NULL. *)
Definition plain_tag (tag : jsstring) : bool :=
  truthy tag
  && forallb (fun c => ordinary c && negb (c =? 44)%N) tag
  && match tag with c :: _ => negb (c =? 32)%N | [] => true end
  && match rev tag with c :: _ => negb (c =? 32)%N | [] => true end
  && negb (eqb (map ascii_lower tag) (lit "null")).

Lemma drop_spaces_none (s : jsstring) :
  match s with c :: _ => negb (c =? 32)%N | [] => true end = true ->
  drop_spaces s = s.
Proof.
  destruct s as [|c t]; [reflexivity|]. cbn [drop_spaces].
  intros H. apply negb_true_iff in H. rewrite H. reflexivity.
Qed.

Lemma plain_tag_read (tag : jsstring) :
  plain_tag tag = true ->
  tag <> []
  /\ existsb (N.eqb 44) tag = false
  /\ forallb ordinary tag = true
  /\ strip_spaces tag = tag
  /\ read_item tag = Some tag.
Proof.
  unfold plain_tag. rewrite !andb_true_iff.
  intros [[[[Hne Hord] Hhead] Hlast] Hnull].
  split; [intros ->; discriminate Hne|].
  split; [|split; [|split]].
  - clear -Hord. induction tag as [|c t IH]; [reflexivity|].
    cbn [forallb existsb] in *. apply andb_true_iff in Hord.
    destruct Hord as [Hc Ht]. apply andb_true_iff in Hc.
    destruct Hc as [_ Hc]. apply negb_true_iff in Hc.
    rewrite N.eqb_sym, Hc. exact (IH Ht).
  - clear -Hord. induction tag as [|c t IH]; [reflexivity|].
    cbn [forallb] in *. apply andb_true_iff in Hord.
    destruct Hord as [Hc Ht]. apply andb_true_iff in Hc.
    destruct Hc as [Hc _]. rewrite Hc. exact (IH Ht).
  - unfold strip_spaces.
    rewrite (drop_spaces_none tag Hhead), (drop_spaces_none (rev tag) Hlast).
    apply rev_involutive.
  - unfold read_item. apply negb_true_iff in Hnull. rewrite Hnull. reflexivity.
Qed.

Lemma join_ordinary (items : list jsstring) :
  forallb (forallb ordinary) items = true ->
  forallb ordinary (join (lit ",") items) = true.
Proof.
  induction items as [|x t IH]; [reflexivity|]. cbn [forallb].
  intros H. apply andb_true_iff in H. destruct H as [Hx Ht].
  destruct t as [|y t]; [exact Hx|].
  change (join (lit ",") (x :: y :: t))
    with (x ++ 44%N :: join (lit ",") (y :: t)).
  rewrite forallb_app. cbn [forallb]. rewrite Hx, (IH Ht). reflexivity.
Qed.

Lemma map_same (A : Type) (f : A -> A) (l : list A) :
  (forall x, In x l -> f x = x) -> map f l = l.
Proof.
  intros H. induction l as [|x t IH]; [reflexivity|]. cbn [map].
  rewrite (H x (or_introl eq_refl)), IH; [reflexivity|].
  intros y Hy. apply H. right. exact Hy.
Qed.

Section Platform.

Variable array_in : jsstring -> option (list (option jsstring)).
Variable toLowerCase : jsstring -> jsstring.

(** PostgreSQL reads plain tags as they were requested. *)
Lemma read_array_plain (wanted : list jsstring) :
  wanted <> [] ->
  forallb plain_tag wanted = true ->
  read_array array_in wanted = Some (map Some wanted).
Proof.
  intros Hne Hplain. rewrite forallb_forall in Hplain.
  assert (Hall : forall tag, In tag wanted ->
            tag <> [] /\ existsb (N.eqb 44) tag = false
            /\ forallb ordinary tag = true /\ strip_spaces tag = tag
            /\ read_item tag = Some tag).
  { intros tag Hin. apply plain_tag_read, Hplain, Hin. }
  unfold read_array. cbv zeta.
  rewrite join_ordinary
    by (apply forallb_forall; intros tag Hin; apply (Hall tag Hin)).
  unfold read_items.
  rewrite split_join;
    [|exact Hne
     |apply forallb_forall; intros tag Hin; apply negb_true_iff;
      apply (Hall tag Hin)].
  rewrite (map_same _ strip_spaces wanted)
    by (intros tag Hin; apply (Hall tag Hin)).
  assert (Hempty : existsb (fun item => eqb item []) wanted = false).
  { apply Bool.not_true_iff_false. intros H. apply existsb_exists in H.
    destruct H as (tag & Hin & E). apply eqb_eq in E.
    apply (proj1 (Hall tag Hin)), E. }
  assert (Hread : map read_item wanted = map Some wanted).
  { apply map_ext_in. intros tag Hin. apply (Hall tag Hin). }
  assert (Hitems : (if existsb (fun item => eqb item []) wanted then None
                    else Some (map read_item wanted))
                   = Some (map Some wanted))
    by (rewrite Hempty, Hread; reflexivity).
  destruct wanted as [|[|c t] [|y rest]]; try exact Hitems.
  destruct (proj1 (Hall [] (or_introl eq_refl)) eq_refl).
Qed.

(** The rows behind the games [getFiltered] returns. *)
Lemma getFiltered_rows (filters : GameFilters) (db : Database) (game : Game) :
  In game (getFiltered array_in toLowerCase filters db) ->
  exists row,
    In row (games db) /\ game = transformFromDb row
    /\ (forall s, filter_status filters = Some (only s) ->
                  eq_status s row = true)
    /\ (forall f, filter_featured filters = Some f -> eq_featured f row = true)
    /\ (forall wanted, filter_tags filters = Some wanted -> wanted <> [] ->
          exists elements,
            read_array array_in wanted = Some elements
            /\ array_contains (row_tags row) elements = true)
    /\ (forall term, searchTerm filters = Some term -> truthy term = true ->
                     matchesSearch toLowerCase (toLowerCase term) game = true).
Proof.
  unfold getFiltered. cbv zeta.
  set (query := _ ++ _).
  set (tagged := fun row : Row =>
         match filter_tags filters with
         | Some (w :: ws) =>
             match read_array array_in (w :: ws) with
             | Some elements => array_contains (row_tags row) elements
             | None => false
             end
         | _ => true
         end).
  intros Hin.
  assert (Hanswer : exists rows,
            In game (match searchTerm filters with
                     | Some term =>
                         if truthy term
                         then filter (matchesSearch toLowerCase (toLowerCase term))
                                (map transformFromDb rows)
                         else map transformFromDb rows
                     | None => map transformFromDb rows
                     end)
            /\ forall row, In row rows ->
                 In row (games db)
                 /\ forallb (fun c => c row) query = true
                 /\ tagged row = true).
  { unfold tagged. revert Hin. unfold select_ordered, contains_tags.
    destruct (filter_tags filters) as [[|w ws]|];
      cbn [length Nat.ltb Nat.leb];
      try destruct (read_array array_in (w :: ws)) as [elements|];
      destruct (outage db); try (intros []);
      intros Hin; eexists; (split; [exact Hin|]);
      intros row Hrow; apply order_desc_has, filter_In in Hrow;
      destruct Hrow as [Hrow Hq]; try rewrite forallb_app in Hq;
      try (apply andb_true_iff in Hq; destruct Hq as [Hq Ht];
           cbn [forallb] in Ht; rewrite andb_true_r in Ht);
      repeat split; assumption. }
  destruct Hanswer as (rows & Hgame & Hrows).
  assert (Hgame' : In game (map transformFromDb rows)
                   /\ (forall term, searchTerm filters = Some term ->
                                    truthy term = true ->
                                    matchesSearch toLowerCase (toLowerCase term) game
                                    = true)).
  { destruct (searchTerm filters) as [term|].
    - destruct (truthy term) eqn:Ht.
      + apply filter_In in Hgame. destruct Hgame as [Hgame Hm].
        split; [exact Hgame|]. intros ? [= <-] _. exact Hm.
      + split; [exact Hgame|]. intros ? [= <-] H. rewrite Ht in H.
        discriminate H.
    - split; [exact Hgame|]. intros ? H. discriminate H. }
  destruct Hgame' as [Hmap Hsearch].
  apply in_map_iff in Hmap. destruct Hmap as (row & <- & Hrow).
  destruct (Hrows row Hrow) as (Hdb & Hq & Ht).
  exists row. split; [exact Hdb|]. split; [reflexivity|].
  subst query. rewrite forallb_app in Hq.
  apply andb_true_iff in Hq. destruct Hq as [Hs Hf].
  split; [|split; [|split]].
  - intros s E. rewrite E in Hs. cbn in Hs. rewrite andb_true_r in Hs. exact Hs.
  - intros f E. rewrite E in Hf. cbn in Hf. rewrite andb_true_r in Hf. exact Hf.
  - intros wanted E Hne. unfold tagged in Ht. rewrite E in Ht.
    destruct wanted as [|w ws]; [contradiction|].
    destruct (read_array array_in (w :: ws)) as [elements|];
      [|discriminate Ht].
    exists elements. split; [reflexivity|exact Ht].
  - exact Hsearch.
Qed.

(** X23. Every game the Supabase version of [getFiltered] returns has
    the requested status, has the requested featured flag, and matches
    the search term; among its tags it holds every element PostgreSQL
    reads in the array literal the client joins the requested tags
    into, so each requested tag, letter for letter, when the tags are
    plain: not empty, without comma, quote, backslash, brace or control
    character, without a space at either end, and not the word NULL. *)
Theorem supabase_getFiltered_sound (filters : GameFilters) (db : Database)
    (game : Game) :
  In game (getFiltered array_in toLowerCase filters db) ->
  (forall s, filter_status filters = Some (only s) -> status game = s)
  /\ (forall f, filter_featured filters = Some f -> featured game = f)
  /\ (forall wanted, filter_tags filters = Some wanted -> wanted <> [] ->
        exists elements,
          read_array array_in wanted = Some elements
          /\ forall element, In element elements ->
               exists tag, element = Some tag /\ In tag (tags game))
  /\ (forall wanted, filter_tags filters = Some wanted ->
        forallb plain_tag wanted = true ->
        forall tag, In tag wanted -> In tag (tags game))
  /\ (forall term, searchTerm filters = Some term -> truthy term = true ->
                   matchesSearch toLowerCase (toLowerCase term) game = true).
Proof.
  intros Hin.
  destruct (getFiltered_rows _ _ _ Hin)
    as (row & _ & -> & Hs & Hf & Ht & Hsearch).
  assert (Helements : forall wanted, filter_tags filters = Some wanted ->
            wanted <> [] ->
            exists elements,
              read_array array_in wanted = Some elements
              /\ forall element, In element elements ->
                   exists tag, element = Some tag
                               /\ In tag (tags (transformFromDb row))).
  { intros wanted E Hne. destruct (Ht wanted E Hne) as (elements & Hread & Hc).
    exists elements. split; [exact Hread|]. intros element Helement.
    unfold array_contains in Hc. cbn [transformFromDb tags].
    destruct (row_tags row) as [have|]; [|discriminate Hc].
    cbn [or_else]. rewrite forallb_forall in Hc. specialize (Hc _ Helement).
    destruct element as [tag|]; [|discriminate Hc].
    exists tag. split; [reflexivity|].
    apply existsb_exists in Hc. destruct Hc as (x & Hx & Ex).
    apply eqb_eq in Ex. subst x. exact Hx. }
  split; [|split; [|split; [|split]]].
  - intros s E. apply Status_eqb_eq, (Hs s E).
  - intros f E. apply eqb_prop, (Hf f E).
  - exact Helements.
  - intros wanted E Hplain tag Htag.
    assert (Hne : wanted <> []) by (intros ->; exact Htag).
    destruct (Helements wanted E Hne) as (elements & Hread & Hall).
    rewrite (read_array_plain wanted Hne Hplain) in Hread.
    injection Hread as <-.
    destruct (Hall (Some tag) (in_map Some wanted tag Htag))
      as (tag' & [= <-] & Hin'). exact Hin'.
  - exact Hsearch.
Qed.

Lemma filter_sorted (A : Type) (R : A -> A -> Prop) (p : A -> bool)
    (l : list A) :
  StronglySorted R l -> StronglySorted R (filter p l).
Proof.
  induction 1 as [|x l Hs IH Hall]; [constructor|]. cbn [filter].
  destruct (p x); [|exact IH]. constructor; [exact IH|].
  rewrite Forall_forall in *. intros y Hy. apply filter_In in Hy.
  apply Hall, Hy.
Qed.

Lemma map_sorted (rows : list Row) :
  StronglySorted not_before rows ->
  StronglySorted
    (fun a b : Game => later (submittedAt b) (submittedAt a) = false)
    (map transformFromDb rows).
Proof.
  induction 1 as [|r rows Hs IH Hall]; [constructor|]. cbn [map].
  constructor; [exact IH|]. rewrite Forall_forall in *. intros g Hg.
  apply in_map_iff in Hg. destruct Hg as (r' & <- & Hr').
  exact (Hall r' Hr').
Qed.

(** X24. The Supabase versions of [getAll] and [getFiltered] list the
    games newest first: no game comes before one submitted later. *)
Theorem supabase_lists_newest_first (filters : GameFilters) (db : Database) :
  StronglySorted
    (fun a b : Game => later (submittedAt b) (submittedAt a) = false)
    (getAll db)
  /\ StronglySorted
       (fun a b : Game => later (submittedAt b) (submittedAt a) = false)
       (getFiltered array_in toLowerCase filters db).
Proof.
  assert (Hdata : forall conditions data,
            select_ordered conditions db = inl data ->
            StronglySorted not_before data).
  { unfold select_ordered. intros conditions data.
    destruct (outage db); [discriminate|]. intros [= <-].
    apply order_desc_sorted. }
  split.
  - unfold getAll. destruct (select_ordered [] db) as [data|] eqn:E;
      [|constructor]. apply map_sorted, (Hdata _ _ E).
  - unfold getFiltered. cbv zeta. set (query := _ ++ _).
    set (answer := match filter_tags filters with Some _ => _ | None => _ end).
    assert (Hanswer : forall data, answer = inl data ->
                                   StronglySorted not_before data).
    { subst answer. intros data.
      destruct (filter_tags filters) as [wanted|]; [|apply Hdata].
      destruct (0 <? length wanted)%nat; [|apply Hdata].
      destruct (contains_tags array_in wanted); [apply Hdata|discriminate]. }
    destruct answer as [data|]; [|constructor].
    pose proof (map_sorted _ (Hanswer data eq_refl)) as H.
    destruct (searchTerm filters) as [term|]; [|exact H].
    destruct (truthy term); [|exact H]. apply filter_sorted, H.
Qed.

End Platform.

End SupabaseProperties.

(** One requested tag with a comma is read as two, the empty tag alone
    as the empty array, which every row with tags contains; an empty tag
    among others makes a malformed literal, spaces around a tag are
    dropped, and the tag null asks for the null element, which no row
    contains. *)
Example supabase_tags_as_sent
    (array_in : jsstring -> option (list (option jsstring))) :
  let db := {| SupabaseGameStorage.games := [snakeRow];
               SupabaseGameStorage.outage := None |} in
  let asked := fun wanted =>
    SupabaseGameStorage.getFiltered array_in (fun s => s) (tagsOnly wanted) db in
  SupabaseGameStorage.array_text [lit "classic"; lit "puzzle"]
  = lit "{classic,puzzle}"
  /\ asked [lit "classic,arcade"] = [SupabaseGameStorage.transformFromDb snakeRow]
  /\ asked [lit ""] = [SupabaseGameStorage.transformFromDb snakeRow]
  /\ asked [lit "classic"; lit ""] = []
  /\ asked [lit " classic "] = [SupabaseGameStorage.transformFromDb snakeRow]
  /\ asked [lit "null"] = [].
Proof. vm_compute. repeat split; reflexivity. Qed.

Lemma supabase_getFiltered_sound_witness :
  let filters := {| searchTerm := None;
                    filter_tags := Some [lit "classic"; lit "arcade"];
                    filter_featured := Some false;
                    filter_status := Some (only active) |} in
  let db := {| SupabaseGameStorage.games := [snakeRow];
               SupabaseGameStorage.outage := None |} in
  In (SupabaseGameStorage.transformFromDb snakeRow)
     (SupabaseGameStorage.getFiltered (fun _ => None) (fun s => s) filters db)
  /\ forallb SupabaseProperties.plain_tag [lit "classic"; lit "arcade"] = true
  /\ In (lit "arcade") (tags (SupabaseGameStorage.transformFromDb snakeRow)).
Proof.
  intros filters db.
  assert (Hin : In (SupabaseGameStorage.transformFromDb snakeRow)
                   (SupabaseGameStorage.getFiltered (fun _ => None) (fun s => s)
                      filters db))
    by (left; reflexivity).
  split; [exact Hin|]. split; [reflexivity|].
  destruct (SupabaseProperties.supabase_getFiltered_sound (fun _ => None)
              (fun s => s) filters db _ Hin) as (_ & _ & _ & Ht & _).
  apply (Ht [lit "classic"; lit "arcade"] eq_refl eq_refl).
  right. left. reflexivity.
Defined.

(* ===================================================================== *)
(** * URLValidator.sanitize: further properties *)
(* ===================================================================== *)

Module SanitizeProperties.

(** X25. [sanitize] is idempotent: sanitising what it has returned
    changes nothing any more.  (The platform's Unicode domain processing
    is taken to be stable on its own results.) *)
Theorem sanitize_idempotent (Unicode_ToASCII : list N -> option jsstring)
    (url : jsstring) :
  URLRoundTrip.stable Unicode_ToASCII ->
  URLValidator.sanitize Unicode_ToASCII (URLValidator.sanitize Unicode_ToASCII url)
  = URLValidator.sanitize Unicode_ToASCII url.
Proof.
  intros HU.
  assert (Hraw : forall x,
             (exists msg, URLValidator.validate Unicode_ToASCII x
                          = URLValidator.rejected msg) ->
             URLValidator.sanitize Unicode_ToASCII x = x).
  { intros x [msg E]. unfold URLValidator.sanitize. rewrite E. reflexivity. }
  destruct (validate_cases Unicode_ToASCII url)
    as [Hrej|(u & _ & _ & Hnew & _ & E)].
  - rewrite (Hraw url Hrej). apply (Hraw url Hrej).
  - assert (Hs : URLValidator.sanitize Unicode_ToASCII url = WHATWG.toString u).
    { unfold URLValidator.sanitize. rewrite E.
      cbn [normalizedUrl URLValidator.accepted]. unfold WHATWG.toString.
      rewrite href_truthy. reflexivity. }
    rewrite Hs.
    pose proof (URLRoundTrip.validate_href _ _
                  (URLRoundTrip.URL_new_well_formed _ _ _ HU Hnew)) as Hagain.
    change (WHATWG.href u) with (WHATWG.toString u) in Hagain.
    unfold URLValidator.sanitize. rewrite Hagain. unfold URLRoundTrip.revalidated.
    destruct (test URL_PATTERNS.URL_REGEX (WHATWG.toString u)); [|reflexivity].
    destruct (URLValidator.containsUnsafePatterns (WHATWG.toString u));
      [reflexivity|].
    cbn [normalizedUrl URLValidator.accepted]. unfold WHATWG.toString.
    rewrite href_truthy. reflexivity.
Qed.

Lemma sanitize_idempotent_witness :
  URLValidator.sanitize (fun _ => None) (lit " codepen.io/x ")
  = lit "https://codepen.io/x"
  /\ URLValidator.sanitize (fun _ => None)
       (URLValidator.sanitize (fun _ => None) (lit " codepen.io/x "))
     = URLValidator.sanitize (fun _ => None) (lit " codepen.io/x ").
Proof.
  split; [vm_compute; reflexivity|].
  apply (sanitize_idempotent (fun _ => None)).
  intros bytes d H. discriminate H.
Defined.

End SanitizeProperties.

(* ===================================================================== *)
(** * The storage hook ([src/hooks/useGameStorage.ts]) over localStorage *)
(* ===================================================================== *)

Module UseGameStorage.

Import GameStorage.

(** The state of the hook. *)
Record HookState : Type := {
  hook_games : list Game;
  loading : bool;
  hook_error : option jsstring
}.

Definition setGames (games : list Game) (h : HookState) : HookState :=
  {| hook_games := games; loading := loading h; hook_error := hook_error h |}.

Definition setError (e : option jsstring) (h : HookState) : HookState :=
  {| hook_games := hook_games h; loading := loading h; hook_error := e |}.

Definition setLoading (b : bool) (h : HookState) : HookState :=
  {| hook_games := hook_games h; loading := b; hook_error := hook_error h |}.

Section Platform.

Variable Unicode_ToASCII : list N -> option jsstring.
Variable setItem_throws : localStorage -> list Game -> option DOMException.

(** A callback of the hook, run to completion: what it returns, the
    state of the hook and the storage afterwards. *)
Definition callback (A : Type) : Type :=
  HookState -> localStorage -> A * HookState * localStorage.

Definition loadGames : callback unit :=
  fun h st =>
    let h := setError None (setLoading true h) in
    match getAll st with
    | (Returns loadedGames, st') =>
        (tt, setLoading false (setGames loadedGames h), st')
    | (Throws e, st') => (tt, setLoading false (setError (Some e) h), st')
    end.

Definition addGame (uuid now : jsstring) (gameData : NewGame) : callback bool :=
  fun h st =>
    match save Unicode_ToASCII setItem_throws uuid now gameData st with
    | (Returns _, st') =>
        let '(_, h', st'') := loadGames h st' in (true, h', st'')
    | (Throws e, st') => (false, setError (Some e) h, st')
    end.

(** [GameStorage.update] assigns the normalized URL to the [updates]
    object it was handed; the hook merges that same object into its own
    copy of the game afterwards. *)
Definition updateGame (gameId : jsstring) (updates : GameUpdates)
  : callback bool :=
  fun h st =>
    match update Unicode_ToASCII setItem_throws gameId updates st with
    | (Returns _, st') =>
        let updates := LocalStorageMore.normalized Unicode_ToASCII updates in
        (true,
         setGames (map (fun game =>
                          if eqb (id game) gameId then spread game updates
                          else game)
                     (hook_games h)) h,
         st')
    | (Throws e, st') => (false, setError (Some e) h, st')
    end.

Definition deleteGame (gameId : jsstring) : callback bool :=
  fun h st =>
    match delete setItem_throws gameId st with
    | (Returns _, st') =>
        (true,
         setGames (filter (fun game => negb (eqb (id game) gameId))
                     (hook_games h)) h,
         st')
    | (Throws e, st') => (false, setError (Some e) h, st')
    end.

Definition clearAllGames : callback bool :=
  fun h st =>
    match clear st with
    | (Returns _, st') => (true, setGames [] h, st')
    | (Throws e, st') => (false, setError (Some e) h, st')
    end.

Definition incrementPlayCount (gameId : jsstring) : callback unit :=
  fun h st =>
    match GameStorage.incrementPlayCount Unicode_ToASCII setItem_throws gameId st
    with
    | (Returns _, st') =>
        (tt,
         setGames (map (fun game =>
                          if eqb (id game) gameId
                          then withPlayCount game (Number_add (playCount game) 1)
                          else game)
                     (hook_games h)) h,
         st')
    | (Throws e, st') => (tt, setError (Some e) h, st')
    end.

(** The callbacks that touch the games. *)
Inductive action : Type :=
| LoadGames
| AddGame (uuid now : jsstring) (gameData : NewGame)
| UpdateGame (gameId : jsstring) (updates : GameUpdates)
| DeleteGame (gameId : jsstring)
| ClearAllGames
| IncrementPlayCount (gameId : jsstring).

Definition perform (a : action) (h : HookState) (st : localStorage)
  : HookState * localStorage :=
  match a with
  | LoadGames => let '(_, h', st') := loadGames h st in (h', st')
  | AddGame uuid now gameData =>
      let '(_, h', st') := addGame uuid now gameData h st in (h', st')
  | UpdateGame gameId updates =>
      let '(_, h', st') := updateGame gameId updates h st in (h', st')
  | DeleteGame gameId => let '(_, h', st') := deleteGame gameId h st in (h', st')
  | ClearAllGames => let '(_, h', st') := clearAllGames h st in (h', st')
  | IncrementPlayCount gameId =>
      let '(_, h', st') := incrementPlayCount gameId h st in (h', st')
  end.

End Platform.

End UseGameStorage.

Module UseGameStorageProperties.

Import GameStorage UseGameStorage LocalStorageMore.

Section Platform.

Variable Unicode_ToASCII : list N -> option jsstring.
Variable setItem_throws : localStorage -> list Game -> option DOMException.

Lemma map_no_match (f : Game -> Game) (gameId : jsstring) (l : list Game) :
  (forall y, In y l -> eqb (id y) gameId = false) ->
  map (fun game => if eqb (id game) gameId then f game else game) l = l.
Proof.
  induction l as [|x l IH]; intros H; [reflexivity|]. cbn [map].
  rewrite (H x (or_introl eq_refl)), IH; [reflexivity|].
  intros y Hy. apply H. right. exact Hy.
Qed.

Lemma map_one_match (f : Game -> Game) (gameId : jsstring)
    (pre post : list Game) (old : Game) :
  NoDup (map id (pre ++ old :: post)) ->
  eqb (id old) gameId = true ->
  map (fun game => if eqb (id game) gameId then f game else game)
    (pre ++ old :: post)
  = pre ++ f old :: post.
Proof.
  intros Hnd Hold. apply eqb_eq in Hold.
  rewrite map_app in Hnd. cbn [map] in Hnd.
  pose proof (NoDup_remove_2 _ _ _ Hnd) as Hnot.
  rewrite map_app. cbn [map]. rewrite Hold, eqb_refl.
  rewrite !map_no_match; [reflexivity| |].
  - intros y Hy. apply LocalStorageMore.eqb_neq. intros E. apply Hnot.
    apply in_or_app. right. rewrite Hold, <- E. apply in_map, Hy.
  - intros y Hy. apply LocalStorageMore.eqb_neq. intros E. apply Hnot.
    apply in_or_app. left. rewrite Hold, <- E. apply in_map, Hy.
Qed.

Lemma find_none_all (gameId : jsstring) (l : list Game) :
  find (fun game => eqb (id game) gameId) l = None ->
  forall y, In y l -> eqb (id y) gameId = false.
Proof.
  intros H y Hy. destruct (eqb (id y) gameId) eqn:E; [|reflexivity].
  rewrite (find_none _ _ H y Hy) in E. discriminate E.
Qed.

Lemma incrementPlayCount_returns (gameId : jsstring) (st st' : localStorage) :
  GameStorage.incrementPlayCount Unicode_ToASCII setItem_throws gameId st
  = (Returns tt, st') ->
  (find (fun game => eqb (id game) gameId) (stored st) = None /\ st' = st)
  \/ exists pre old post,
       stored st = pre ++ old :: post
       /\ eqb (id old) gameId = true
       /\ stored st'
          = pre ++ withPlayCount old (Number_add (playCount old) 1) :: post.
Proof.
  unfold GameStorage.incrementPlayCount, getById, bind at 1 2.
  rewrite getAll_stored. cbn [ret].
  destruct (find _ (stored st)) as [game|] eqn:Hfind.
  - intros H. right.
    destruct (update_returns Unicode_ToASCII setItem_throws _ _ _ _ H)
      as (pre & old & post & Hst & Hold & Hpre & Hst' & _).
    exists pre, old, post. split; [exact Hst|]. split; [exact Hold|].
    rewrite Hst in Hfind.
    rewrite (proj1 (find_first gameId pre post old Hpre Hold)) in Hfind.
    injection Hfind as <-. exact Hst'.
  - intros [= <-]. left. split; reflexivity.
Qed.

(** X26. The games the hook holds stay those of the store: when they
    are the stored games before a callback of the hook runs, they are
    the stored games after it, whether the callback succeeds or fails.
    The ids of the stored games are distinct, as the data model has it,
    and an update leaves the id alone. *)
Theorem hook_games_follow_store (a : action) (h : HookState)
    (st : localStorage) :
  NoDup (map id (stored st)) ->
  match a with UpdateGame _ updates => upd_id updates = None | _ => True end ->
  hook_games h = stored st ->
  hook_games (fst (perform Unicode_ToASCII setItem_throws a h st))
  = stored (snd (perform Unicode_ToASCII setItem_throws a h st)).
Proof.
  intros Hnd Ha Hh. destruct a as [|uuid now gameData|gameId updates|gameId| |gameId];
    cbn [perform].
  - unfold loadGames. rewrite getAll_stored. reflexivity.
  - unfold addGame.
    destruct (save _ _ uuid now gameData st) as [[[]|e] st'] eqn:E.
    + unfold loadGames. rewrite getAll_stored. reflexivity.
    + cbn [fst snd setError hook_games].
      rewrite (save_throws _ _ _ _ _ _ _ _ E). exact Hh.
  - unfold updateGame.
    destruct (update _ _ gameId updates st) as [[[]|e] st'] eqn:E.
    + cbn [fst snd setGames hook_games]. rewrite Hh.
      destruct (update_returns _ _ _ _ _ _ E)
        as (pre & old & post & Hst & Hold & _ & -> & _).
      rewrite Hst in Hnd |- *.
      apply (map_one_match
               (fun game => spread game (normalized Unicode_ToASCII updates))
               _ _ _ _ Hnd Hold).
    + cbn [fst snd setError hook_games].
      rewrite (update_throws _ _ _ _ _ _ _ E). exact Hh.
  - unfold deleteGame.
    destruct (delete _ gameId st) as [[[]|e] st'] eqn:E.
    + cbn [fst snd setGames hook_games]. rewrite Hh.
      symmetry. apply (delete_returns _ _ _ _ E).
    + cbn [fst snd setError hook_games].
      rewrite (delete_throws _ _ _ _ _ E). exact Hh.
  - reflexivity.
  - unfold incrementPlayCount.
    destruct (GameStorage.incrementPlayCount _ _ gameId st)
      as [[[]|e] st'] eqn:E.
    + cbn [fst snd setGames hook_games]. rewrite Hh.
      destruct (incrementPlayCount_returns _ _ _ E)
        as [[Hnone ->]|(pre & old & post & Hst & Hold & ->)].
      * apply (map_no_match
                 (fun game => withPlayCount game (Number_add (playCount game) 1))).
        apply find_none_all, Hnone.
      * rewrite Hst in Hnd |- *.
        apply (map_one_match
                 (fun game => withPlayCount game (Number_add (playCount game) 1))
                 _ _ _ _ Hnd Hold).
    + cbn [fst snd setError hook_games].
      rewrite (incrementPlayCount_throws _ _ _ _ _ _ E). exact Hh.
Qed.

End Platform.

End UseGameStorageProperties.

Lemma hook_games_follow_store_witness :
  let a := UseGameStorage.UpdateGame (lit "1")
             {| upd_id := None; upd_title := None;
                upd_url := Some (lit "codepen.io/z"); upd_description := None;
                upd_author := None; upd_tags := None; upd_submittedAt := None;
                upd_featured := None; upd_playCount := None;
                upd_status := None |} in
  let h := {| UseGameStorage.hook_games := [snake; pong];
              UseGameStorage.loading := false;
              UseGameStorage.hook_error := None |} in
  let w := UseGameStorage.perform (fun _ => None) (fun _ _ => None) a h arcade in
  map url (UseGameStorage.hook_games (fst w))
  = [lit "https://codepen.io/z"; lit "https://codepen.io/y"]
  /\ UseGameStorage.hook_games (fst w) = stored (snd w).
Proof.
  intros a h w. split; [vm_compute; reflexivity|].
  apply (UseGameStorageProperties.hook_games_follow_store
           (fun _ => None) (fun _ _ => None) a h arcade).
  - repeat constructor; cbn; intuition discriminate.
  - reflexivity.
  - reflexivity.
Defined.

(* ===================================================================== *)
(** * URLValidator.validate: what it can return *)
(* ===================================================================== *)

Module ValidateOutcomes.

Section AnyParser.

(** [new URL(text)] of the platform, whatever schemes it parses; [None]
    stands for the TypeError it throws. *)
Variable new_URL : jsstring -> option WHATWG.URLRecord.

(** [URLValidator.validate], over that parser. *)
Definition validate (url : jsstring) : ValidationResult :=
  let trimmedUrl := trim url in
  if negb (truthy trimmedUrl) then URLValidator.rejected "URL is required"
  else
    let normalizedUrl := URLValidator.withProtocol trimmedUrl in
    if negb (test URL_PATTERNS.URL_REGEX normalizedUrl)
    then URLValidator.rejected "Please enter a valid URL"
    else
      match new_URL normalizedUrl with
      | Some urlObj =>
          if negb (existsb (eqb (WHATWG.protocol urlObj))
                           [lit "http:"; lit "https:"])
          then URLValidator.rejected "Only HTTP and HTTPS URLs are allowed"
          else if URLValidator.containsUnsafePatterns normalizedUrl
          then URLValidator.rejected "URL contains potentially unsafe content"
          else URLValidator.accepted (WHATWG.toString urlObj)
      | None => URLValidator.rejected "Invalid URL format"
      end.

(** The scheme state of the URL standard: the protocol of a parsed URL
    is what stands in front of the first colon of the text. *)
Hypothesis new_URL_http : forall s u,
  startsWith (lit "http://") s = true -> new_URL s = Some u ->
  WHATWG.protocol u = lit "http:".
Hypothesis new_URL_https : forall s u,
  startsWith (lit "https://") s = true -> new_URL s = Some u ->
  WHATWG.protocol u = lit "https:".

Lemma protocol_after_URL_REGEX (s : jsstring) (u : WHATWG.URLRecord) :
  test URL_PATTERNS.URL_REGEX s = true ->
  new_URL s = Some u ->
  existsb (eqb (WHATWG.protocol u)) [lit "http:"; lit "https:"] = true.
Proof.
  intros Hre Hnew. apply URLRoundTrip.URL_REGEX_protocol in Hre.
  apply orb_true_iff in Hre. destruct Hre as [H|H].
  - rewrite (new_URL_http s u H Hnew). reflexivity.
  - rewrite (new_URL_https s u H Hnew). reflexivity.
Qed.

(** X27. Over a URL parser that parses every scheme, [validate] either
    accepts, or rejects with one of four messages.  The fifth message of
    the source, ["Only HTTP and HTTPS URLs are allowed"], is never
    returned: whatever reaches the parser has passed [URL_REGEX] and so
    begins with one of the two protocols. *)
Theorem validate_outcomes (url : jsstring) :
  (exists n, validate url = URLValidator.accepted n)
  \/ validate url = URLValidator.rejected "URL is required"
  \/ validate url = URLValidator.rejected "Please enter a valid URL"
  \/ validate url = URLValidator.rejected "Invalid URL format"
  \/ validate url
     = URLValidator.rejected "URL contains potentially unsafe content".
Proof.
  unfold validate.
  destruct (truthy (trim url)); cbn [negb]; [|right; left; reflexivity].
  destruct (test URL_PATTERNS.URL_REGEX _) eqn:Hre; cbn [negb];
    [|right; right; left; reflexivity].
  destruct (new_URL _) as [urlObj|] eqn:Hnew;
    [|right; right; right; left; reflexivity].
  rewrite (protocol_after_URL_REGEX _ _ Hre Hnew). cbn [negb].
  destruct (URLValidator.containsUnsafePatterns _).
  - right; right; right; right. reflexivity.
  - left. eexists. reflexivity.
Qed.

End AnyParser.

(** The validator of the source is the one over the parser of its
    platform. *)
Lemma validate_URL_new (Unicode_ToASCII : list N -> option jsstring)
    (url : jsstring) :
  URLValidator.validate Unicode_ToASCII url
  = validate (WHATWG.URL_new Unicode_ToASCII) url.
Proof. reflexivity. Qed.

(** The parser of the embedding has the protocol of the text. *)
Lemma URL_new_protocol (Unicode_ToASCII : list N -> option jsstring)
    (sch s : jsstring) (u : WHATWG.URLRecord) :
  sch = lit "http" \/ sch = lit "https" ->
  startsWith (sch ++ lit "://") s = true ->
  WHATWG.URL_new Unicode_ToASCII s = Some u ->
  WHATWG.protocol u = sch ++ lit ":".
Proof.
  intros Hsch Hs Hnew.
  destruct (URL_new_scheme _ _ _ Hnew) as (rest & Hstart & _).
  unfold WHATWG.protocol. f_equal.
  apply startsWith_split in Hs. destruct Hs as [t ->].
  destruct Hsch as [-> | ->];
    vm_compute in Hstart; injection Hstart as Hscheme _;
    symmetry; exact Hscheme.
Qed.

(** A parser that keeps the other schemes: what the embedding does not
    parse and has a scheme is kept whole as its path. *)
Definition keeps_schemes (s : jsstring) : option WHATWG.URLRecord :=
  match WHATWG.URL_new (fun _ => None) s with
  | Some u => Some u
  | None =>
      match WHATWG.scheme_start_state s with
      | Some (scheme, rest) =>
          if eqb scheme (lit "http") || eqb scheme (lit "https") then None
          else Some {| WHATWG.scheme := scheme;
                       WHATWG.username := []; WHATWG.password := [];
                       WHATWG.host := WHATWG.Domain []; WHATWG.port := None;
                       WHATWG.path := [rest];
                       WHATWG.query := None; WHATWG.fragment := None |}
      | None => None
      end
  end.

Lemma keeps_schemes_protocol (sch s : jsstring) (u : WHATWG.URLRecord) :
  sch = lit "http" \/ sch = lit "https" ->
  startsWith (sch ++ lit "://") s = true ->
  keeps_schemes s = Some u ->
  WHATWG.protocol u = sch ++ lit ":".
Proof.
  intros Hsch Hs. unfold keeps_schemes.
  destruct (WHATWG.URL_new _ s) as [v|] eqn:Hnew.
  - intros [= <-]. exact (URL_new_protocol _ sch s v Hsch Hs Hnew).
  - apply startsWith_split in Hs. destruct Hs as [t ->].
    destruct Hsch as [-> | ->]; vm_compute; intros H; discriminate H.
Qed.

End ValidateOutcomes.

Lemma validate_outcomes_witness :
  (exists u, ValidateOutcomes.keeps_schemes (lit "mailto:a@b.c") = Some u
             /\ WHATWG.protocol u = lit "mailto:")
  /\ ((exists n, ValidateOutcomes.validate ValidateOutcomes.keeps_schemes
                   (lit "ftp://b.c") = URLValidator.accepted n)
      \/ ValidateOutcomes.validate ValidateOutcomes.keeps_schemes (lit "ftp://b.c")
         = URLValidator.rejected "URL is required"
      \/ ValidateOutcomes.validate ValidateOutcomes.keeps_schemes (lit "ftp://b.c")
         = URLValidator.rejected "Please enter a valid URL"
      \/ ValidateOutcomes.validate ValidateOutcomes.keeps_schemes (lit "ftp://b.c")
         = URLValidator.rejected "Invalid URL format"
      \/ ValidateOutcomes.validate ValidateOutcomes.keeps_schemes (lit "ftp://b.c")
         = URLValidator.rejected "URL contains potentially unsafe content").
Proof.
  split; [eexists; split; vm_compute; reflexivity|].
  exact (ValidateOutcomes.validate_outcomes ValidateOutcomes.keeps_schemes
           (fun s u => ValidateOutcomes.keeps_schemes_protocol
                         (lit "http") s u (or_introl eq_refl))
           (fun s u => ValidateOutcomes.keeps_schemes_protocol
                         (lit "https") s u (or_intror eq_refl))
           (lit "ftp://b.c")).
Defined.

(* ===================================================================== *)
(** * The two versions of GameStorage.getFiltered *)
(* ===================================================================== *)

Module TwoStores.

Import SupabaseGameStorage.

Section Platform.

Variable array_in : jsstring -> option (list (option jsstring)).
Variable toLowerCase : jsstring -> jsstring.

(** The search-term test of both versions. *)
Definition searched (filters : GameFilters) (game : Game) : bool :=
  match searchTerm filters with
  | Some term =>
      if truthy term then matchesSearch toLowerCase (toLowerCase term) game
      else true
  | None => true
  end.

(** The conditions the Supabase version puts on the rows when no tag is
    requested. *)
Definition conditions (filters : GameFilters) : list (Row -> bool) :=
  match filter_status filters with
  | Some (only s) => [eq_status s]
  | Some all | None => []
  end
  ++ match filter_featured filters with
     | Some f => [eq_featured f]
     | None => []
     end.

Lemma filter_always (l : list Game) : filter (fun _ => true) l = l.
Proof. induction l as [|x l IH]; [reflexivity|]. cbn [filter]. rewrite IH. reflexivity. Qed.

Lemma passesFilters_row (filters : GameFilters) (row : Row) :
  filter_tags filters = None \/ filter_tags filters = Some [] ->
  GameStorage.passesFilters toLowerCase filters (transformFromDb row)
  = forallb (fun c => c row) (conditions filters)
    && searched filters (transformFromDb row).
Proof.
  intros Htags. unfold GameStorage.passesFilters, conditions, searched.
  rewrite forallb_app.
  replace (match filter_tags filters with
           | Some wanted =>
               (0 <? length wanted)%nat
               && negb (existsb (fun filterTag =>
                          existsb (fun gameTag =>
                            includes (toLowerCase gameTag) (toLowerCase filterTag))
                            (tags (transformFromDb row)))
                          wanted)
           | None => false
           end) with false
    by (destruct Htags as [-> | ->]; reflexivity).
  cbn [transformFromDb status featured].
  destruct (filter_status filters) as [[s|]|];
    destruct (filter_featured filters) as [f|];
    cbn [forallb andb]; unfold eq_status, eq_featured;
    try destruct (Status_eqb (row_status row) s);
    try destruct (Bool.eqb (row_featured row) f);
    cbn [negb andb]; try reflexivity;
    destruct (searchTerm filters) as [term|]; try reflexivity;
    destruct (truthy term); cbn [andb]; try reflexivity;
    destruct (matchesSearch _ _ _); reflexivity.
Qed.

Lemma getFiltered_without_tags (filters : GameFilters) (db : Database) :
  outage db = None ->
  filter_tags filters = None \/ filter_tags filters = Some [] ->
  getFiltered array_in toLowerCase filters db
  = filter (searched filters)
      (map transformFromDb
         (order_desc
            (filter (fun row => forallb (fun c => c row) (conditions filters))
               (games db)))).
Proof.
  intros Hup Htags. unfold getFiltered. cbv zeta. fold (conditions filters).
  replace (match filter_tags filters with
           | Some wanted =>
               if (0 <? length wanted)%nat
               then match contains_tags array_in wanted with
                    | Some condition =>
                        select_ordered (conditions filters ++ [condition]) db
                    | None => inr (lit "malformed array literal")
                    end
               else select_ordered (conditions filters) db
           | None => select_ordered (conditions filters) db
           end) with (select_ordered (conditions filters) db)
    by (destruct Htags as [-> | ->]; reflexivity).
  unfold select_ordered. rewrite Hup. unfold searched.
  destruct (searchTerm filters) as [term|].
  - destruct (truthy term); [reflexivity|].
    symmetry. apply filter_always.
  - symmetry. apply filter_always.
Qed.

(** X28. Without a tag filter the two versions of [getFiltered] return
    the same games: on a table and a store that hold the same games, a
    game is in the answer of the Supabase version exactly when it is in
    the answer of the localStorage version.  (The order differs, and so
    does the answer once tags are requested.) *)
Theorem getFiltered_versions_agree_without_tags
    (filters : GameFilters) (db : Database) (st : GameStorage.localStorage)
    (game : Game) :
  outage db = None ->
  stored st = map transformFromDb (games db) ->
  filter_tags filters = None \/ filter_tags filters = Some [] ->
  In game (getFiltered array_in toLowerCase filters db)
  <-> exists answer,
        fst (GameStorage.getFiltered toLowerCase filters st) = Returns answer
        /\ In game answer.
Proof.
  intros Hup Hsame Htags.
  rewrite (getFiltered_without_tags _ _ Hup Htags).
  unfold GameStorage.getFiltered, bind.
  rewrite LocalStorageMore.getAll_stored, Hsame. cbn [ret fst].
  rewrite filter_In, in_map_iff. split.
  - intros [(row & <- & Hrow) Hs].
    apply SupabaseProperties.order_desc_has, filter_In in Hrow.
    destruct Hrow as [Hrow Hc].
    eexists. split; [reflexivity|]. apply filter_In. split.
    + apply in_map, Hrow.
    + rewrite (passesFilters_row _ _ Htags), Hc, Hs. reflexivity.
  - intros (answer & [= <-] & Hin). apply filter_In in Hin.
    destruct Hin as [Hin Hp]. apply in_map_iff in Hin.
    destruct Hin as (row & <- & Hrow).
    rewrite (passesFilters_row _ _ Htags) in Hp.
    apply andb_true_iff in Hp. destruct Hp as [Hc Hs].
    split; [|exact Hs]. exists row. split; [reflexivity|].
    apply SupabaseProperties.order_desc_has, filter_In. split; assumption.
Qed.

End Platform.

End TwoStores.

Lemma getFiltered_versions_agree_without_tags_witness :
  let filters := {| searchTerm := Some (lit "snake"); filter_tags := Some [];
                    filter_featured := None;
                    filter_status := Some (only active) |} in
  let db := {| SupabaseGameStorage.games := [snakeRow];
               SupabaseGameStorage.outage := None |} in
  let st := {| GameStorage.GAMES :=
                 GameStorage.Stored [SupabaseGameStorage.transformFromDb snakeRow];
               GameStorage.APP_STATE := None |} in
  In (SupabaseGameStorage.transformFromDb snakeRow)
     (SupabaseGameStorage.getFiltered (fun _ => None) (map ascii_lower)
        filters db)
  /\ exists answer,
       fst (GameStorage.getFiltered (map ascii_lower) filters st) = Returns answer
       /\ In (SupabaseGameStorage.transformFromDb snakeRow) answer.
Proof.
  intros filters db st.
  assert (Hin : In (SupabaseGameStorage.transformFromDb snakeRow)
                   (SupabaseGameStorage.getFiltered (fun _ => None) (map ascii_lower)
        filters db))
    by (left; reflexivity).
  split; [exact Hin|].
  apply (TwoStores.getFiltered_versions_agree_without_tags (fun _ => None)
           (map ascii_lower) filters db st); [reflexivity|reflexivity|right; reflexivity|exact Hin].
Defined.

(* ===================================================================== *)
(** * GameStorage over localStorage: import *)
(* ===================================================================== *)

Module ImportProperties.

Import GameStorage.

Section Platform.

Variable JSON_parse : jsstring -> ImportData.
Variable setItem_throws : localStorage -> list Game -> option DOMException.

Lemma all_valid (games : list (option Game)) :
  forallb (fun game => match game with Some _ => true | None => false end) games
  = true ->
  games
  = map Some (flat_map (fun game => match game with Some g => [g] | None => [] end)
                games).
Proof.
  induction games as [|[g|] games IH]; cbn [forallb flat_map map app].
  - reflexivity.
  - intros H. rewrite <- (IH H). reflexivity.
  - discriminate.
Qed.

(** X29. An import that returns has replaced the collection: the store
    then holds the games of the file, all of them and as they are in
    the file, and none of the games it held before unless the file has
    them.  Neither the URLs nor the limits of the data model are
    checked on the way. *)
Theorem import_replaces_collection (data : jsstring) (st st' : localStorage) :
  import JSON_parse setItem_throws data st = (Returns tt, st') ->
  exists games,
    JSON_parse data = GamesArray (map Some games)
    /\ stored st' = games
    /\ APP_STATE st' = APP_STATE st.
Proof.
  unfold import, rethrow.
  destruct (JSON_parse data) as [message| |games]; try discriminate.
  destruct (forallb _ games) eqn:Hall; [|discriminate].
  destruct (saveGames _ _ st) as [[[]|e] st''] eqn:E; [|discriminate].
  intros [= <-].
  destruct (LocalStorageMore.saveGames_returns _ _ _ _ E) as [Hst Happ].
  eexists. split; [|split; [exact Hst|exact Happ]].
  f_equal. apply all_valid, Hall.
Qed.

End Platform.

End ImportProperties.

Lemma import_replaces_collection_witness :
  let popup :=
    {| id := lit "7"; title := lit "Free coins";
       url := lit "javascript:alert(1)"; description := None; author := None;
       tags := []; submittedAt := lit "2024-01-05T10:00:00.000Z";
       featured := true; playCount := 1000000; status := active |} in
  let st' := snd (GameStorage.import (fun _ => GamesArray [Some popup])
                    (fun _ _ => None) (lit "{...}") arcade) in
  stored st' = [popup]
  /\ isValid (URLValidator.validate (fun _ => None) (url popup)) = false.
Proof.
  intros popup st'.
  destruct (ImportProperties.import_replaces_collection
              (fun _ => GamesArray [Some popup]) (fun _ _ => None)
              (lit "{...}") arcade st' eq_refl) as (games & Hfile & Hst & _).
  split; [|vm_compute; reflexivity].
  rewrite Hst. destruct games as [|g [|g' games]]; try discriminate Hfile.
  injection Hfile as <-. reflexivity.
Defined.
